(** * Force-directed schema-graph layout (frontend/src/views/DatabaseView.tsx)

  A shallow embedding of [useForceLayout] and [edgePorts].  JavaScript
  numbers are IEEE-754 binary64 values, so they are modelled by Rocq's
  primitive floats, whose [+ - * /] and [sqrt] are the correctly rounded
  operations JavaScript uses.  [Math.cos] and [Math.sin] are
  implementation-approximated in ECMAScript; they are parameters of the
  model.  The object [pos] is an insertion-ordered dictionary. *)

From Stdlib Require Import List String Ascii Bool Arith ZArith Lia.
From Stdlib Require Import DecimalString.
From Stdlib Require Import Permutation.
From Stdlib Require Import Floats.
From Stdlib Require Uint63.
Import ListNotations.

Set Implicit Arguments.

(* Decimal literals denote the nearest binary64 value, as in JavaScript. *)
Set Warnings "-inexact-float".

(** ** JavaScript numbers and the [Math] functions the layout calls *)

Module JS.
Local Open Scope float_scope.

Definition number := float.

(** [Math.PI] *)
Definition PI : number := 0x1.921fb54442d18p+1.

(** An array index or an array length used as a number. *)
Definition of_nat (n : nat) : number :=
  PrimFloat.of_uint63 (Uint63.of_Z (Z.of_nat n)).

Definition is_pos_zero (x : number) : bool :=
  match classify x with PZero => true | _ => false end.

Definition is_neg_zero (x : number) : bool :=
  match classify x with NZero => true | _ => false end.

(** [Math.max(...xs)] (ECMA-262, 21.3.2.24): NaN is contagious, [+0] is
    above [-0], the empty maximum is [-Infinity]. *)
Fixpoint max_from (highest : number) (xs : list number) : number :=
  match xs with
  | [] => highest
  | x :: rest =>
      if is_nan x then nan
      else if (is_pos_zero x && is_neg_zero highest) || (highest <? x)
           then max_from x rest
           else max_from highest rest
  end.

Definition Math_max (xs : list number) : number := max_from neg_infinity xs.

(** [Math.min(...xs)] (ECMA-262, 21.3.2.25). *)
Fixpoint min_from (lowest : number) (xs : list number) : number :=
  match xs with
  | [] => lowest
  | x :: rest =>
      if is_nan x then nan
      else if (is_neg_zero x && is_pos_zero lowest) || (x <? lowest)
           then min_from x rest
           else min_from lowest rest
  end.

Definition Math_min (xs : list number) : number := min_from infinity xs.

Definition Math_sqrt (x : number) : number := PrimFloat.sqrt x.

Definition Math_abs (x : number) : number := PrimFloat.abs x.

(** [Math.ceil]: numbers of magnitude at least 2^52 are integers already;
    below that, adding and subtracting 2^52 rounds to an integer, which is
    then moved up when it fell below the argument. *)
Definition two52 : number := 0x1p+52.

Definition Math_ceil (x : number) : number :=
  if is_nan x || negb (abs x <? two52) || PrimFloat.is_zero x then x
  else if 0 <? x then
    let t := (x + two52) - two52 in
    if t <? x then t + 1 else t
  else
    let a := abs x in
    let t := (a + two52) - two52 in
    - (if a <? t then t - 1 else t).

(** A number is falsy when it is [0], [-0] or [NaN]; [or_else v d] is the
    expression [v || d] on numbers. *)
Definition falsy (v : number) : bool := is_nan v || PrimFloat.is_zero v.

Definition or_else (v d : number) : number := if falsy v then d else v.

(** [a > b] on numbers (false when either side is NaN). *)
Definition gt (a b : number) : bool := b <? a.

End JS.

Import JS.

(** ** Insertion-ordered dictionaries: [Record<string, V>]

  Every key the layout stores has the shape [service ++ ":" ++ id]: it is
  never an array index and never a property of [Object.prototype], so
  [Object.keys], [Object.values] and [Object.entries] enumerate the stored
  keys in insertion order, and a lookup of an absent key is [undefined]. *)

Section Dict.
Variable V : Type.

Definition dict := list (string * V).

Fixpoint lookup (k : string) (d : dict) : option V :=
  match d with
  | [] => None
  | (k', v) :: rest => if String.eqb k k' then Some v else lookup k rest
  end.

(** [d[k] = v]: an existing key keeps its place, a new key goes last. *)
Fixpoint assign (k : string) (v : V) (d : dict) : dict :=
  match d with
  | [] => [(k, v)]
  | (k', v') :: rest =>
      if String.eqb k k' then (k', v) :: rest else (k', v') :: assign k v rest
  end.

Definition Object_keys (d : dict) : list string := map fst d.
Definition Object_values (d : dict) : list V := map snd d.
Definition Object_entries (d : dict) : list (string * V) := d.
End Dict.

Arguments lookup {V} k d.
Arguments assign {V} k v d.
Arguments Object_keys {V} d.
Arguments Object_values {V} d.
Arguments Object_entries {V} d.

(** ** The types of DatabaseView.tsx *)

Module LineageNode.
Record t := mk
  { id : string; label : string; row_count : number; service : string }.
End LineageNode.

Module LineageEdge.
(** [inferred] is not declared by the interface but read by the renderer
    ([(e as any).inferred === true]). *)
Record t := mk
  { source : string; target : string;
    source_column : string; target_column : string;
    service : string; inferred : option bool }.
End LineageEdge.

(** An entry of [pos]: a position and a velocity. *)
Module Particle.
Record t := mk { x : number; y : number; vx : number; vy : number }.
End Particle.

(** An entry of [positions], and an argument of [edgePorts]. *)
Module Point.
Record t := mk { x : number; y : number }.
End Point.

Module Ports.
Record t := mk { x1 : number; y1 : number; x2 : number; y2 : number }.
End Ports.

Definition CARD_W : number := 160%float.
Definition CARD_H : number := 60%float.
Definition REPEL : number := 18000%float.
Definition ATTRACT : number := 0.04%float.
Definition DAMPING : number := 0.82%float.
Definition ITERATIONS : nat := 200.
Definition GAP : number := 220%float.
Definition PAD : number := 40%float.

(** The template literals [`${n.service}:${n.id}`], [`${e.service}:${e.source}`]
  and [`${e.service}:${e.target}`]. *)
Definition node_key (n : LineageNode.t) : string :=
  (LineageNode.service n ++ ":" ++ LineageNode.id n)%string.

Definition source_key (e : LineageEdge.t) : string :=
  (LineageEdge.service e ++ ":" ++ LineageEdge.source e)%string.

Definition target_key (e : LineageEdge.t) : string :=
  (LineageEdge.service e ++ ":" ++ LineageEdge.target e)%string.

(** ** useForceLayout *)

Section ForceLayout.
Local Open Scope float_scope.

(** [Math.cos] and [Math.sin] of the host. *)
Variables Math_cos Math_sin : number -> number.

(** [nodes.forEach((n, i) => ...)] pairs every element with its index. *)
Definition indexed (A : Type) (l : list A) : list (nat * A) :=
  combine (seq 0 (List.length l)) l.

(** The body of the seeding loop for node [n] at index [i]. *)
Definition seed_node (len : nat) (COLS : number)
    (pos : dict Particle.t) (ix : nat * LineageNode.t) : dict Particle.t :=
  let (i, n) := ix in
  let key := node_key n in
  let angle := (2 * PI * of_nat i) / of_nat len in
  let r := GAP * Math_max [1; COLS / 2] in
  assign key
      (Particle.mk (400 + r * Math_cos angle) (300 + r * Math_sin angle) 0 0)
      pos.

Definition seed (nodes : list LineageNode.t) : dict Particle.t :=
  let COLS := Math_ceil (Math_sqrt (of_nat (List.length nodes))) in
  fold_left (seed_node (List.length nodes) COLS) (indexed nodes) [].

(** The force of the repulsion loop between the particles [pa] and [pb]. *)
Definition repel_force (pa pb : Particle.t) : number * number :=
  let dx := Particle.x pb - Particle.x pa in
  let dy := Particle.y pb - Particle.y pa in
  let dist2 := Math_max [dx * dx + dy * dy; 1] in
  let dist := Math_sqrt dist2 in
  let force := REPEL / dist2 in
  ((dx / dist) * force, (dy / dist) * force).

(** [p.vx -= fx; p.vy -= fy] and [p.vx += fx; p.vy += fy] on the object
    stored under [k].  Every object of [pos] is stored under one key only, so
    mutating it in place is storing the updated record under that key; a
    later read through another variable bound to the same object (the two
    ends of a self-loop edge) is a fresh lookup.  The loops take their keys
    from [Object.keys(pos)] or test the lookup first, so the [None] branches
    below and in [repel] and [integrate] are never taken. *)
Definition sub_velocity (k : string) (f : number * number)
    (pos : dict Particle.t) : dict Particle.t :=
  match lookup k pos with
  | Some p =>
      assign k (Particle.mk (Particle.x p) (Particle.y p)
                         (Particle.vx p - fst f) (Particle.vy p - snd f)) pos
  | None => pos
  end.

Definition add_velocity (k : string) (f : number * number)
    (pos : dict Particle.t) : dict Particle.t :=
  match lookup k pos with
  | Some p =>
      assign k (Particle.mk (Particle.x p) (Particle.y p)
                         (Particle.vx p + fst f) (Particle.vy p + snd f)) pos
  | None => pos
  end.

(** The body of the inner repulsion loop for the keys [ka = keys[a]] and
    [kb = keys[b]]. *)
Definition repel (ka kb : string) (pos : dict Particle.t) : dict Particle.t :=
  match lookup ka pos, lookup kb pos with
  | Some pa, Some pb =>
      let f := repel_force pa pb in
      add_velocity kb f (sub_velocity ka f pos)
  | _, _ => pos
  end.

(** [for (a = 0; a < keys.length; a++) for (b = a + 1; b < keys.length; b++)] *)
Fixpoint repulsion (keys : list string) (pos : dict Particle.t)
    : dict Particle.t :=
  match keys with
  | [] => pos
  | ka :: later =>
      repulsion later (fold_left (fun p kb => repel ka kb p) later pos)
  end.

(** The spring force of an edge between the particles [ps] and [pt]. *)
Definition spring_force (ps pt : Particle.t) : number * number :=
  let dx := Particle.x pt - Particle.x ps in
  let dy := Particle.y pt - Particle.y ps in
  let dist := or_else (Math_sqrt (dx * dx + dy * dy)) 1 in
  let ideal := GAP * 1.6 in
  let force := (dist - ideal) * ATTRACT in
  ((dx / dist) * force, (dy / dist) * force).

(** The body of [edges.forEach(e => ...)]. *)
Definition attract (pos : dict Particle.t) (e : LineageEdge.t)
    : dict Particle.t :=
  let sk := source_key e in
  let tk := target_key e in
  match lookup sk pos, lookup tk pos with
  | Some ps, Some pt =>
      let f := spring_force ps pt in
      sub_velocity tk f (add_velocity sk f pos)
  | _, _ => pos
  end.

(** The body of [keys.forEach(k => ...)]: apply velocity and dampen. *)
Definition integrate (pos : dict Particle.t) (k : string) : dict Particle.t :=
  match lookup k pos with
  | Some p =>
      assign k (Particle.mk (Particle.x p + Particle.vx p)
                         (Particle.y p + Particle.vy p)
                         (Particle.vx p * DAMPING)
                         (Particle.vy p * DAMPING)) pos
  | None => pos
  end.

(** One iteration of the simulation loop. *)
Definition iteration (edges : list LineageEdge.t) (pos : dict Particle.t)
    : dict Particle.t :=
  let keys := Object_keys pos in
  let pos1 := repulsion keys pos in
  let pos2 := fold_left attract edges pos1 in
  fold_left integrate keys pos2.

Definition simulate (edges : list LineageEdge.t) (pos : dict Particle.t)
    : dict Particle.t :=
  Nat.iter ITERATIONS (iteration edges) pos.

(** Normalise: shift so min x/y = PAD. *)
Definition normalise (pos : dict Particle.t) : dict Point.t :=
  let minX := Math_min (map Particle.x (Object_values pos)) in
  let minY := Math_min (map Particle.y (Object_values pos)) in
  fold_left
    (fun result (kp : string * Particle.t) =>
       let (k, p) := kp in
       assign k (Point.mk (Particle.x p - minX + PAD) (Particle.y p - minY + PAD))
           result)
    (Object_entries pos) [].

(** The value the effect passes to [setPositions], i.e. what the hook
    returns once the effect has run for [nodes] and [edges]. *)
Definition useForceLayout (nodes : list LineageNode.t)
    (edges : list LineageEdge.t) : dict Point.t :=
  match nodes with
  | [] => []
  | _ => normalise (simulate edges (seed nodes))
  end.

End ForceLayout.

(** ** edgePorts *)

Section EdgePortsModel.
Local Open Scope float_scope.

(** Pick best port so the arrow exits/enters the nearest edge of the card. *)
Definition edgePorts (sp tp : Point.t) : Ports.t :=
  let sx := Point.x sp + CARD_W / 2 in
  let sy := Point.y sp + CARD_H / 2 in
  let tx := Point.x tp + CARD_W / 2 in
  let ty := Point.y tp + CARD_H / 2 in
  let dx := tx - sx in
  let dy := ty - sy in
  if gt (Math_abs dx) (Math_abs dy) then
    (* Horizontal dominant: exit left/right *)
    if gt dx 0
    then Ports.mk (Point.x sp + CARD_W) (Point.y sp + CARD_H / 2)
                  (Point.x tp) (Point.y tp + CARD_H / 2)
    else Ports.mk (Point.x sp) (Point.y sp + CARD_H / 2)
                  (Point.x tp + CARD_W) (Point.y tp + CARD_H / 2)
  else
    (* Vertical dominant: exit top/bottom *)
    if gt dy 0
    then Ports.mk (Point.x sp + CARD_W / 2) (Point.y sp + CARD_H)
                  (Point.x tp + CARD_W / 2) (Point.y tp)
    else Ports.mk (Point.x sp + CARD_W / 2) (Point.y sp)
                  (Point.x tp + CARD_W / 2) (Point.y tp + CARD_H).

End EdgePortsModel.

(** ** SchemaGraph

    The component draws what the hook returned.  Of the JSX it returns the
    model keeps the numbers: the [viewBox], for every edge its connector or
    [null], for every node its card or [null]. *)

Module ViewBox.
Record t := mk
  { min_x : number; min_y : number; width : number; height : number }.
End ViewBox.

(** The connector of an edge: the path [M x1 y1 L mx y1 L mx y2 L x2 y2], the
    label anchored at [(mx, my - 5)], and whether the edge is drawn as an
    inferred relationship. *)
Module Connector.
Record t := mk
  { x1 : number; y1 : number; x2 : number; y2 : number;
    mx : number; my : number; isInferred : bool }.
End Connector.

(** The card of a node: the key of the group and its translation. *)
Module Card.
Record t := mk { key : string; x : number; y : number }.
End Card.

Inductive View : Type :=
| NoTablesLoaded
| CalculatingLayout
| Graph (viewBox : ViewBox.t) (connectors : list (option Connector.t))
        (cards : list (option Card.t)).

Section SchemaGraphModel.
Local Open Scope float_scope.

(** The body of [edges.map((e, i) => ...)]. *)
Definition draw_edge (positions : dict Point.t) (e : LineageEdge.t)
    : option Connector.t :=
  let sk := source_key e in
  let tk := target_key e in
  match lookup sk positions, lookup tk positions with
  | Some sp, Some tp =>
      let r := edgePorts sp tp in
      let mx := (Ports.x1 r + Ports.x2 r) / 2 in
      let my := (Ports.y1 r + Ports.y2 r) / 2 in
      let isInferred :=
        match LineageEdge.inferred e with Some true => true | _ => false end in
      Some (Connector.mk (Ports.x1 r) (Ports.y1 r) (Ports.x2 r) (Ports.y2 r)
                         mx my isInferred)
  | _, _ => None
  end.

(** The body of [nodes.map(n => ...)]. *)
Definition draw_node (positions : dict Point.t) (n : LineageNode.t)
    : option Card.t :=
  let key := node_key n in
  match lookup key positions with
  | Some p => Some (Card.mk key (Point.x p) (Point.y p))
  | None => None
  end.

Definition view_box (positions : dict Point.t) : ViewBox.t :=
  let PAD := 40 in
  let minX := Math_min (map Point.x (Object_values positions)) in
  let minY := Math_min (map Point.y (Object_values positions)) in
  let maxX := Math_max (map Point.x (Object_values positions)) + CARD_W + PAD in
  let maxY := Math_max (map Point.y (Object_values positions)) + CARD_H + PAD in
  let width := Math_max [maxX - minX + PAD * 2; 860] in
  let height := Math_max [maxY - minY + PAD * 2; 340] in
  ViewBox.mk (minX - PAD) (minY - PAD) width height.

(** What the component shows when the hook has returned [positions]. *)
Definition SchemaGraph (nodes : list LineageNode.t)
    (edges : list LineageEdge.t) (positions : dict Point.t) : View :=
  if Nat.eqb (List.length nodes) 0 then NoTablesLoaded
  else if Nat.eqb (List.length (Object_keys positions)) 0
       then CalculatingLayout
       else Graph (view_box positions)
                  (map (draw_edge positions) edges)
                  (map (draw_node positions) nodes).

End SchemaGraphModel.

(** [n.label.length > 18 ? n.label.slice(0, 17) + ellipsis : n.label] on the
    UTF-16 code units of the label, the ellipsis being the one code unit
    U+2026. *)
Section Label.
Variable code_unit : Type.
Variable ellipsis : code_unit.

Definition display_label (label : list code_unit) : list code_unit :=
  if Nat.ltb 18 (List.length label) then firstn 17 label ++ [ellipsis]
  else label.

End Label.

(** ** The state of the hook

    [useForceLayout] keeps the positions in a state that starts as [{}], and
    computes them in an effect whose dependencies are [nodes.length] and
    [edges.length]: React runs the effect after the first render and after
    every render in which one of the two numbers differs from the previous
    render.  [Hook.deps] is the dependency array of the previous render. *)

Module Hook.
Record t := mk { positions : dict Point.t; deps : option (nat * nat) }.
End Hook.

Section HookModel.
Variables Math_cos Math_sin : number -> number.

(** The state with which the first render runs. *)
Definition mount : Hook.t := Hook.mk [] None.

Definition same_deps (prev : option (nat * nat)) (next : nat * nat) : bool :=
  match prev with
  | Some d => Nat.eqb (fst d) (fst next) && Nat.eqb (snd d) (snd next)
  | None => false
  end.

(** The state after a render with [nodes] and [edges] and after its effect,
    if React runs it: [setPositions] then stores the layout of these nodes
    and edges. *)
Definition run_effect (nodes : list LineageNode.t)
    (edges : list LineageEdge.t) (h : Hook.t) : Hook.t :=
  let next := (List.length nodes, List.length edges) in
  if same_deps (Hook.deps h) next then h
  else Hook.mk (useForceLayout Math_cos Math_sin nodes edges) (Some next).

(** What the component shows once the effect of the render has run and the
    new state has been rendered. *)
Definition settled_view (nodes : list LineageNode.t)
    (edges : list LineageEdge.t) (h : Hook.t) : View :=
  SchemaGraph nodes edges (Hook.positions (run_effect nodes edges h)).

End HookModel.

(** ** DatabaseView *)

Module Swatch.
Record t := mk { border : string; fill : string; text : string; dot : string }.
End Swatch.

Definition PALETTE : list Swatch.t :=
  [ Swatch.mk "#6366f1" "#1e1b4b" "#a5b4fc" "#6366f1";
    Swatch.mk "#10b981" "#022c22" "#6ee7b7" "#10b981";
    Swatch.mk "#f59e0b" "#451a03" "#fcd34d" "#f59e0b";
    Swatch.mk "#f43f5e" "#1f0814" "#fda4af" "#f43f5e";
    Swatch.mk "#0ea5e9" "#082030" "#7dd3fc" "#0ea5e9" ].

(** An entry of [allLineage]. *)
Module Lineage.
Record t := mk { nodes : list LineageNode.t; edges : list LineageEdge.t }.
End Lineage.

(** [{ ...n, service: svc }] and [{ ...e, service: svc }]. *)
Definition tag_node (svc : string) (n : LineageNode.t) : LineageNode.t :=
  LineageNode.mk (LineageNode.id n) (LineageNode.label n)
                 (LineageNode.row_count n) svc.

Definition tag_edge (svc : string) (e : LineageEdge.t) : LineageEdge.t :=
  LineageEdge.mk (LineageEdge.source e) (LineageEdge.target e)
                 (LineageEdge.source_column e) (LineageEdge.target_column e)
                 svc (LineageEdge.inferred e).

(** The nodes and edges that [loadSelected] and [loadAll] make of the answer
    [data] of [getLineage(svc)]. *)
Definition tagged (svc : string) (data : Lineage.t) : Lineage.t :=
  Lineage.mk (map (tag_node svc) (Lineage.nodes data))
             (map (tag_edge svc) (Lineage.edges data)).

(** [setAllLineage(prev => ({ ...prev, [svc]: { nodes, edges } }))] for the
    answer [snd load] of [getLineage(fst load)].  A failed request stores
    nothing.  JavaScript enumerates the properties of an object with the
    keys that are array indices first; the statements below about
    [Object.values(allLineage)] are made for every order of enumeration. *)
Definition store_lineage (prev : dict Lineage.t) (load : string * Lineage.t)
    : dict Lineage.t :=
  assign (fst load) (tagged (fst load) (snd load)) prev.

(** [values.flatMap(l => l.nodes).filter(n => n.service === selected)], for
    [values = Object.values(allLineage)]; likewise for the edges. *)
Definition combinedNodes (values : list Lineage.t) (selected : string)
    : list LineageNode.t :=
  filter (fun n => String.eqb (LineageNode.service n) selected)
         (flat_map Lineage.nodes values).

Definition combinedEdges (values : list Lineage.t) (selected : string)
    : list LineageEdge.t :=
  filter (fun e => String.eqb (LineageEdge.service e) selected)
         (flat_map Lineage.edges values).

(** A row of the Tables tab; an optional property that is absent or
    [undefined] is [None]. *)
Module TableSummary.
Record t := mk
  { name : string; service : string;
    score : option number; grade : option string;
    badge_color : option string; row_count : option number;
    summary : option string;
    profiled : option bool; documented : option bool }.
End TableSummary.

(** What [handleProfileAll] reads of a [TableQualityProfile], and
    [handleGenerateAll] of a result of [generateDocs]. *)
Module Profile.
Record t := mk
  { table_name : string; row_count : number; aggregate_score : number;
    grade : string; badge_color : string }.
End Profile.

Module DocResult.
Record t := mk
  { table_name : string; status : string; business_summary : option string }.
End DocResult.

(** [nodes.map(n => ({ name: n.id, service: svc, row_count: n.row_count }))],
    the argument of [setTables] in [loadSelected]. *)
Definition tables_of (svc : string) (nodes : list LineageNode.t)
    : list TableSummary.t :=
  map (fun n => TableSummary.mk (LineageNode.id n) svc None None None
                  (Some (LineageNode.row_count n)) None None None) nodes.

(** The updates of [tables] in [handleProfileAll] and [handleGenerateAll]:
    [prev.map(t => ...)] with [profiles.find(x => x.table_name === t.name)]
    and [results.find(x => x.table_name === t.name)]. *)
Definition with_profile (profiles : list Profile.t) (t : TableSummary.t)
    : TableSummary.t :=
  match find (fun x => String.eqb (Profile.table_name x) (TableSummary.name t))
             profiles with
  | Some p =>
      TableSummary.mk (TableSummary.name t) (TableSummary.service t)
        (Some (Profile.aggregate_score p)) (Some (Profile.grade p))
        (Some (Profile.badge_color p)) (Some (Profile.row_count p))
        (TableSummary.summary t) (Some true) (TableSummary.documented t)
  | None => t
  end.

Definition profiled_tables (profiles : list Profile.t)
    (prev : list TableSummary.t) : list TableSummary.t :=
  map (with_profile profiles) prev.

Definition with_docs (results : list DocResult.t) (t : TableSummary.t)
    : TableSummary.t :=
  match find (fun x => String.eqb (DocResult.table_name x)
                                  (TableSummary.name t)) results with
  | Some r =>
      if String.eqb (DocResult.status r) "success"
      then TableSummary.mk (TableSummary.name t) (TableSummary.service t)
             (TableSummary.score t) (TableSummary.grade t)
             (TableSummary.badge_color t) (TableSummary.row_count t)
             (DocResult.business_summary r)
             (TableSummary.profiled t) (Some true)
      else t
  | None => t
  end.

Definition documented_tables (results : list DocResult.t)
    (prev : list TableSummary.t) : list TableSummary.t :=
  map (with_docs results) prev.

(** ** Connections: DatabaseContext and the colours of DatabaseView

    Of a connection the code below reads the service name only; [details]
    stands for its other properties and [spread] for what [{ ...x, ...c }]
    makes of them. *)

Module Connection.
Section Fields.
Variable D : Type.
Record t := mk { service_name : string; details : D }.
End Fields.
End Connection.

Section Connections.
Variable D : Type.
Variable spread : D -> D -> D.

(** The state update of [addConnection(c)]. *)
Definition addConnection (c : Connection.t D) (prev : list (Connection.t D))
    : list (Connection.t D) :=
  match find (fun x => String.eqb (Connection.service_name x)
                                  (Connection.service_name c)) prev with
  | Some _ =>
      map (fun x =>
             if String.eqb (Connection.service_name x)
                           (Connection.service_name c)
             then Connection.mk (Connection.service_name c)
                                (spread (Connection.details x)
                                        (Connection.details c))
             else x) prev
  | None => prev ++ [c]
  end.

(** The state update of [removeConnection(name)]. *)
Definition removeConnection (name : string) (prev : list (Connection.t D))
    : list (Connection.t D) :=
  filter (fun c => negb (String.eqb (Connection.service_name c) name)) prev.

(** [PALETTE[i % PALETTE.length]]: the index is below [PALETTE.length], so
    the element exists. *)
Definition palette_at (i : nat) : Swatch.t :=
  nth (i mod List.length PALETTE) PALETTE (Swatch.mk "" "" "" "").

(** [connections.forEach((c, i) => { colorMap[c.service_name] = ... })]. *)
Definition colorMap (connections : list (Connection.t D)) : dict Swatch.t :=
  fold_left (fun m (ic : nat * Connection.t D) =>
               assign (Connection.service_name (snd ic)) (palette_at (fst ic)) m)
            (indexed connections) [].

(** [colorMap] is an object literal: a key it does not own is looked up on
    [Object.prototype], and an assignment to [__proto__] makes the assigned
    palette entry the prototype, which a later read of [__proto__] returns.
    So the entries of the dictionary are what the reads of assigned keys
    return, and [inherited] tells the other keys whose read is not
    [undefined]. *)
Definition Object_prototype_names : list string :=
  [ "constructor"; "__defineGetter__"; "__defineSetter__"; "hasOwnProperty";
    "__lookupGetter__"; "__lookupSetter__"; "isPrototypeOf";
    "propertyIsEnumerable"; "toString"; "valueOf"; "__proto__";
    "toLocaleString" ]%string.

Definition inherited (cm : dict Swatch.t) (k : string) : bool :=
  existsb (String.eqb k) Object_prototype_names
  || match lookup "__proto__"%string cm with
     | Some _ => existsb (String.eqb k) ["border"; "fill"; "text"; "dot"]%string
     | None => false
     end.

(** [colorMap[n.service] || PALETTE[0]]: the palette entry with which a card
    is drawn, or [None] when the read yields an inherited value, which has
    none of the properties of a palette entry. *)
Definition card_colour (cm : dict Swatch.t) (service : string)
    : option Swatch.t :=
  match lookup service cm with
  | Some sw => Some sw
  | None => if inherited cm service then None else nth_error PALETTE 0
  end.

End Connections.

(** * Vocabulary of the statements *)

Section Vocabulary.
Local Open Scope float_scope.

(** ** Dictionaries *)

(** Changing the value stored under one key, as a map over the entries. *)
Definition update (V : Type) (k : string) (g : V -> V) (d : dict V)
    : dict V :=
  map (fun kv => if String.eqb k (fst kv) then (fst kv, g (snd kv)) else kv) d.

(** Renaming the keys of a dictionary. *)
Definition rename (V : Type) (f : string -> string) (d : dict V) : dict V :=
  map (fun kv => (f (fst kv), snd kv)) d.

(** [f] is injective on the keys listed in [dom]. *)
Definition inj_on (f : string -> string) (dom : list string) : Prop :=
  forall a b, In a dom -> In b dom -> f a = f b -> a = b.

(** Membership of a key in a list of keys. *)
Definition mem (k : string) (ks : list string) : bool :=
  existsb (String.eqb k) ks.

(** The x coordinate stored under [k], [NaN] when there is none. *)
Definition x_at (k : string) (d : dict Point.t) : number :=
  match lookup k d with Some p => Point.x p | None => nan end.

Definition y_at (k : string) (d : dict Point.t) : number :=
  match lookup k d with Some p => Point.y p | None => nan end.

(** The y coordinate of the particle stored under [k]. *)
Definition particle_y_at (k : string) (d : dict Particle.t) : number :=
  match lookup k d with Some p => Particle.y p | None => nan end.

(** ** Nodes, edges and states of the simulation *)

(** What the layout reads of a node and of an edge. *)
Definition node_geometry (n : LineageNode.t) : string * string :=
  (LineageNode.service n, LineageNode.id n).

Definition edge_geometry (e : LineageEdge.t) : string * string * string :=
  (LineageEdge.service e, LineageEdge.source e, LineageEdge.target e).

(** Two edges are related when the renaming maps the endpoint keys of the
    first to the endpoint keys of the second. *)
Definition edge_renamed (f : string -> string) (e e' : LineageEdge.t)
    : Prop :=
  source_key e' = f (source_key e) /\ target_key e' = f (target_key e).

(** Likewise for the key of two nodes. *)
Definition node_renamed (f : string -> string) (n n' : LineageNode.t)
    : Prop :=
  node_key n' = f (node_key n).

(** Both endpoint keys of [e] are among [ks]. *)
Definition present (ks : list string) (e : LineageEdge.t) : bool :=
  mem (source_key e) ks && mem (target_key e) ks.

(** The state at the start of iteration [n] (counted from 0). *)
Definition state_at (Math_cos Math_sin : number -> number)
    (nodes : list LineageNode.t) (edges : list LineageEdge.t) (n : nat)
    : dict Particle.t :=
  Nat.iter n (iteration edges) (seed Math_cos Math_sin nodes).

(** The translation applied to every particle by the normalisation. *)
Definition translate (minX minY : number) (p : Particle.t) : Point.t :=
  Point.mk (Particle.x p - minX + PAD)%float (Particle.y p - minY + PAD)%float.

(** ** Composite keys *)

(** The node [n] is the table [table] of the service [svc]. *)
Definition is_table (svc table : string) (n : LineageNode.t) : Prop :=
  LineageNode.service n = svc /\ LineageNode.id n = table.

(** ** Velocity changes of the two force loops *)

(** [p.vx -= fx; p.vy -= fy] and [p.vx += fx; p.vy += fy] on a particle. *)
Definition sub_v f p : Particle.t :=
  Particle.mk (Particle.x p) (Particle.y p)
              (Particle.vx p - fst f) (Particle.vy p - snd f).

Definition add_v f p : Particle.t :=
  Particle.mk (Particle.x p) (Particle.y p)
              (Particle.vx p + fst f) (Particle.vy p + snd f).

(** Two particles at the same place. *)
Definition same_place p q : Prop :=
  Particle.x p = Particle.x q /\ Particle.y p = Particle.y q.

(** Same keys in the same order, each particle at the same place. *)
Definition same_places (pos0 pos : dict Particle.t) : Prop :=
  Forall2 (fun a b => fst a = fst b /\ same_place (snd a) (snd b)) pos0 pos.

(** What the particle [p] receives from the particles listed after it: for
    each of them, in order, [p] is [pa] and loses the force. *)
Definition push_later p (later : list Particle.t) : Particle.t :=
  fold_left (fun p' q => sub_v (repel_force p' q) p') later p.

(** What the particle [q] receives from the particles listed before it: for
    each of them, in order, [q] is [pb] and gains the force. *)
Definition push_earlier (earlier : list Particle.t) q : Particle.t :=
  fold_left (fun q' p => add_v (repel_force p q') q') earlier q.

(** The state after the repulsion loop, entry by entry; [earlier] lists the
    particles of the entries already passed. *)
Fixpoint pushed (earlier : list Particle.t) (l : dict Particle.t)
    : dict Particle.t :=
  match l with
  | [] => []
  | (k, p) :: later =>
      (k, push_later (push_earlier earlier p) (map snd later))
        :: pushed (earlier ++ [p]) later
  end.

(** The kick the particle [pa] gives to a later entry. *)
Definition kick (pa : Particle.t) (kq : string * Particle.t)
    : string * Particle.t :=
  (fst kq, add_v (repel_force pa (snd kq)) (snd kq)).

(** An entry that has received the kicks of the particles [earlier]. *)
Definition kicked (earlier : list Particle.t) (kq : string * Particle.t)
    : string * Particle.t :=
  (fst kq, push_earlier earlier (snd kq)).

(** What the edge [e] does to the particle [p] stored under [k], the
    endpoints being read in [pos0]: nothing unless both endpoints are
    there; otherwise the spring force is added if [k] is the source key and
    then subtracted if [k] is the target key. *)
Definition pull (pos0 : dict Particle.t) k p (e : LineageEdge.t) : Particle.t :=
  match lookup (source_key e) pos0, lookup (target_key e) pos0 with
  | Some ps, Some pt =>
      let f := spring_force ps pt in
      let p1 := if String.eqb (source_key e) k then add_v f p else p in
      if String.eqb (target_key e) k then sub_v f p1 else p1
  | _, _ => p
  end.

(** The state after the attraction loop: every particle has received the
    pulls of all edges, in the order of the edge list. *)
Definition pulled (edges : list LineageEdge.t) (pos0 pos : dict Particle.t)
    : dict Particle.t :=
  map (fun kp => (fst kp, fold_left (pull pos0 (fst kp)) edges (snd kp))) pos.

(** [p.x += p.vx; p.y += p.vy; p.vx *= DAMPING; p.vy *= DAMPING] on a
    particle. *)
Definition moved (p : Particle.t) : Particle.t :=
  Particle.mk (Particle.x p + Particle.vx p) (Particle.y p + Particle.vy p)
              (Particle.vx p * DAMPING) (Particle.vy p * DAMPING).


(** ** The forces with their constants written out *)

(** The push of the code, on the displacement [(dx, dy)] of a pair: the
    floor applies to the squared distance, and the direction is divided by
    the square root of the floored value. *)
Definition floored_push (dx dy : number) : number * number :=
  let dist2 := Math_max [dx * dx + dy * dy; 1] in
  let dist := Math_sqrt dist2 in
  let force := 18000 / dist2 in
  ((dx / dist) * force, (dy / dist) * force).

(** The push as the claim words it: magnitude [18000 / max(d^2, 1)] along
    the normalised direction [(dx / d, dy / d)], [d] the distance. *)
Definition inverse_square_push (dx dy : number) : number * number :=
  let d := Math_sqrt (dx * dx + dy * dy) in
  let magnitude := 18000 / Math_max [dx * dx + dy * dy; 1] in
  ((dx / d) * magnitude, (dy / d) * magnitude).

(** The Euclidean length of a force vector. *)
Definition magnitude (f : number * number) : number :=
  Math_sqrt (fst f * fst f + snd f * snd f).

(** The spring force on the displacement [(dx, dy)] of the endpoints, with
    the constants written out. *)
Definition hooke (dx dy : number) : number * number :=
  let dist := or_else (Math_sqrt (dx * dx + dy * dy)) 1 in
  let force := (dist - 352) * 0.04 in
  ((dx / dist) * force, (dy / dist) * force).

(** The force of the repulsion loop between the particles stored under
    [ka] and [kb], and their squared distance. *)
Definition pair_force (d : dict Particle.t) (ka kb : string) : number * number :=
  match lookup ka d, lookup kb d with
  | Some pa, Some pb => repel_force pa pb
  | _, _ => (nan, nan)
  end.

Definition pair_dist2 (d : dict Particle.t) (ka kb : string) : number :=
  match lookup ka d, lookup kb d with
  | Some pa, Some pb =>
      let dx := Particle.x pb - Particle.x pa in
      let dy := Particle.y pb - Particle.y pa in
      dx * dx + dy * dy
  | _, _ => nan
  end.

(** ** Distances and the tolerance around the spring length *)

(** The Euclidean distance of two positions. *)
Definition distance (p q : Point.t) : number :=
  let dx := Point.x q - Point.x p in
  let dy := Point.y q - Point.y p in
  Math_sqrt (dx * dx + dy * dy).

(** The distance between the positions stored under two keys ([NaN] when
    one of them has no position). *)
Definition distance_between (d : dict Point.t) (k1 k2 : string) : number :=
  match lookup k1 d, lookup k2 d with
  | Some p, Some q => distance p q
  | _, _ => nan
  end.


(** The ideal spring length [GAP * 1.6], and the band of 10% around it. *)
Definition ideal_length : number := GAP * 1.6.

Definition within_tolerance (d : number) : bool :=
  Math_abs (d - ideal_length) <=? 0.1 * ideal_length.

Definition beyond_tolerance (d : number) : bool :=
  gt (d - ideal_length) (0.1 * ideal_length).

(** The edge [e] joins the nodes [n1] and [n2], in either direction. *)
Definition joins (e : LineageEdge.t) (n1 n2 : LineageNode.t) : Prop :=
  (source_key e = node_key n1 /\ target_key e = node_key n2)
  \/ (source_key e = node_key n2 /\ target_key e = node_key n1).


(** ** The cards of [edgePorts] *)

(** The centre of a card and the midpoints of its four edges (the y axis of
    the drawing points down: the bottom edge is at [y + CARD_H]). *)
Definition centre (b : Point.t) : number * number :=
  (Point.x b + CARD_W / 2, Point.y b + CARD_H / 2).
Definition left_mid (b : Point.t) : number * number :=
  (Point.x b, Point.y b + CARD_H / 2).
Definition right_mid (b : Point.t) : number * number :=
  (Point.x b + CARD_W, Point.y b + CARD_H / 2).
Definition top_mid (b : Point.t) : number * number :=
  (Point.x b + CARD_W / 2, Point.y b).
Definition bottom_mid (b : Point.t) : number * number :=
  (Point.x b + CARD_W / 2, Point.y b + CARD_H).

(** Where the connector leaves the source card and where it reaches the
    target card. *)
Definition exit_port (r : Ports.t) : number * number := (Ports.x1 r, Ports.y1 r).
Definition entry_port (r : Ports.t) : number * number := (Ports.x2 r, Ports.y2 r).

(** ** The host's [Math.cos] and [Math.sin]

    The seeding of two or three nodes evaluates the trigonometric functions
    at [0], at [Math.PI] and at the two angles [2*PI*1/3] and [2*PI*2/3].
    [trig_table] lists, for these arguments, the correctly rounded cosine
    and sine, which are the values the fdlibm-derived [Math.cos] and
    [Math.sin] of the common engines return; [ref_cos] and [ref_sin] read
    the table and are [NaN] elsewhere. *)

(** The angle at which the seeding puts the node of index [i] out of [len]. *)
Definition seed_angle (i len : nat) : number :=
  ((2 * PI * of_nat i) / of_nat len)%float.

(** Argument, cosine and sine. *)
Definition trig_table : list (number * (number * number)) :=
  [ (0, (1, 0));
    (seed_angle 1 2, (-1, 0x1.1a62633145c07p-53));
    (seed_angle 1 3, (-0x1.ffffffffffffcp-2, 0x1.bb67ae8584cabp-1));
    (seed_angle 2 3, (-0x1.0000000000004p-1, -0x1.bb67ae8584ca8p-1)) ]%float.

Fixpoint table_at (a : number) (t : list (number * (number * number)))
    : number * number :=
  match t with
  | [] => (nan, nan)
  | (a', cs) :: rest => if PrimFloat.Leibniz.eqb a a' then cs else table_at a rest
  end.

Definition ref_cos (a : number) : number := fst (table_at a trig_table).
Definition ref_sin (a : number) : number := snd (table_at a trig_table).

(** [v] is the float [c] or one of its two neighbours. *)
Definition within_ulp (c v : number) : Prop :=
  v = next_down c \/ v = c \/ v = next_up c.

(** What is assumed of the host's [Math.cos] and [Math.sin]: the values at
    [+0] that ECMA-262 prescribes, and at the other arguments of
    [trig_table] a result within one unit in the last place of the
    correctly rounded one. *)
Definition host_trig_accurate (Math_cos Math_sin : number -> number) : Prop :=
  Math_cos 0 = 1 /\ Math_sin 0 = 0
  /\ forall a c s, In (a, (c, s)) trig_table ->
       within_ulp c (Math_cos a) /\ within_ulp s (Math_sin a).

(** ** Concrete nodes, edges and states *)

(** Three tables of one service and the edges between the first two. *)
Definition node_A : LineageNode.t := LineageNode.mk "A" "A" 0 "s".
Definition node_B : LineageNode.t := LineageNode.mk "B" "B" 0 "s".
Definition node_C : LineageNode.t := LineageNode.mk "C" "C" 0 "s".
Definition edge_AB : LineageEdge.t := LineageEdge.mk "A" "B" "b_id" "id" "s" None.
Definition edge_BA : LineageEdge.t := LineageEdge.mk "B" "A" "a_id" "id" "s" None.

(** The renaming that sends the keys of [node_A], [node_B] and [node_C] to
    three given keys. *)
Definition to_keys (ka kb kc : string) (k : string) : string :=
  if String.eqb k "s:A" then ka
  else if String.eqb k "s:B" then kb
  else if String.eqb k "s:C" then kc
  else k.

(** Tables of two services and an edge that names one table of each. *)
Definition orders_node : LineageNode.t :=
  LineageNode.mk "orders" "orders" 120%float "sales".
Definition users_node : LineageNode.t :=
  LineageNode.mk "users" "users" 40%float "crm".
Definition cross_edge : LineageEdge.t :=
  LineageEdge.mk "orders" "users" "user_id" "id" "sales" None.

(** Two inputs that differ in labels, row counts, column names and the
    inferred flag only. *)
Definition orders_relabelled : LineageNode.t :=
  LineageNode.mk "orders" "Customer orders" 98000%float "sales".
Definition customers_node : LineageNode.t :=
  LineageNode.mk "customers" "customers" 7%float "sales".
Definition customers_relabelled : LineageNode.t :=
  LineageNode.mk "customers" "Customers (EU)" 0%float "sales".
Definition declared_fk : LineageEdge.t :=
  LineageEdge.mk "orders" "customers" "customer_id" "id" "sales" None.
Definition inferred_fk : LineageEdge.t :=
  LineageEdge.mk "orders" "customers" "cust" "customer_key" "sales" (Some true).

(** Colliding composite keys: the table [c] of the service [a:b] has the
    key [a:b:c], which is also the source key of an edge of the service [a]
    whose source is named [b:c]. *)
Definition collide_n1 : LineageNode.t := LineageNode.mk "c" "c" 0%float "a:b".
Definition collide_e : LineageEdge.t :=
  LineageEdge.mk "b:c" "d" "id" "id" "a" None.

(** The table [b:c] of the service [a]: a node different from [collide_n1]
    with the same composite key. *)
Definition collide_n3 : LineageNode.t := LineageNode.mk "b:c" "b:c" 0 "a".

(** Two particles at rest, half a unit apart. *)
Definition close_a : Particle.t := Particle.mk 0 0 0 0.
Definition close_b : Particle.t := Particle.mk 0.5 0 0 0.

(** The state in which 46 parallel edges between two nodes have brought
    them within distance 1 of each other: the start of iteration 140. *)
Definition squeezed : dict Particle.t :=
  state_at ref_cos ref_sin [node_A; node_B] (repeat edge_AB 46) 140.

(** Three tables with the edges from the first to the two others: the
    final state of the simulation and the returned positions. *)
Definition edge_AC : LineageEdge.t := LineageEdge.mk "A" "C" "c_id" "id" "s" None.

Definition fan_final : dict Particle.t :=
  simulate [edge_AB; edge_AC] (seed ref_cos ref_sin [node_A; node_B; node_C]).

Definition fan_layout : dict Point.t :=
  useForceLayout ref_cos ref_sin [node_A; node_B; node_C] [edge_AB; edge_AC].

(** The layout of two nodes joined by a hundred parallel edges. *)
Definition overdriven : dict Point.t :=
  useForceLayout ref_cos ref_sin [node_A; node_B] (repeat edge_AB 100).




End Vocabulary.

(** * Vocabulary of the statements about the callers *)

Section CallerVocabulary.
Local Open Scope float_scope.

(** ** The layout *)

(** A particle without velocity at a finite place. *)
Definition at_rest (p : Particle.t) : Prop :=
  Particle.vx p = 0 /\ Particle.vy p = 0
  /\ is_finite (Particle.x p) = true /\ is_finite (Particle.y p) = true.

(** One iteration, entry by entry: the pushes of the repulsion loop, the
    pulls of the edges with the endpoints read where the iteration started,
    then the move. *)
Definition closed_step (edges : list LineageEdge.t) (pos : dict Particle.t)
    : dict Particle.t :=
  map (fun kp => (fst kp, moved (snd kp))) (pulled edges pos (pushed [] pos)).

(** ** SchemaGraph *)

(** Something is drawn. *)
Definition drawn (A : Type) (c : option A) : bool :=
  match c with Some _ => true | None => false end.

(** [c] is the card of [n], at the position that [n] has in [positions]. *)
Definition card_at (positions : dict Point.t) (n : LineageNode.t)
    (c : option Card.t) : Prop :=
  exists p, lookup (node_key n) positions = Some p
            /\ c = Some (Card.mk (node_key n) (Point.x p) (Point.y p)).

(** The centres of the two cards differ: their displacement is dominated by
    its x component, or its y component is positive or negative.  (One card
    on top of the other, and coordinates that are not numbers, are what is
    left out.) *)
Definition apart (sp tp : Point.t) : Prop :=
  let dx := (Point.x tp + CARD_W / 2) - (Point.x sp + CARD_W / 2) in
  let dy := (Point.y tp + CARD_H / 2) - (Point.y sp + CARD_H / 2) in
  gt (Math_abs dx) (Math_abs dy) = true
  \/ gt dy 0 = true \/ (dy <? 0) = true.

(** ** DatabaseView *)

(** [allLineage] after the answers [loads] of [getLineage], in the order in
    which their state updates ran. *)
Definition loaded (loads : list (string * Lineage.t)) : dict Lineage.t :=
  fold_left store_lineage loads [].

(** The last answer for [svc] among [loads]. *)
Definition last_loaded (svc : string) (loads : list (string * Lineage.t))
    : option Lineage.t :=
  option_map snd (find (fun l => String.eqb svc (fst l)) (rev loads)).

(** Every node and every edge of the entry carries the service under which
    the entry is stored. *)
Definition well_tagged (kl : string * Lineage.t) : Prop :=
  (forall n, In n (Lineage.nodes (snd kl)) -> LineageNode.service n = fst kl)
  /\ (forall e, In e (Lineage.edges (snd kl)) -> LineageEdge.service e = fst kl).

(** An answer of the backend that updates the table list. *)
Inductive Response : Type :=
| Profiles (profiles : list Profile.t)
| Docs (results : list DocResult.t).

Definition merge (tables : list TableSummary.t) (r : Response)
    : list TableSummary.t :=
  match r with
  | Profiles ps => profiled_tables ps tables
  | Docs rs => documented_tables rs tables
  end.

(** ** Connections *)

Definition names (D : Type) (l : list (Connection.t D)) : list string :=
  map (@Connection.service_name D) l.

Inductive Change (D : Type) : Type :=
| Add (c : Connection.t D)
| Remove (name : string).

Definition apply_change (D : Type) (spread : D -> D -> D)
    (l : list (Connection.t D)) (ch : Change D) : list (Connection.t D) :=
  match ch with
  | Add c => addConnection spread c l
  | Remove _ name => removeConnection name l
  end.

(** ** Concrete inputs *)

(** Two tables of another service, with one relationship. *)
Definition invoices_node : LineageNode.t :=
  LineageNode.mk "invoices" "invoices" 12 "billing".
Definition payments_node : LineageNode.t :=
  LineageNode.mk "payments" "payments" 30 "billing".
Definition payment_fk : LineageEdge.t :=
  LineageEdge.mk "payments" "invoices" "invoice_id" "id" "billing" None.

(** An answer of [getLineage] before it is tagged. *)
Definition sales_answer : Lineage.t :=
  Lineage.mk [orders_node; customers_node] [declared_fk].

(** What is stored of two services: the tables of [crm], and the tables of
    [sales] with a foreign key between two of them and one to a table of
    [crm]. *)
Definition two_services : list Lineage.t :=
  [ Lineage.mk [users_node] [];
    Lineage.mk [orders_node; customers_node] [declared_fk; cross_edge] ].

(** Connections without further properties. *)
Definition sales_connection : Connection.t unit := Connection.mk "sales" tt.
Definition crm_connection : Connection.t unit := Connection.mk "crm" tt.
Definition keep_unit (x c : unit) : unit := c.

End CallerVocabulary.

(** * Vocabulary of the statements about IEEE-754 numbers *)

Section NumberVocabulary.
Local Open Scope Z_scope.

(** The place of a number in the order of the comparisons: the class, then
    the exponent, then the mantissa. *)
Definition rank (f : spec_float) : Z * (Z * Z) :=
  match f with
  | S754_infinity true => (-2, (0, 0))
  | S754_finite true m e => (-1, (- e, - Z.pos m))
  | S754_zero _ => (0, (0, 0))
  | S754_nan => (0, (0, 0))
  | S754_finite false m e => (1, (e, Z.pos m))
  | S754_infinity false => (2, (0, 0))
  end.

Definition below (a b : Z * (Z * Z)) : Prop :=
  fst a < fst b
  \/ (fst a = fst b
      /\ (fst (snd a) < fst (snd b)
          \/ (fst (snd a) = fst (snd b) /\ snd (snd a) < snd (snd b)))).

Definition number_sf (f : spec_float) : Prop := f <> S754_nan.

(** Zero, a positive finite number or plus infinity. *)
Definition not_negative (f : spec_float) : Prop :=
  match f with
  | S754_zero _ => True
  | S754_finite s _ _ => s = false
  | S754_infinity s => s = false
  | S754_nan => False
  end.

Definition finite_sf (f : spec_float) : Prop :=
  match f with
  | S754_zero _ | S754_finite _ _ _ => True
  | _ => False
  end.

(** At least 40: plus infinity, or a positive number whose exponent and
    mantissa are not below those of 40. *)
Definition at_least_40 (f : spec_float) : Prop :=
  match f with
  | S754_infinity s => s = false
  | S754_finite s m e =>
      s = false /\ (-47 < e \/ (e = -47 /\ 5629499534213120 <= Z.pos m))
  | _ => False
  end.

End NumberVocabulary.

(** * Vocabulary of the statements about unconnected nodes *)

Section SpreadVocabulary.
Local Open Scope float_scope.



























End SpreadVocabulary.

(** * Verification *)

(** ** Tactics *)

(** Split a conjunction into its conjuncts, without touching them. *)
Ltac conjuncts := repeat match goal with |- _ /\ _ => split end.

(** Evaluate the seeding of a concrete node list, keeping the host's
    trigonometric functions symbolic. *)
Ltac eval_seed :=
  match goal with
  | |- context [seed ?c ?s ?nodes] =>
      let t := eval vm_compute in (seed c s nodes) in
      change (seed c s nodes) with t
  end.

(** Key lists of concatenations, written as concatenations of key lists. *)
Ltac keys_normal :=
  unfold Object_keys in *;
  repeat (rewrite ?map_app, <- ?app_assoc in *; cbn [map fst app] in * ).

(** ** Dictionaries *)

Section DictFacts.
Variable V : Type.
Implicit Types (d : dict V) (k : string) (v : V).

Lemma lookup_assign_same k v d : lookup k (assign k v d) = Some v.
Proof.
  induction d as [|[k' v'] d IH]; simpl.
  - now rewrite String.eqb_refl.
  - destruct (String.eqb k k') eqn:E; simpl; rewrite E; auto.
Qed.

Lemma lookup_assign_other k k' v d :
  k <> k' -> lookup k' (assign k v d) = lookup k' d.
Proof.
  intros Hne. induction d as [|[k0 v0] d IH]; simpl.
  - destruct (String.eqb k' k) eqn:E; auto.
    apply String.eqb_eq in E. congruence.
  - destruct (String.eqb k k0) eqn:E; simpl.
    + apply String.eqb_eq in E. subst k0.
      destruct (String.eqb k' k) eqn:E'; auto.
      apply String.eqb_eq in E'. congruence.
    + now rewrite IH.
Qed.

Lemma lookup_None k d : lookup k d = None <-> ~ In k (Object_keys d).
Proof.
  induction d as [|[k' v'] d IH]; simpl.
  - tauto.
  - destruct (String.eqb k k') eqn:E.
    + apply String.eqb_eq in E. subst. split; [discriminate | tauto].
    + apply String.eqb_neq in E. rewrite IH. split.
      * intros H [H'|H']; [congruence | tauto].
      * tauto.
Qed.

Lemma lookup_Some_In k v d : lookup k d = Some v -> In k (Object_keys d).
Proof.
  intros H. destruct (in_dec string_dec k (Object_keys d)) as [|n]; auto.
  apply lookup_None in n. congruence.
Qed.

Lemma In_lookup k d : In k (Object_keys d) -> exists v, lookup k d = Some v.
Proof.
  intros H. destruct (lookup k d) as [v|] eqn:E; eauto.
  apply lookup_None in E. tauto.
Qed.

Lemma keys_assign_present k v d :
  In k (Object_keys d) -> Object_keys (assign k v d) = Object_keys d.
Proof.
  induction d as [|[k' v'] d IH]; simpl; [intros []|].
  intros H. destruct (String.eqb k k') eqn:E; simpl; auto.
  apply String.eqb_neq in E. f_equal. apply IH.
  destruct H; [congruence | assumption].
Qed.

Lemma keys_assign_absent k v d :
  ~ In k (Object_keys d) -> Object_keys (assign k v d) = Object_keys d ++ [k].
Proof.
  induction d as [|[k' v'] d IH]; simpl; auto.
  intros H. destruct (String.eqb k k') eqn:E; simpl.
  - apply String.eqb_eq in E. subst. tauto.
  - f_equal. apply IH. tauto.
Qed.

Lemma In_keys_assign k k' v d :
  In k' (Object_keys (assign k v d)) <-> k = k' \/ In k' (Object_keys d).
Proof.
  destruct (in_dec string_dec k (Object_keys d)) as [i|n].
  - rewrite keys_assign_present by assumption.
    split; [tauto | intros [<-|]; auto].
  - rewrite keys_assign_absent by assumption. rewrite in_app_iff. simpl. tauto.
Qed.

Lemma NoDup_keys_assign k v d :
  NoDup (Object_keys d) -> NoDup (Object_keys (assign k v d)).
Proof.
  intros H. destruct (in_dec string_dec k (Object_keys d)) as [i|n].
  - now rewrite keys_assign_present.
  - rewrite keys_assign_absent by assumption.
    apply NoDup_app; auto.
    + constructor; [simpl; tauto | constructor].
    + intros a Ha [<-|[]]. tauto.
Qed.

Lemma update_absent k g d : ~ In k (Object_keys d) -> update k g d = d.
Proof.
  induction d as [|[k' v'] d IH]; simpl; auto.
  intros H. destruct (String.eqb k k') eqn:E.
  - apply String.eqb_eq in E. subst. tauto.
  - f_equal. apply IH. tauto.
Qed.

(** Read, change and write back: the shape of every mutation of the layout. *)
Lemma modify_update k g d :
  NoDup (Object_keys d) ->
  match lookup k d with Some v => assign k (g v) d | None => d end
  = update k g d.
Proof.
  induction d as [|[k' v'] d IH]; simpl; auto.
  intros Hnd. inversion Hnd as [|? ? Hni Hnd']; subst.
  destruct (String.eqb k k') eqn:E.
  - apply String.eqb_eq in E. subst k'. now rewrite update_absent.
  - specialize (IH Hnd'). destruct (lookup k d); f_equal; auto.
Qed.

Lemma keys_update k g d : Object_keys (update k g d) = Object_keys d.
Proof.
  unfold update, Object_keys. rewrite map_map. apply map_ext.
  intros [k' v']; simpl. now destruct (String.eqb k k').
Qed.

Lemma lookup_update k k' g d :
  lookup k' (update k g d)
  = option_map (fun v => if String.eqb k k' then g v else v) (lookup k' d).
Proof.
  induction d as [|[k0 v0] d IH]; simpl; auto.
  destruct (String.eqb k k0) eqn:E; simpl.
  - destruct (String.eqb k' k0) eqn:E'; simpl; auto.
    apply String.eqb_eq in E, E'. subst. now rewrite String.eqb_refl.
  - destruct (String.eqb k' k0) eqn:E'; simpl; auto.
    apply String.eqb_eq in E'. subst. now rewrite E.
Qed.

Lemma keys_modify k g d :
  Object_keys (match lookup k d with Some v => assign k (g v) d | None => d end)
  = Object_keys d.
Proof.
  destruct (lookup k d) eqn:E; auto.
  apply keys_assign_present. eapply lookup_Some_In; eauto.
Qed.

Lemma keys_rename f d : Object_keys (rename f d) = map f (Object_keys d).
Proof. unfold rename, Object_keys. now rewrite !map_map. Qed.

Lemma values_rename f d : Object_values (rename f d) = Object_values d.
Proof. unfold rename, Object_values. now rewrite map_map. Qed.

Lemma rename_id d : rename (fun k => k) d = d.
Proof.
  unfold rename. rewrite <- (map_id d) at 2. apply map_ext. now intros [].
Qed.

Lemma eqb_inj_on f dom a b :
  inj_on f dom -> In a dom -> In b dom -> String.eqb (f a) (f b) = String.eqb a b.
Proof.
  intros Hf Ha Hb. destruct (String.eqb a b) eqn:E.
  - apply String.eqb_eq in E. subst. apply String.eqb_refl.
  - apply String.eqb_neq. apply String.eqb_neq in E. auto.
Qed.

Lemma lookup_rename f dom k d :
  inj_on f dom -> In k dom -> incl (Object_keys d) dom ->
  lookup (f k) (rename f d) = lookup k d.
Proof.
  intros Hf Hk. induction d as [|[k' v'] d IH]; simpl; auto.
  intros Hd. rewrite (eqb_inj_on k k' Hf Hk) by (apply Hd; simpl; auto).
  rewrite IH; auto. intros a Ha. apply Hd. simpl. auto.
Qed.

Lemma assign_rename f dom k v d :
  inj_on f dom -> In k dom -> incl (Object_keys d) dom ->
  assign (f k) v (rename f d) = rename f (assign k v d).
Proof.
  intros Hf Hk. induction d as [|[k' v'] d IH]; simpl; auto.
  intros Hd. rewrite (eqb_inj_on k k' Hf Hk) by (apply Hd; simpl; auto).
  destruct (String.eqb k k'); simpl; auto.
  rewrite IH; auto. intros a Ha. apply Hd. simpl. auto.
Qed.

Lemma modify_rename f dom k g d :
  inj_on f dom -> In k dom -> incl (Object_keys d) dom ->
  match lookup (f k) (rename f d) with
  | Some v => assign (f k) (g v) (rename f d)
  | None => rename f d
  end
  = rename f (match lookup k d with Some v => assign k (g v) d | None => d end).
Proof.
  intros Hf Hk Hd. rewrite (lookup_rename k d Hf Hk Hd).
  destruct (lookup k d); auto. eapply assign_rename; eauto.
Qed.

End DictFacts.

(** ** The simulation never changes the key set of [pos] *)

Section KeysPreserved.
Implicit Types (pos : dict Particle.t) (k : string).

Lemma keys_sub_velocity k f pos :
  Object_keys (sub_velocity k f pos) = Object_keys pos.
Proof. apply keys_modify with (g := fun p => Particle.mk _ _ _ _). Qed.

Lemma keys_add_velocity k f pos :
  Object_keys (add_velocity k f pos) = Object_keys pos.
Proof. apply keys_modify with (g := fun p => Particle.mk _ _ _ _). Qed.

Lemma keys_integrate pos k : Object_keys (integrate pos k) = Object_keys pos.
Proof. apply keys_modify with (g := fun p => Particle.mk _ _ _ _). Qed.

Lemma keys_repel ka kb pos : Object_keys (repel ka kb pos) = Object_keys pos.
Proof.
  unfold repel. destruct (lookup ka pos); auto. destruct (lookup kb pos); auto.
  now rewrite keys_add_velocity, keys_sub_velocity.
Qed.

Lemma keys_fold (A : Type) (step : dict Particle.t -> A -> dict Particle.t) :
  (forall pos a, Object_keys (step pos a) = Object_keys pos) ->
  forall l pos, Object_keys (fold_left step l pos) = Object_keys pos.
Proof.
  intros Hstep. induction l as [|a l IH]; simpl; auto.
  intros pos. now rewrite IH.
Qed.

Lemma keys_repulsion keys pos :
  Object_keys (repulsion keys pos) = Object_keys pos.
Proof.
  revert pos. induction keys as [|ka later IH]; simpl; auto.
  intros pos. rewrite IH. apply keys_fold. intros. apply keys_repel.
Qed.

Lemma keys_attract pos e : Object_keys (attract pos e) = Object_keys pos.
Proof.
  unfold attract. destruct (lookup (source_key e) pos); auto.
  destruct (lookup (target_key e) pos); auto.
  now rewrite keys_sub_velocity, keys_add_velocity.
Qed.

Lemma keys_iteration edges pos :
  Object_keys (iteration edges pos) = Object_keys pos.
Proof.
  unfold iteration.
  rewrite (keys_fold integrate keys_integrate).
  rewrite (keys_fold attract keys_attract).
  apply keys_repulsion.
Qed.

Lemma keys_iterations n edges pos :
  Object_keys (Nat.iter n (iteration edges) pos) = Object_keys pos.
Proof.
  induction n as [|n IH]; simpl; auto. now rewrite keys_iteration.
Qed.

Lemma keys_simulate edges pos :
  Object_keys (simulate edges pos) = Object_keys pos.
Proof. apply keys_iterations. Qed.

End KeysPreserved.

(** ** Seeding and normalisation *)

Section SeedNormalise.
Variables Math_cos Math_sin : number -> number.
Implicit Types (pos : dict Particle.t) (k : string).

Lemma indexed_nodes (A : Type) (l : list A) : map snd (indexed l) = l.
Proof.
  unfold indexed. generalize 0. induction l as [|a l IH]; simpl; auto.
  intros n. now rewrite IH.
Qed.

Lemma keys_seed_fold len COLS l pos k :
  In k (Object_keys (fold_left (seed_node Math_cos Math_sin len COLS) l pos))
  <-> In k (Object_keys pos) \/ In k (map (fun ix => node_key (snd ix)) l).
Proof.
  revert pos. induction l as [|[i n] l IH]; simpl; intros pos; [tauto|].
  rewrite IH. unfold seed_node. rewrite In_keys_assign. tauto.
Qed.

Lemma NoDup_seed_fold len COLS l pos :
  NoDup (Object_keys pos) ->
  NoDup (Object_keys (fold_left (seed_node Math_cos Math_sin len COLS) l pos)).
Proof.
  revert pos. induction l as [|[i n] l IH]; simpl; intros pos H; auto.
  apply IH. unfold seed_node. now apply NoDup_keys_assign.
Qed.

Lemma keys_seed nodes k :
  In k (Object_keys (seed Math_cos Math_sin nodes)) <-> In k (map node_key nodes).
Proof.
  unfold seed. rewrite keys_seed_fold. simpl.
  rewrite <- (map_map snd node_key), indexed_nodes. tauto.
Qed.

Lemma NoDup_seed nodes : NoDup (Object_keys (seed Math_cos Math_sin nodes)).
Proof. unfold seed. apply NoDup_seed_fold. constructor. Qed.

Lemma assign_absent (V : Type) k (v : V) (d : dict V) :
  ~ In k (Object_keys d) -> assign k v d = d ++ [(k, v)].
Proof.
  induction d as [|[k' v'] d IH]; simpl; auto.
  intros H. destruct (String.eqb k k') eqn:E.
  - apply String.eqb_eq in E. subst. tauto.
  - f_equal. apply IH. tauto.
Qed.

Lemma assign_fold_fresh (V W : Type) (g : V -> W) (l : dict V) (acc : dict W) :
  NoDup (Object_keys acc ++ Object_keys l) ->
  fold_left (fun result (kp : string * V) =>
               let (k, p) := kp in assign k (g p) result) l acc
  = acc ++ map (fun kp => (fst kp, g (snd kp))) l.
Proof.
  revert acc. induction l as [|[k p] l IH]; simpl; intros acc H.
  - now rewrite app_nil_r.
  - rewrite assign_absent.
    + rewrite IH.
      * now rewrite <- app_assoc.
      * unfold Object_keys in *. rewrite map_app, <- app_assoc. exact H.
    + apply NoDup_remove_2 in H. rewrite in_app_iff in H. tauto.
Qed.

(** On a dictionary without repeated keys the normalisation is a map over
    the entries: every particle is translated by the same two offsets. *)
Lemma normalise_map pos :
  NoDup (Object_keys pos) ->
  normalise pos
  = map (fun kp => (fst kp,
                    translate (Math_min (map Particle.x (Object_values pos)))
                              (Math_min (map Particle.y (Object_values pos)))
                              (snd kp))) pos.
Proof.
  intros H.
  exact (assign_fold_fresh
           (translate (Math_min (map Particle.x (Object_values pos)))
                      (Math_min (map Particle.y (Object_values pos))))
           pos [] H).
Qed.

Lemma keys_normalise pos :
  NoDup (Object_keys pos) -> Object_keys (normalise pos) = Object_keys pos.
Proof.
  intros H. rewrite normalise_map by assumption.
  unfold Object_keys. rewrite map_map. now apply map_ext.
Qed.

Lemma NoDup_simulate edges nodes :
  NoDup (Object_keys (simulate edges (seed Math_cos Math_sin nodes))).
Proof. rewrite keys_simulate. apply NoDup_seed. Qed.

Lemma keys_useForceLayout nodes edges k :
  In k (Object_keys (useForceLayout Math_cos Math_sin nodes edges))
  <-> In k (map node_key nodes).
Proof.
  unfold useForceLayout. destruct nodes as [|n nodes]; [simpl; tauto|].
  rewrite keys_normalise by apply NoDup_simulate.
  rewrite keys_simulate. apply keys_seed.
Qed.

Lemma NoDup_useForceLayout nodes edges :
  NoDup (Object_keys (useForceLayout Math_cos Math_sin nodes edges)).
Proof.
  unfold useForceLayout. destruct nodes as [|n nodes]; [constructor|].
  rewrite keys_normalise by apply NoDup_simulate. apply NoDup_simulate.
Qed.

(** C1.  The keys of the returned position map are exactly the composite
    keys [service:id] of the input nodes: a key has a position if and only
    if it is the key of some node, no key is listed twice, every node finds
    its position, and the map of the empty node list is empty. *)
Theorem C1_position_keys_are_node_keys nodes edges :
  (forall k, In k (Object_keys (useForceLayout Math_cos Math_sin nodes edges))
             <-> In k (map node_key nodes))
  /\ NoDup (Object_keys (useForceLayout Math_cos Math_sin nodes edges))
  /\ (forall n, In n nodes ->
        exists p, lookup (node_key n)
                    (useForceLayout Math_cos Math_sin nodes edges) = Some p)
  /\ useForceLayout Math_cos Math_sin [] edges = [].
Proof.
  split; [|split; [|split]].
  - intros k. apply keys_useForceLayout.
  - apply NoDup_useForceLayout.
  - intros n Hn. apply In_lookup. apply keys_useForceLayout.
    now apply in_map.
  - reflexivity.
Qed.

End SeedNormalise.

(** ** The layout commutes with an injective renaming of the keys

    The simulation uses a key only to find the particle stored under it, so
    renaming the keys of the nodes and of the edge endpoints by a function
    that is injective on them renames the keys of the result and changes
    nothing else. *)

Section Renaming.
Variables Math_cos Math_sin : number -> number.
Variable f : string -> string.
Variable dom : list string.
Hypothesis f_inj : inj_on f dom.
Implicit Types (pos : dict Particle.t) (k : string).

Lemma sub_velocity_rename k F pos :
  In k dom -> incl (Object_keys pos) dom ->
  sub_velocity (f k) F (rename f pos) = rename f (sub_velocity k F pos).
Proof. intros. unfold sub_velocity. eapply modify_rename with (g := fun p => Particle.mk _ _ _ _); eauto. Qed.

Lemma add_velocity_rename k F pos :
  In k dom -> incl (Object_keys pos) dom ->
  add_velocity (f k) F (rename f pos) = rename f (add_velocity k F pos).
Proof. intros. unfold add_velocity. eapply modify_rename with (g := fun p => Particle.mk _ _ _ _); eauto. Qed.

Lemma integrate_rename pos k :
  In k dom -> incl (Object_keys pos) dom ->
  integrate (rename f pos) (f k) = rename f (integrate pos k).
Proof. intros. unfold integrate. eapply modify_rename with (g := fun p => Particle.mk _ _ _ _); eauto. Qed.

Lemma repel_rename ka kb pos :
  In ka dom -> In kb dom -> incl (Object_keys pos) dom ->
  repel (f ka) (f kb) (rename f pos) = rename f (repel ka kb pos).
Proof.
  intros Ha Hb Hpos. unfold repel.
  rewrite !(lookup_rename _ _ f_inj) by assumption.
  destruct (lookup ka pos) as [pa|]; auto.
  destruct (lookup kb pos) as [pb|]; auto.
  rewrite sub_velocity_rename, add_velocity_rename; auto.
  now rewrite keys_sub_velocity.
Qed.

Lemma repel_fold_rename ka kbs pos :
  In ka dom -> incl kbs dom -> incl (Object_keys pos) dom ->
  fold_left (fun p kb => repel (f ka) kb p) (map f kbs) (rename f pos)
  = rename f (fold_left (fun p kb => repel ka kb p) kbs pos).
Proof.
  intros Ha. revert pos. induction kbs as [|kb kbs IH]; simpl; auto.
  intros pos Hk Hpos. rewrite repel_rename; auto with datatypes.
  apply IH.
  - intros a Hin. apply Hk. now right.
  - now rewrite keys_repel.
Qed.

Lemma repulsion_rename keys pos :
  incl keys dom -> incl (Object_keys pos) dom ->
  repulsion (map f keys) (rename f pos) = rename f (repulsion keys pos).
Proof.
  revert pos. induction keys as [|ka later IH]; simpl; auto.
  intros pos Hk Hpos.
  assert (Hl : incl later dom) by (intros a Hin; apply Hk; now right).
  rewrite repel_fold_rename; auto with datatypes.
  apply IH; auto.
  rewrite (keys_fold (fun p kb => repel ka kb p)); auto.
  intros. apply keys_repel.
Qed.

Lemma attract_rename pos e e' :
  edge_renamed f e e' ->
  In (source_key e) dom -> In (target_key e) dom -> incl (Object_keys pos) dom ->
  attract (rename f pos) e' = rename f (attract pos e).
Proof.
  intros [Hs Ht] HsS HtS Hpos. unfold attract. rewrite Hs, Ht.
  rewrite !(lookup_rename _ _ f_inj) by assumption.
  destruct (lookup (source_key e) pos) as [ps|]; auto.
  destruct (lookup (target_key e) pos) as [pt|]; auto.
  rewrite add_velocity_rename, sub_velocity_rename; auto.
  now rewrite keys_add_velocity.
Qed.

Lemma attract_fold_rename edges edges' :
  Forall2 (edge_renamed f) edges edges' ->
  incl (map source_key edges) dom -> incl (map target_key edges) dom ->
  forall pos, incl (Object_keys pos) dom ->
  fold_left attract edges' (rename f pos)
  = rename f (fold_left attract edges pos).
Proof.
  induction 1 as [|e e' edges edges' He Hes IH]; simpl; auto.
  intros Hs Ht pos Hpos.
  rewrite (attract_rename pos He); auto with datatypes.
  apply IH.
  - intros a Hin. apply Hs. now right.
  - intros a Hin. apply Ht. now right.
  - now rewrite keys_attract.
Qed.

Lemma integrate_fold_rename keys pos :
  incl keys dom -> incl (Object_keys pos) dom ->
  fold_left integrate (map f keys) (rename f pos)
  = rename f (fold_left integrate keys pos).
Proof.
  revert pos. induction keys as [|k keys IH]; simpl; auto.
  intros pos Hk Hpos. rewrite integrate_rename; auto with datatypes.
  apply IH.
  - intros a Hin. apply Hk. now right.
  - now rewrite keys_integrate.
Qed.

Lemma iteration_rename edges edges' pos :
  Forall2 (edge_renamed f) edges edges' ->
  incl (map source_key edges) dom -> incl (map target_key edges) dom ->
  incl (Object_keys pos) dom ->
  iteration edges' (rename f pos) = rename f (iteration edges pos).
Proof.
  intros He Hs Ht Hpos. unfold iteration. rewrite keys_rename.
  rewrite repulsion_rename by auto with datatypes.
  rewrite (attract_fold_rename He) by (auto; now rewrite keys_repulsion).
  apply integrate_fold_rename; auto with datatypes.
  rewrite (keys_fold attract keys_attract). now rewrite keys_repulsion.
Qed.

Lemma iterations_rename n edges edges' pos :
  Forall2 (edge_renamed f) edges edges' ->
  incl (map source_key edges) dom -> incl (map target_key edges) dom ->
  incl (Object_keys pos) dom ->
  Nat.iter n (iteration edges') (rename f pos)
  = rename f (Nat.iter n (iteration edges) pos).
Proof.
  intros He Hs Ht Hpos. induction n as [|n IH]; simpl; auto.
  rewrite IH. apply iteration_rename; auto. now rewrite keys_iterations.
Qed.

Lemma normalise_fold_rename minX minY (l : dict Particle.t) (acc : dict Point.t) :
  incl (Object_keys l) dom -> incl (Object_keys acc) dom ->
  fold_left (fun result (kp : string * Particle.t) =>
               let (k, p) := kp in assign k (translate minX minY p) result)
            (rename f l) (rename f acc)
  = rename f (fold_left (fun result (kp : string * Particle.t) =>
               let (k, p) := kp in assign k (translate minX minY p) result)
            l acc).
Proof.
  revert acc. induction l as [|[k p] l IH]; simpl; auto.
  intros acc Hl Hacc.
  rewrite (assign_rename _ _ _ f_inj) by auto with datatypes.
  apply IH.
  - intros a Hin. apply Hl. now right.
  - intros a Hin. apply In_keys_assign in Hin. destruct Hin as [<-|Hin]; auto with datatypes.
Qed.

Lemma normalise_rename pos :
  incl (Object_keys pos) dom ->
  normalise (rename f pos) = rename f (normalise pos).
Proof.
  intros Hpos. unfold normalise, Object_entries. rewrite values_rename.
  apply (@normalise_fold_rename
           (Math_min (map Particle.x (Object_values pos)))
           (Math_min (map Particle.y (Object_values pos))) pos []); auto.
  intros a [].
Qed.

Lemma seed_fold_rename len COLS nodes nodes' :
  Forall2 (node_renamed f) nodes nodes' ->
  incl (map node_key nodes) dom ->
  forall ixs pos, incl (Object_keys pos) dom ->
  fold_left (seed_node Math_cos Math_sin len COLS)
            (combine ixs nodes') (rename f pos)
  = rename f (fold_left (seed_node Math_cos Math_sin len COLS)
            (combine ixs nodes) pos).
Proof.
  induction 1 as [|n n' nodes nodes' Hn Hns IH]; intros Hk ixs pos Hpos.
  - now destruct ixs.
  - destruct ixs as [|i ixs]; simpl; auto. rewrite Hn.
    rewrite (assign_rename _ _ _ f_inj)
      by (auto; apply Hk; simpl; auto).
    apply IH.
    + intros a Hin. apply Hk. now right.
    + intros a Hin. apply In_keys_assign in Hin.
      destruct Hin as [<-|Hin]; auto. apply Hk. simpl. auto.
Qed.

Lemma seed_rename nodes nodes' :
  Forall2 (node_renamed f) nodes nodes' ->
  incl (map node_key nodes) dom ->
  seed Math_cos Math_sin nodes' = rename f (seed Math_cos Math_sin nodes).
Proof.
  intros Hn Hk. unfold seed, indexed.
  rewrite <- (Forall2_length Hn).
  apply (seed_fold_rename _ _ Hn Hk _ []). intros a [].
Qed.

Lemma useForceLayout_rename nodes nodes' edges edges' :
  Forall2 (node_renamed f) nodes nodes' ->
  Forall2 (edge_renamed f) edges edges' ->
  incl (map node_key nodes) dom ->
  incl (map source_key edges) dom -> incl (map target_key edges) dom ->
  useForceLayout Math_cos Math_sin nodes' edges'
  = rename f (useForceLayout Math_cos Math_sin nodes edges).
Proof.
  intros Hn He Hk Hs Ht. unfold useForceLayout.
  destruct Hn as [|n n' nodes nodes' Hn Hns]; auto.
  assert (Hn2 : Forall2 (node_renamed f) (n :: nodes) (n' :: nodes'))
    by now constructor.
  assert (Hseed : incl (Object_keys (seed Math_cos Math_sin (n :: nodes))) dom).
  { intros a Ha. apply Hk. now apply keys_seed in Ha. }
  rewrite (seed_rename Hn2 Hk). unfold simulate.
  rewrite (iterations_rename _ _ He) by assumption.
  apply normalise_rename. now rewrite keys_iterations.
Qed.

End Renaming.

(** ** Fields that do not reach the layout *)

Lemma same_node_geometry nodes nodes' :
  map node_geometry nodes = map node_geometry nodes' ->
  Forall2 (node_renamed (fun k => k)) nodes nodes'.
Proof.
  revert nodes'. induction nodes as [|n nodes IH]; intros [|n' nodes'] H;
    try discriminate; constructor.
  - unfold node_renamed, node_key. simpl in H.
    unfold node_geometry in H at 1 2. now injection H as -> ->.
  - apply IH. now injection H.
Qed.

Lemma same_edge_geometry edges edges' :
  map edge_geometry edges = map edge_geometry edges' ->
  Forall2 (edge_renamed (fun k => k)) edges edges'.
Proof.
  revert edges'. induction edges as [|e edges IH]; intros [|e' edges'] H;
    try discriminate; constructor.
  - unfold edge_renamed, source_key, target_key. simpl in H.
    unfold edge_geometry in H at 1 2. now injection H as -> -> ->.
  - apply IH. now injection H.
Qed.

(** C10.  Two inputs whose node lists agree, position by position, on
    service and id, and whose edge lists agree on service, source and
    target, get the same position map, whatever their labels, row counts,
    column names and inferred flags are. *)
Theorem C10_layout_reads_only_geometry
    (Math_cos Math_sin : number -> number)
    (nodes nodes' : list LineageNode.t) (edges edges' : list LineageEdge.t) :
  map node_geometry nodes = map node_geometry nodes' ->
  map edge_geometry edges = map edge_geometry edges' ->
  useForceLayout Math_cos Math_sin nodes edges
  = useForceLayout Math_cos Math_sin nodes' edges'.
Proof.
  intros Hn He. symmetry.
  rewrite <- (rename_id (useForceLayout Math_cos Math_sin nodes edges)).
  apply useForceLayout_rename
    with (dom := map node_key nodes ++ map source_key edges
                 ++ map target_key edges).
  - intros a b _ _ H. exact H.
  - now apply same_node_geometry.
  - now apply same_edge_geometry.
  - auto with datatypes.
  - auto with datatypes.
  - auto with datatypes.
Qed.

(** ** Dangling edges *)

Lemma mem_In k ks : mem k ks = true <-> In k ks.
Proof.
  unfold mem. rewrite existsb_exists. split.
  - intros [x [Hx E]]. apply String.eqb_eq in E. now subst.
  - intros H. exists k. split; auto. apply String.eqb_refl.
Qed.

Lemma attract_dangling ks pos e :
  (forall k, In k (Object_keys pos) <-> In k ks) ->
  present ks e = false -> attract pos e = pos.
Proof.
  intros Hks Hp. unfold attract.
  destruct (lookup (source_key e) pos) eqn:Es; auto.
  destruct (lookup (target_key e) pos) eqn:Et; auto.
  apply lookup_Some_In, Hks, mem_In in Es.
  apply lookup_Some_In, Hks, mem_In in Et.
  unfold present in Hp. rewrite Es, Et in Hp. discriminate.
Qed.

Lemma attract_fold_present ks edges :
  forall pos, (forall k, In k (Object_keys pos) <-> In k ks) ->
  fold_left attract (filter (present ks) edges) pos
  = fold_left attract edges pos.
Proof.
  induction edges as [|e edges IH]; simpl; auto.
  intros pos Hks. destruct (present ks e) eqn:Ep; simpl.
  - apply IH. intros k. now rewrite keys_attract.
  - rewrite attract_dangling with (ks := ks) by assumption. now apply IH.
Qed.

Lemma iteration_present ks edges pos :
  (forall k, In k (Object_keys pos) <-> In k ks) ->
  iteration (filter (present ks) edges) pos = iteration edges pos.
Proof.
  intros Hks. unfold iteration. rewrite attract_fold_present; auto.
  intros k. now rewrite keys_repulsion.
Qed.

Lemma iterations_present n ks edges pos :
  (forall k, In k (Object_keys pos) <-> In k ks) ->
  Nat.iter n (iteration (filter (present ks) edges)) pos
  = Nat.iter n (iteration edges) pos.
Proof.
  intros Hks. induction n as [|n IH]; simpl; auto.
  rewrite IH. apply iteration_present.
  intros k. now rewrite keys_iterations.
Qed.

Lemma simulate_present ks edges pos :
  (forall k, In k (Object_keys pos) <-> In k ks) ->
  simulate (filter (present ks) edges) pos = simulate edges pos.
Proof. apply iterations_present. Qed.

(** C6.  An edge whose source key or target key is the key of no node
    exerts no force: the layout of [nodes] with all of [edges] is the layout
    with only the edges that have both endpoints among the node keys. *)
Theorem C6_dangling_edges_are_ignored
    (Math_cos Math_sin : number -> number)
    (nodes : list LineageNode.t) (edges : list LineageEdge.t) :
  useForceLayout Math_cos Math_sin nodes edges
  = useForceLayout Math_cos Math_sin nodes
      (filter (present (map node_key nodes)) edges).
Proof.
  unfold useForceLayout. destruct nodes as [|n nodes]; [reflexivity|].
  rewrite simulate_present; [reflexivity|].
  intros k. apply keys_seed.
Qed.

(** ** Facts of IEEE-754 arithmetic used below *)

Section FloatFacts.
Local Open Scope float_scope.

Lemma Prim2SF_zero : Prim2SF 0 = S754_zero false.
Proof. reflexivity. Qed.

(** [x < 0] excludes [x > 0]. *)
Lemma lt_zero_not_gt x : (x <? 0) = true -> gt x 0 = false.
Proof.
  unfold gt. rewrite !FloatAxioms.ltb_spec, Prim2SF_zero.
  destruct (Prim2SF x) as [s|s| |s m e]; simpl; try discriminate.
  - now destruct s.
  - now destruct s.
Qed.

Lemma Prim2SF_one : Prim2SF 1 = S754_finite false 4503599627370496 (-52).
Proof. reflexivity. Qed.

Lemma Prim2SF_neg_infinity : Prim2SF neg_infinity = S754_infinity true.
Proof. reflexivity. Qed.

Lemma Prim2SF_infinity : Prim2SF infinity = S754_infinity false.
Proof. reflexivity. Qed.

Lemma SFcompare_finite_refl s m e :
  SFcompare (S754_finite s m e) (S754_finite s m e) = Some Eq.
Proof.
  simpl. rewrite Z.compare_refl, Pos.compare_cont_refl. now destruct s.
Qed.

(** What follows from [c <= s] for a positive finite [c]: [s] is not NaN,
    it is above [-Infinity] and it is not below [c]. *)
Lemma SFleb_finite_facts m1 e1 s :
  SFleb (S754_finite false m1 e1) s = true ->
  SFeqb s s = true /\ SFltb (S754_infinity true) s = true
  /\ SFltb s (S754_finite false m1 e1) = false.
Proof.
  destruct s as [s|s| |s m e]; try discriminate.
  - destruct s; try discriminate. intros _. repeat split.
  - unfold SFleb, SFltb, SFeqb. rewrite SFcompare_finite_refl.
    destruct s; try discriminate. simpl.
    rewrite (Z.compare_antisym e e1).
    destruct (e ?= e1)%Z eqn:E; simpl; try discriminate; auto.
    change (Pos.compare_cont Eq m1 m) with (Pos.compare m1 m).
    change (Pos.compare_cont Eq m m1) with (Pos.compare m m1).
    rewrite (Pos.compare_antisym m1 m).
    destruct (Pos.compare m1 m); simpl; try discriminate; auto.
Qed.

Lemma one_le_facts v :
  (1 <=? v) = true ->
  is_nan v = false /\ (neg_infinity <? v) = true /\ (v <? 1) = false.
Proof.
  intros H. unfold is_nan. rewrite FloatAxioms.leb_spec, Prim2SF_one in H.
  rewrite FloatAxioms.eqb_spec, !FloatAxioms.ltb_spec.
  rewrite Prim2SF_one, Prim2SF_neg_infinity.
  destruct (SFleb_finite_facts _ _ _ H) as (H1 & H2 & H3).
  now rewrite H1, H2, H3.
Qed.

(** The floor of the repulsion is inactive from distance 1 on. *)
Lemma floor_inactive v : (1 <=? v) = true -> Math_max [v; 1] = v.
Proof.
  intros H. destruct (one_le_facts H) as (Hn & Hl & Hg).
  unfold Math_max, max_from. rewrite Hn, Hl, orb_true_r.
  change (is_nan 1) with false. change (is_pos_zero 1) with false.
  cbn [andb orb]. now rewrite Hg.
Qed.

Lemma finite_spec x :
  is_finite x = true ->
  (exists s, Prim2SF x = S754_zero s)
  \/ (exists s m e, Prim2SF x = S754_finite s m e).
Proof.
  unfold is_finite, is_nan, is_infinity. intros H.
  rewrite !FloatAxioms.eqb_spec, FloatAxioms.abs_spec, Prim2SF_infinity in H.
  revert H.
  destruct (Prim2SF x) as [s|s| |s m e];
    try discriminate; try (destruct s; discriminate); intros _.
  - left. now exists s.
  - right. now exists s, m, e.
Qed.

(** A finite number minus itself is [+0]. *)
Lemma sub_self x : is_finite x = true -> x - x = 0.
Proof.
  intros H. apply Prim2SF_inj. rewrite FloatAxioms.sub_spec.
  destruct (finite_spec x H) as [[s E]|[s [m [e E]]]]; rewrite E.
  - now destruct s.
  - unfold SF64sub, SFsub. rewrite Z.sub_diag. reflexivity.
Qed.

End FloatFacts.

(** ** edgePorts *)

Section EdgePorts.
Local Open Scope float_scope.

(** C8.  With [dx], [dy] the displacement between the two card centres:
    when [|dx| > |dy|] the connector leaves the source at the midpoint of
    its right edge if [dx > 0] and of its left edge if [dx < 0] (indeed
    whenever [dx > 0] fails), and reaches the target at the midpoint of the
    facing edge; otherwise it leaves at the midpoint of the bottom edge if
    [dy > 0] and of the top edge otherwise, again reaching the facing edge
    of the target. *)
Theorem C8_edgePorts_dominant_axis (sp tp : Point.t) :
  let dx := fst (centre tp) - fst (centre sp) in
  let dy := snd (centre tp) - snd (centre sp) in
  let r := edgePorts sp tp in
  (gt (Math_abs dx) (Math_abs dy) = true /\ gt dx 0 = true ->
     exit_port r = right_mid sp /\ entry_port r = left_mid tp)
  /\ (gt (Math_abs dx) (Math_abs dy) = true /\ (dx <? 0) = true ->
     exit_port r = left_mid sp /\ entry_port r = right_mid tp)
  /\ (gt (Math_abs dx) (Math_abs dy) = true /\ gt dx 0 = false ->
     exit_port r = left_mid sp /\ entry_port r = right_mid tp)
  /\ (gt (Math_abs dx) (Math_abs dy) = false /\ gt dy 0 = true ->
     exit_port r = bottom_mid sp /\ entry_port r = top_mid tp)
  /\ (gt (Math_abs dx) (Math_abs dy) = false /\ gt dy 0 = false ->
     exit_port r = top_mid sp /\ entry_port r = bottom_mid tp).
Proof.
  intros dx dy r.
  assert (Hr : r = if gt (Math_abs dx) (Math_abs dy)
                   then if gt dx 0
                        then Ports.mk (fst (right_mid sp)) (snd (right_mid sp))
                                      (fst (left_mid tp)) (snd (left_mid tp))
                        else Ports.mk (fst (left_mid sp)) (snd (left_mid sp))
                                      (fst (right_mid tp)) (snd (right_mid tp))
                   else if gt dy 0
                        then Ports.mk (fst (bottom_mid sp)) (snd (bottom_mid sp))
                                      (fst (top_mid tp)) (snd (top_mid tp))
                        else Ports.mk (fst (top_mid sp)) (snd (top_mid sp))
                                      (fst (bottom_mid tp)) (snd (bottom_mid tp)))
    by reflexivity.
  split; [|split; [|split; [|split]]]; intros [Ha Hd];
    try (apply lt_zero_not_gt in Hd);
    rewrite Hr, Ha, Hd; split; reflexivity.
Qed.

End EdgePorts.

(** ** C10: an input that differs in what the layout does not read *)

Lemma C10_witness_relabelled_input :
  useForceLayout ref_cos ref_sin
    [LineageNode.mk "orders" "orders" 120%float "sales"; customers_node]
    [declared_fk]
  = useForceLayout ref_cos ref_sin
      [orders_relabelled; customers_relabelled] [inferred_fk].
Proof.
  apply C10_layout_reads_only_geometry; reflexivity.
Defined.

(** ** The spring length reached by two and by three nodes *)

Section SpringLength.
Local Open Scope float_scope.

Lemma distance_between_rename f dom (d : dict Point.t) k1 k2 :
  inj_on f dom -> In k1 dom -> In k2 dom -> incl (Object_keys d) dom ->
  distance_between (rename f d) (f k1) (f k2) = distance_between d k1 k2.
Proof.
  intros Hf H1 H2 Hd. unfold distance_between.
  now rewrite !(lookup_rename _ _ Hf).
Qed.

Lemma two_nodes_kernel (Math_cos Math_sin : number -> number) e :
  host_trig_accurate Math_cos Math_sin ->
  e = edge_AB \/ e = edge_BA ->
  within_tolerance
    (distance_between (useForceLayout Math_cos Math_sin [node_A; node_B] [e])
                      "s:A" "s:B") = true.
Proof.
  intros (C0 & S0 & Htab) He.
  pose proof (Htab _ _ _ (or_intror (or_introl eq_refl))) as H1.
  unfold useForceLayout. eval_seed.
  vm_compute in H1. rewrite C0, S0.
  destruct H1 as [[Hc|[Hc|Hc]] [Hs|[Hs|Hs]]]; rewrite Hc, Hs;
    destruct He as [-> | ->]; vm_compute; reflexivity.
Qed.

Lemma three_nodes_kernel (Math_cos Math_sin : number -> number) :
  host_trig_accurate Math_cos Math_sin ->
  let L := useForceLayout Math_cos Math_sin [node_A; node_B; node_C] [edge_AB] in
  within_tolerance (distance_between L "s:A" "s:B") = true
  /\ beyond_tolerance (distance_between L "s:A" "s:C") = true
  /\ beyond_tolerance (distance_between L "s:B" "s:C") = true.
Proof.
  intros (C0 & S0 & Htab).
  pose proof (Htab _ _ _ (or_intror (or_intror (or_introl eq_refl)))) as H1.
  pose proof (Htab _ _ _ (or_intror (or_intror (or_intror (or_introl eq_refl)))))
    as H2.
  unfold useForceLayout. eval_seed.
  vm_compute in H1. vm_compute in H2. rewrite C0, S0.
  destruct H1 as [[Hc1|[Hc1|Hc1]] [Hs1|[Hs1|Hs1]]]; rewrite Hc1, Hs1;
    destruct H2 as [[Hc2|[Hc2|Hc2]] [Hs2|[Hs2|Hs2]]]; rewrite Hc2, Hs2;
    vm_compute; repeat split; reflexivity.
Qed.

Lemma to_keys_inj2 ka kb kc :
  ka <> kb -> inj_on (to_keys ka kb kc) ["s:A"; "s:B"]%string.
Proof.
  intros Hab a b [<-|[<-|[]]] [<-|[<-|[]]]; cbn; intros E;
    auto; congruence.
Qed.

Lemma to_keys_inj3 ka kb kc :
  ka <> kb -> ka <> kc -> kb <> kc ->
  inj_on (to_keys ka kb kc) ["s:A"; "s:B"; "s:C"]%string.
Proof.
  intros Hab Hac Hbc a b [<-|[<-|[<-|[]]]] [<-|[<-|[<-|[]]]]; cbn; intros E;
    auto; congruence.
Qed.

(** Distances in the layout of renamed nodes and edges. *)
Lemma distance_between_layout_rename (Math_cos Math_sin : number -> number)
    f dom nodes nodes' edges edges' k1 k2 :
  inj_on f dom ->
  Forall2 (node_renamed f) nodes nodes' ->
  Forall2 (edge_renamed f) edges edges' ->
  incl (map node_key nodes) dom ->
  incl (map source_key edges) dom -> incl (map target_key edges) dom ->
  In k1 dom -> In k2 dom ->
  distance_between (useForceLayout Math_cos Math_sin nodes' edges') (f k1) (f k2)
  = distance_between (useForceLayout Math_cos Math_sin nodes edges) k1 k2.
Proof.
  intros Hf Hn He Hk Hs Ht H1 H2.
  rewrite (@useForceLayout_rename Math_cos Math_sin f dom Hf
             nodes nodes' edges edges' Hn He Hk Hs Ht).
  apply distance_between_rename with (dom := dom); auto.
  intros k Hin. apply Hk. now apply keys_useForceLayout in Hin.
Qed.

Lemma canonical_keys2 :
  incl (map node_key [node_A; node_B]) ["s:A"; "s:B"]%string.
Proof. intros k Hk. exact Hk. Qed.

Lemma canonical_keys3 :
  incl (map node_key [node_A; node_B; node_C]) ["s:A"; "s:B"; "s:C"]%string.
Proof. intros k Hk. exact Hk. Qed.

Lemma spring_two_nodes (Math_cos Math_sin : number -> number) n1 n2 e :
  host_trig_accurate Math_cos Math_sin ->
  node_key n1 <> node_key n2 -> joins e n1 n2 ->
  within_tolerance
    (distance_between (useForceLayout Math_cos Math_sin [n1; n2] [e])
                      (node_key n1) (node_key n2)) = true.
Proof.
  intros Htrig Hne He.
  pose (f := to_keys (node_key n1) (node_key n2) ""%string).
  assert (Hf : inj_on f ["s:A"; "s:B"]%string) by now apply to_keys_inj2.
  assert (Hn : Forall2 (node_renamed f) [node_A; node_B] [n1; n2])
    by (repeat constructor).
  change (node_key n1) with (f "s:A"%string).
  change (node_key n2) with (f "s:B"%string).
  destruct He as [[Es Et]|[Es Et]].
  - rewrite (@distance_between_layout_rename Math_cos Math_sin f
               ["s:A"; "s:B"]%string [node_A; node_B] [n1; n2]
               [edge_AB] [e] "s:A"%string "s:B"%string Hf Hn).
    + apply two_nodes_kernel; auto.
    + repeat constructor; assumption.
    + exact canonical_keys2.
    + intros k [<-|[]]. left. reflexivity.
    + intros k [<-|[]]. right. left. reflexivity.
    + left. reflexivity.
    + right. left. reflexivity.
  - rewrite (@distance_between_layout_rename Math_cos Math_sin f
               ["s:A"; "s:B"]%string [node_A; node_B] [n1; n2]
               [edge_BA] [e] "s:A"%string "s:B"%string Hf Hn).
    + apply two_nodes_kernel; auto.
    + repeat constructor; assumption.
    + exact canonical_keys2.
    + intros k [<-|[]]. right. left. reflexivity.
    + intros k [<-|[]]. left. reflexivity.
    + left. reflexivity.
    + right. left. reflexivity.
Qed.

Lemma spring_three_nodes (Math_cos Math_sin : number -> number) a b c e :
  host_trig_accurate Math_cos Math_sin ->
  node_key a <> node_key b -> node_key a <> node_key c ->
  node_key b <> node_key c ->
  source_key e = node_key a -> target_key e = node_key b ->
  within_tolerance
    (distance_between (useForceLayout Math_cos Math_sin [a; b; c] [e])
                      (node_key a) (node_key b)) = true
  /\ beyond_tolerance
    (distance_between (useForceLayout Math_cos Math_sin [a; b; c] [e])
                      (node_key a) (node_key c)) = true
  /\ beyond_tolerance
    (distance_between (useForceLayout Math_cos Math_sin [a; b; c] [e])
                      (node_key b) (node_key c)) = true.
Proof.
  intros Htrig Hab Hac Hbc Es Et.
  pose (f := to_keys (node_key a) (node_key b) (node_key c)).
  assert (Hf : inj_on f ["s:A"; "s:B"; "s:C"]%string)
    by now apply to_keys_inj3.
  assert (Hn : Forall2 (node_renamed f) [node_A; node_B; node_C] [a; b; c])
    by (repeat constructor).
  assert (He : Forall2 (edge_renamed f) [edge_AB] [e])
    by (repeat constructor; assumption).
  assert (Hs : incl (map source_key [edge_AB]) ["s:A"; "s:B"; "s:C"]%string)
    by (intros k [<-|[]]; left; reflexivity).
  assert (Ht : incl (map target_key [edge_AB]) ["s:A"; "s:B"; "s:C"]%string)
    by (intros k [<-|[]]; right; left; reflexivity).
  assert (IA : In "s:A"%string ["s:A"; "s:B"; "s:C"]%string)
    by (left; reflexivity).
  assert (IB : In "s:B"%string ["s:A"; "s:B"; "s:C"]%string)
    by (right; left; reflexivity).
  assert (IC : In "s:C"%string ["s:A"; "s:B"; "s:C"]%string)
    by (right; right; left; reflexivity).
  change (node_key a) with (f "s:A"%string).
  change (node_key b) with (f "s:B"%string).
  change (node_key c) with (f "s:C"%string).
  pose proof (@distance_between_layout_rename Math_cos Math_sin f
              ["s:A"; "s:B"; "s:C"]%string [node_A; node_B; node_C] [a; b; c]
              [edge_AB] [e]) as R.
  rewrite (R "s:A"%string "s:B"%string Hf Hn He canonical_keys3 Hs Ht IA IB).
  rewrite (R "s:A"%string "s:C"%string Hf Hn He canonical_keys3 Hs Ht IA IC).
  rewrite (R "s:B"%string "s:C"%string Hf Hn He canonical_keys3 Hs Ht IB IC).
  exact (three_nodes_kernel Htrig).
Qed.

(** C2.  Provided the host's [Math.cos] and [Math.sin] are accurate to one
    unit in the last place at the seeding angles: two nodes with distinct
    keys joined by one edge (in either direction) end, after the 200
    iterations, at a distance within 10% of the ideal spring length
    [GAP * 1.6 = 352]; and of three nodes [a], [b], [c] with the single edge
    from [a] to [b], the first two end within that tolerance of 352 while
    [c] ends farther than the tolerance allows from both. *)
Theorem C2_spring_length_after_200_iterations
    (Math_cos Math_sin : number -> number) :
  host_trig_accurate Math_cos Math_sin ->
  ideal_length = 352
  /\ (forall n1 n2 e,
        node_key n1 <> node_key n2 -> joins e n1 n2 ->
        within_tolerance
          (distance_between (useForceLayout Math_cos Math_sin [n1; n2] [e])
                            (node_key n1) (node_key n2)) = true)
  /\ (forall a b c e,
        node_key a <> node_key b -> node_key a <> node_key c ->
        node_key b <> node_key c ->
        source_key e = node_key a -> target_key e = node_key b ->
        within_tolerance
          (distance_between (useForceLayout Math_cos Math_sin [a; b; c] [e])
                            (node_key a) (node_key b)) = true
        /\ beyond_tolerance
          (distance_between (useForceLayout Math_cos Math_sin [a; b; c] [e])
                            (node_key a) (node_key c)) = true
        /\ beyond_tolerance
          (distance_between (useForceLayout Math_cos Math_sin [a; b; c] [e])
                            (node_key b) (node_key c)) = true).
Proof.
  intros Htrig. split; [reflexivity|]. split.
  - intros n1 n2 e. now apply spring_two_nodes.
  - intros a b c e. now apply spring_three_nodes.
Qed.

Lemma ref_trig_accurate : host_trig_accurate ref_cos ref_sin.
Proof.
  split; [reflexivity|]. split; [reflexivity|].
  intros a c s [E|[E|[E|[E|[]]]]]; injection E as <- <- <-;
    split; right; left; reflexivity.
Qed.

Lemma node_A_B_distinct : node_key node_A <> node_key node_B.
Proof. discriminate. Qed.

Lemma edge_AB_joins : joins edge_AB node_A node_B.
Proof. left. split; reflexivity. Qed.

Lemma C2_witness_reference_trig :
  host_trig_accurate ref_cos ref_sin
  /\ within_tolerance
       (distance_between
          (useForceLayout ref_cos ref_sin [node_A; node_B] [edge_AB])
          (node_key node_A) (node_key node_B)) = true.
Proof.
  split.
  - exact ref_trig_accurate.
  - exact (proj1 (proj2 (@C2_spring_length_after_200_iterations
                           ref_cos ref_sin ref_trig_accurate))
             node_A node_B edge_AB node_A_B_distinct edge_AB_joins).
Defined.

End SpringLength.

(** ** The two force phases change velocities only *)

Section Velocities.
Local Open Scope float_scope.
Implicit Types (pos : dict Particle.t) (k : string) (p q : Particle.t)
  (f : number * number).

Lemma same_place_refl p : same_place p p.
Proof. now split. Qed.

Lemma same_place_sub_v f p : same_place (sub_v f p) p.
Proof. now split. Qed.

Lemma same_place_add_v f p : same_place (add_v f p) p.
Proof. now split. Qed.

Lemma same_place_trans p q r :
  same_place p q -> same_place q r -> same_place p r.
Proof. intros [H1 H2] [H3 H4]. split; congruence. Qed.

Lemma same_place_sym p q : same_place p q -> same_place q p.
Proof. intros [H1 H2]. now split. Qed.

Lemma repel_force_place pa pa' pb pb' :
  same_place pa pa' -> same_place pb pb' ->
  repel_force pa pb = repel_force pa' pb'.
Proof. intros [H1 H2] [H3 H4]. unfold repel_force. now rewrite H1, H2, H3, H4. Qed.

Lemma spring_force_place ps ps' pt pt' :
  same_place ps ps' -> same_place pt pt' ->
  spring_force ps pt = spring_force ps' pt'.
Proof. intros [H1 H2] [H3 H4]. unfold spring_force. now rewrite H1, H2, H3, H4. Qed.

Lemma sub_velocity_update k f pos :
  NoDup (Object_keys pos) -> sub_velocity k f pos = update k (sub_v f) pos.
Proof. intros H. exact (modify_update k (sub_v f) pos H). Qed.

Lemma add_velocity_update k f pos :
  NoDup (Object_keys pos) -> add_velocity k f pos = update k (add_v f) pos.
Proof. intros H. exact (modify_update k (add_v f) pos H). Qed.

(** Lookup and update of an entry in the middle of a dictionary. *)
Lemma lookup_middle (V : Type) k (v : V) (pre suf : dict V) :
  ~ In k (Object_keys pre) -> lookup k (pre ++ (k, v) :: suf) = Some v.
Proof.
  induction pre as [|[k' v'] pre IH]; simpl; intros H.
  - now rewrite String.eqb_refl.
  - destruct (String.eqb k k') eqn:E.
    + apply String.eqb_eq in E. subst. tauto.
    + apply IH. tauto.
Qed.

Lemma update_middle (V : Type) k (g : V -> V) (v : V) (pre suf : dict V) :
  NoDup (Object_keys (pre ++ (k, v) :: suf)) ->
  update k g (pre ++ (k, v) :: suf) = pre ++ (k, g v) :: suf.
Proof.
  intros H. unfold Object_keys in H. rewrite map_app in H. simpl in H.
  pose proof (NoDup_remove_2 _ _ _ H) as Hni. rewrite in_app_iff in Hni.
  unfold update. rewrite map_app. simpl. rewrite String.eqb_refl. f_equal.
  - apply (update_absent k g pre). tauto.
  - f_equal. apply (update_absent k g suf). tauto.
Qed.

End Velocities.

(** ** Closed form of the repulsion phase *)

Section RepulsionPhase.
Local Open Scope float_scope.
Implicit Types (pos : dict Particle.t) (k : string) (p q : Particle.t).

Lemma push_later_place p later : same_place (push_later p later) p.
Proof.
  revert p. induction later as [|q later IH]; simpl; intros p.
  - apply same_place_refl.
  - eapply same_place_trans; [apply IH | apply same_place_sub_v].
Qed.

Lemma push_earlier_place earlier q : same_place (push_earlier earlier q) q.
Proof.
  revert q. induction earlier as [|p earlier IH]; simpl; intros q.
  - apply same_place_refl.
  - eapply same_place_trans; [apply IH | apply same_place_add_v].
Qed.

Lemma push_later_ext p later later' :
  Forall2 same_place later later' -> push_later p later = push_later p later'.
Proof.
  intros H. revert p. induction H as [|q q' later later' Hq _ IH]; simpl; auto.
  intros p. rewrite (repel_force_place (same_place_refl p) Hq). apply IH.
Qed.

Lemma keys_app (V : Type) (a b : dict V) :
  Object_keys (a ++ b) = Object_keys a ++ Object_keys b.
Proof. apply map_app. Qed.

Lemma keys_kick pa (l : dict Particle.t) :
  Object_keys (map (kick pa) l) = Object_keys l.
Proof. unfold Object_keys. rewrite map_map. reflexivity. Qed.

Lemma repel_inner ka (s2 : dict Particle.t) :
  forall pre pa s1,
  NoDup (Object_keys (pre ++ (ka, pa) :: s1 ++ s2)) ->
  fold_left (fun d kb => repel ka kb d) (Object_keys s2)
            (pre ++ (ka, pa) :: s1 ++ s2)
  = pre ++ (ka, push_later pa (map snd s2)) :: s1 ++ map (kick pa) s2.
Proof.
  induction s2 as [|[kb pb] s2 IH]; intros pre pa s1 Hnd; [reflexivity|].
  cbn [Object_keys map fst fold_left snd].
  assert (Hka : ~ In ka (Object_keys pre)).
  { rewrite keys_app in Hnd. apply NoDup_remove_2 in Hnd.
    rewrite in_app_iff in Hnd. tauto. }
  assert (Hnd2 : NoDup (Object_keys ((pre ++ (ka, pa) :: s1) ++ (kb, pb) :: s2))).
  { now rewrite <- app_assoc. }
  assert (Hkb : ~ In kb (Object_keys (pre ++ (ka, pa) :: s1))).
  { rewrite keys_app in Hnd2. apply NoDup_remove_2 in Hnd2.
    rewrite in_app_iff in Hnd2. tauto. }
  unfold repel at 2.
  rewrite lookup_middle by exact Hka.
  replace (pre ++ (ka, pa) :: s1 ++ (kb, pb) :: s2)
    with ((pre ++ (ka, pa) :: s1) ++ (kb, pb) :: s2) at 1
    by now rewrite <- app_assoc.
  rewrite lookup_middle by exact Hkb.
  set (f := repel_force pa pb).
  rewrite sub_velocity_update by assumption.
  rewrite update_middle by exact Hnd.
  assert (Hnd3 : NoDup (Object_keys
                   ((pre ++ (ka, sub_v f pa) :: s1) ++ (kb, pb) :: s2))).
  { clear -Hnd. keys_normal. exact Hnd. }
  replace (pre ++ (ka, sub_v f pa) :: s1 ++ (kb, pb) :: s2)
    with ((pre ++ (ka, sub_v f pa) :: s1) ++ (kb, pb) :: s2)
    by now rewrite <- app_assoc.
  rewrite add_velocity_update by assumption.
  rewrite update_middle by exact Hnd3.
  replace ((pre ++ (ka, sub_v f pa) :: s1) ++ (kb, add_v f pb) :: s2)
    with (pre ++ (ka, sub_v f pa) :: (s1 ++ [(kb, add_v f pb)]) ++ s2)
    by (rewrite <- !app_assoc; reflexivity).
  rewrite IH.
  - replace (map (kick (sub_v f pa)) s2) with (map (kick pa) s2).
    + rewrite <- app_assoc. reflexivity.
    + apply map_ext. intros [k q]. unfold kick. simpl.
      now rewrite (repel_force_place (same_place_sub_v f pa) (same_place_refl q)).
  - clear -Hnd. keys_normal. exact Hnd.
Qed.

Lemma keys_kicked earlier (l : dict Particle.t) :
  Object_keys (map (kicked earlier) l) = Object_keys l.
Proof. unfold Object_keys. rewrite map_map. reflexivity. Qed.

Lemma kicked_places earlier (l : dict Particle.t) :
  Forall2 same_place (map snd (map (kicked earlier) l)) (map snd l).
Proof.
  induction l as [|[k q] l IH]; simpl; constructor; auto.
  apply push_earlier_place.
Qed.

Lemma kick_kicked earlier pa (l : dict Particle.t) :
  map (kick (push_earlier earlier pa)) (map (kicked earlier) l)
  = map (kicked (earlier ++ [pa])) l.
Proof.
  rewrite map_map. apply map_ext. intros [k q].
  unfold kick, kicked, push_earlier. simpl. rewrite fold_left_app. simpl.
  now rewrite (repel_force_place (push_earlier_place earlier pa)
                 (same_place_refl (fold_left _ earlier q))).
Qed.

Lemma repulsion_suffix (l0 : dict Particle.t) :
  forall pre earlier,
  NoDup (Object_keys (pre ++ l0)) ->
  repulsion (Object_keys l0) (pre ++ map (kicked earlier) l0)
  = pre ++ pushed earlier l0.
Proof.
  induction l0 as [|[ka pa] later IH]; intros pre earlier Hnd; [reflexivity|].
  cbn [Object_keys map fst repulsion].
  change (map fst later) with (Object_keys later).
  unfold kicked at 1. cbn [fst snd].
  pose proof (repel_inner ka (map (kicked earlier) later) pre
                (push_earlier earlier pa) []) as R.
  cbn [app] in R. rewrite keys_kicked in R. rewrite R.
  - rewrite kick_kicked.
    rewrite (push_later_ext _ (kicked_places earlier later)).
    replace (pre ++ (ka, push_later (push_earlier earlier pa) (map snd later))
                 :: map (kicked (earlier ++ [pa])) later)
      with ((pre ++ [(ka, push_later (push_earlier earlier pa) (map snd later))])
              ++ map (kicked (earlier ++ [pa])) later)
      by (rewrite <- app_assoc; reflexivity).
    rewrite IH.
    + rewrite <- app_assoc. reflexivity.
    + clear -Hnd. keys_normal. exact Hnd.
  - clear -Hnd. cbn [app]. rewrite keys_app in *. cbn [Object_keys map fst] in *.
    change (map fst (map (kicked earlier) later))
      with (Object_keys (map (kicked earlier) later)).
    rewrite keys_kicked. exact Hnd.
Qed.

(** The repulsion loop as a whole, for a dictionary without repeated keys. *)
Lemma repulsion_pushed pos :
  NoDup (Object_keys pos) -> repulsion (Object_keys pos) pos = pushed [] pos.
Proof.
  intros Hnd.
  assert (E : map (kicked []) pos = pos).
  { rewrite <- (map_id pos) at 2. apply map_ext. now intros []. }
  rewrite <- E at 2.
  exact (repulsion_suffix pos [] [] Hnd).
Qed.

End RepulsionPhase.

(** ** C3: the repulsion of a pair *)

Section RepulsionClaim.
Local Open Scope float_scope.

Lemma NoDup_state_at Math_cos Math_sin nodes edges n :
  NoDup (Object_keys (state_at Math_cos Math_sin nodes edges n)).
Proof. unfold state_at. rewrite keys_iterations. apply NoDup_seed. Qed.

(** C3 (amended).  In every iteration the repulsion loop leaves every
    particle in place and changes its velocity as follows: for each
    particle listed before it, in order, the force of that pair is added,
    then for each particle listed after it the force of that pair is
    subtracted, so that each unordered pair contributes one force vector,
    with opposite signs, to its two members.  The force of a pair at
    displacement [(dx, dy)] is [floored_push dx dy]; it is the claimed
    inverse-square push along the unit direction whenever the squared
    distance is at least 1. *)
Theorem C3_repulsion_phase_closed_form
    (Math_cos Math_sin : number -> number)
    (nodes : list LineageNode.t) (edges : list LineageEdge.t) (n : nat) :
  let pos := state_at Math_cos Math_sin nodes edges n in
  repulsion (Object_keys pos) pos = pushed [] pos
  /\ (forall pa pb,
        repel_force pa pb
        = floored_push (Particle.x pb - Particle.x pa)
                       (Particle.y pb - Particle.y pa))
  /\ (forall dx dy,
        (1 <=? dx * dx + dy * dy) = true ->
        floored_push dx dy = inverse_square_push dx dy).
Proof.
  intros pos. split; [|split].
  - apply repulsion_pushed. apply NoDup_state_at.
  - reflexivity.
  - intros dx dy H. unfold floored_push, inverse_square_push.
    now rewrite (floor_inactive H).
Qed.

(** The claim of C3 as stated fails below distance 1.  For two particles
    half a unit apart the code pushes with (9000, 0), the claimed push is
    (18000, 0); and such a state is reached: with 46 parallel edges the two
    nodes start iteration 140 at squared distance 0.68..., where the code's
    push has magnitude below 15000 while [18000 / max(d^2, 1)] is 18000. *)
Lemma C3_counterexample_below_unit_distance :
  repel_force close_a close_b = (9000, 0)
  /\ inverse_square_push 0.5 0 = (18000, 0)
  /\ repulsion ["a"; "b"]%string [("a"%string, close_a); ("b"%string, close_b)]
     = [("a"%string, Particle.mk 0 0 (-9000) 0);
        ("b"%string, Particle.mk 0.5 0 9000 0)]
  /\ pair_dist2 squeezed "s:A" "s:B" = 0.68591502875519605
  /\ (magnitude (pair_force squeezed "s:A" "s:B") <? 15000) = true
  /\ 18000 / Math_max [pair_dist2 squeezed "s:A" "s:B"; 1] = 18000.
Proof.
  conjuncts; vm_compute; reflexivity.
Qed.

End RepulsionClaim.

(** ** C4: closed form of the attraction phase *)

Section AttractionPhase.
Local Open Scope float_scope.
Implicit Types (pos : dict Particle.t) (k : string) (p q : Particle.t).

Lemma same_places_refl pos : same_places pos pos.
Proof.
  induction pos; constructor; auto. split; auto. apply same_place_refl.
Qed.

Lemma lookup_same_places pos0 pos k :
  same_places pos0 pos ->
  match lookup k pos0, lookup k pos with
  | Some a, Some b => same_place a b
  | None, None => True
  | _, _ => False
  end.
Proof.
  induction 1 as [|[k0 a] [k1 b] pos0 pos [Hk Hp] _ IH]; simpl; auto.
  simpl in Hk, Hp. subst k1. destruct (String.eqb k k0); auto.
Qed.

Lemma pull_place pos0 k p e : same_place (pull pos0 k p e) p.
Proof.
  unfold pull. destruct (lookup (source_key e) pos0); [|apply same_place_refl].
  destruct (lookup (target_key e) pos0); [|apply same_place_refl].
  destruct (String.eqb (source_key e) k), (String.eqb (target_key e) k);
    split; reflexivity.
Qed.

Lemma same_places_map (g : string -> Particle.t -> Particle.t) pos0 pos :
  (forall k p, same_place (g k p) p) ->
  same_places pos0 pos ->
  same_places pos0 (map (fun kp => (fst kp, g (fst kp) (snd kp))) pos).
Proof.
  intros Hg. induction 1 as [|[k0 a] [k1 b] pos0 pos [Hk Hp] _ IH];
    simpl; constructor; auto.
  split; auto. simpl in *.
  eapply same_place_trans; [exact Hp|]. apply same_place_sym, Hg.
Qed.

(** One edge, as a map over the entries. *)
Lemma attract_pull pos0 pos e :
  same_places pos0 pos -> NoDup (Object_keys pos) ->
  attract pos e = map (fun kp => (fst kp, pull pos0 (fst kp) (snd kp) e)) pos.
Proof.
  intros Hsp Hnd. unfold attract, pull.
  pose proof (lookup_same_places (source_key e) Hsp) as Hs.
  pose proof (lookup_same_places (target_key e) Hsp) as Ht.
  destruct (lookup (source_key e) pos0) as [ps0|],
           (lookup (source_key e) pos) as [ps|]; try contradiction.
  - destruct (lookup (target_key e) pos0) as [pt0|],
             (lookup (target_key e) pos) as [pt|]; try contradiction.
    + rewrite (spring_force_place Hs Ht).
      rewrite add_velocity_update by assumption.
      rewrite sub_velocity_update by (now rewrite keys_update).
      unfold update. rewrite map_map. apply map_ext. intros [k p]. simpl.
      destruct (String.eqb (source_key e) k); simpl;
        destruct (String.eqb (target_key e) k); reflexivity.
    + rewrite <- (map_id pos) at 1. apply map_ext. now intros [].
  - rewrite <- (map_id pos) at 1. apply map_ext. now intros [].
Qed.

Lemma attract_fold_pulled pos0 edges :
  forall pos, same_places pos0 pos -> NoDup (Object_keys pos) ->
  fold_left attract edges pos = pulled edges pos0 pos.
Proof.
  induction edges as [|e edges IH]; intros pos Hsp Hnd.
  - unfold pulled. simpl. rewrite <- (map_id pos) at 1.
    apply map_ext. now intros [].
  - cbn [fold_left]. rewrite (attract_pull e Hsp Hnd). rewrite IH.
    + unfold pulled. rewrite map_map. reflexivity.
    + apply (same_places_map (fun k p => pull pos0 k p e)); auto.
      intros k p. apply pull_place.
    + unfold Object_keys. rewrite map_map. exact Hnd.
Qed.

(** C4.  In every iteration, the attraction loop leaves every particle in
    place and changes its velocity by the pulls of the edges, one after the
    other in the order of the edge list, each occurrence of an edge on its
    own: an edge with both endpoint keys in the map adds the spring force to
    the velocity of its source and subtracts the same force from the
    velocity of its target, an edge with a missing endpoint does nothing.
    The spring force is [(dist - 352) * 0.04] along [(dx / dist, dy / dist)],
    [dist] being the distance of the endpoints (1 in place of a distance
    that is 0 or NaN), and 352 is [GAP * 1.6]. *)
Theorem C4_attraction_phase_closed_form
    (Math_cos Math_sin : number -> number)
    (nodes : list LineageNode.t) (edges : list LineageEdge.t) (n : nat) :
  let start := state_at Math_cos Math_sin nodes edges n in
  let pos := repulsion (Object_keys start) start in
  fold_left attract edges pos = pulled edges pos pos
  /\ (forall ps pt,
        spring_force ps pt
        = hooke (Particle.x pt - Particle.x ps) (Particle.y pt - Particle.y ps))
  /\ GAP * 1.6 = 352 /\ ATTRACT = 0.04.
Proof.
  intros start pos. split; [|repeat split].
  apply attract_fold_pulled.
  - apply same_places_refl.
  - unfold pos. rewrite keys_repulsion. apply NoDup_state_at.
Qed.

End AttractionPhase.

(** ** C5: the normalisation *)

Section Normalisation.
Local Open Scope float_scope.

Lemma min_from_cases xs :
  forall lowest,
  min_from lowest xs = nan \/ min_from lowest xs = lowest
  \/ In (min_from lowest xs) xs.
Proof.
  induction xs as [|x xs IH]; intros lowest; simpl; auto.
  destruct (is_nan x); auto.
  destruct ((is_neg_zero x && is_pos_zero lowest) || (x <? lowest)).
  - destruct (IH x) as [H|[H|H]]; auto.
  - destruct (IH lowest) as [H|[H|H]]; auto.
Qed.

(** A finite minimum is one of the arguments. *)
Lemma Math_min_attained xs :
  is_finite (Math_min xs) = true -> In (Math_min xs) xs.
Proof.
  unfold Math_min. intros H.
  destruct (min_from_cases xs infinity) as [E|[E|E]]; auto;
    rewrite E in H; discriminate.
Qed.

Lemma lookup_In (V : Type) k (v : V) (d : dict V) :
  NoDup (Object_keys d) -> In (k, v) d -> lookup k d = Some v.
Proof.
  induction d as [|[k' v'] d IH]; simpl; intros Hnd Hin; [contradiction|].
  inversion Hnd as [|? ? Hni Hnd']; subst.
  destruct Hin as [E|Hin].
  - injection E as -> ->. now rewrite String.eqb_refl.
  - destruct (String.eqb k k') eqn:Ek; auto.
    apply String.eqb_eq in Ek. subst k'. exfalso. apply Hni.
    change k with (fst (k, v)). now apply in_map.
Qed.

Lemma lookup_map_values (V W : Type) (g : V -> W) k (d : dict V) :
  lookup k (map (fun kp => (fst kp, g (snd kp))) d) = option_map g (lookup k d).
Proof.
  induction d as [|[k' v'] d IH]; simpl; auto.
  now destruct (String.eqb k k').
Qed.

(** The entry of a dictionary whose value is sent by [coord] to a given
    element of the list of coordinates. *)
Lemma coordinate_entry (coord : Particle.t -> number) c (d : dict Particle.t) :
  In c (map coord (Object_values d)) ->
  exists k p, In (k, p) d /\ coord p = c.
Proof.
  unfold Object_values. rewrite map_map. intros H.
  apply in_map_iff in H. destruct H as [[k p] [E Hin]]. now exists k, p.
Qed.

(** C5 (amended).  For a non-empty node list the returned map is the final
    state of the simulation with every particle replaced by the point
    [(x - minX + 40, y - minY + 40)], the two offsets being the same for all
    particles: [minX] and [minY] are [Math.min] of the final coordinates.
    When [minX] is finite some node is placed at [x = 40] exactly, and when
    [minY] is finite some node is placed at [y = 40] exactly. *)
Theorem C5_normalisation_translates_to_padding
    (Math_cos Math_sin : number -> number)
    (nodes : list LineageNode.t) (edges : list LineageEdge.t) :
  nodes <> [] ->
  let final := simulate edges (seed Math_cos Math_sin nodes) in
  let minX := Math_min (map Particle.x (Object_values final)) in
  let minY := Math_min (map Particle.y (Object_values final)) in
  useForceLayout Math_cos Math_sin nodes edges
  = map (fun kp => (fst kp, Point.mk (Particle.x (snd kp) - minX + 40)
                                     (Particle.y (snd kp) - minY + 40))) final
  /\ (is_finite minX = true ->
      exists k, In k (map node_key nodes)
                /\ x_at k (useForceLayout Math_cos Math_sin nodes edges) = 40)
  /\ (is_finite minY = true ->
      exists k, In k (map node_key nodes)
                /\ y_at k (useForceLayout Math_cos Math_sin nodes edges) = 40).
Proof.
  intros Hne final minX minY.
  assert (Hnd : NoDup (Object_keys final)) by apply NoDup_simulate.
  assert (Hkeys : forall k, In k (Object_keys final) -> In k (map node_key nodes)).
  { intros k Hk. unfold final in Hk. rewrite keys_simulate in Hk.
    now apply keys_seed in Hk. }
  assert (E : useForceLayout Math_cos Math_sin nodes edges
              = map (fun kp => (fst kp, translate minX minY (snd kp))) final).
  { unfold useForceLayout. destruct nodes as [|n0 nodes0]; [congruence|].
    apply normalise_map. exact Hnd. }
  rewrite E. clearbody final. split; [reflexivity|]. split; intros Hfin.
  - destruct (@coordinate_entry Particle.x _ final (Math_min_attained _ Hfin))
      as (k & p & Hin & Hp).
    exists k. split.
    + apply Hkeys. change k with (fst (k, p)). now apply in_map.
    + unfold x_at. rewrite lookup_map_values, (@lookup_In _ k p final Hnd Hin). simpl.
      rewrite Hp. fold minX. rewrite sub_self by exact Hfin. reflexivity.
  - destruct (@coordinate_entry Particle.y _ final (Math_min_attained _ Hfin))
      as (k & p & Hin & Hp).
    exists k. split.
    + apply Hkeys. change k with (fst (k, p)). now apply in_map.
    + unfold y_at. rewrite lookup_map_values, (@lookup_In _ k p final Hnd Hin). simpl.
      rewrite Hp. fold minY. rewrite sub_self by exact Hfin. reflexivity.
Qed.

End Normalisation.

Lemma two_nodes_nonempty : [node_A; node_B] <> [].
Proof. discriminate. Qed.

Lemma C5_witness_two_nodes_one_edge :
  let final := simulate [edge_AB] (seed ref_cos ref_sin [node_A; node_B]) in
  let minX := Math_min (map Particle.x (Object_values final)) in
  let minY := Math_min (map Particle.y (Object_values final)) in
  useForceLayout ref_cos ref_sin [node_A; node_B] [edge_AB]
  = map (fun kp => (fst kp, Point.mk (Particle.x (snd kp) - minX + 40)
                                     (Particle.y (snd kp) - minY + 40))%float)
        final
  /\ (is_finite minX = true ->
      exists k, In k (map node_key [node_A; node_B])
                /\ x_at k (useForceLayout ref_cos ref_sin
                             [node_A; node_B] [edge_AB]) = 40%float)
  /\ (is_finite minY = true ->
      exists k, In k (map node_key [node_A; node_B])
                /\ y_at k (useForceLayout ref_cos ref_sin
                             [node_A; node_B] [edge_AB]) = 40%float).
Proof.
  exact (@C5_normalisation_translates_to_padding ref_cos ref_sin
           [node_A; node_B] [edge_AB] two_nodes_nonempty).
Defined.

(** The claim of C5 as stated fails in two ways.  The translation is done
    in floating-point arithmetic, so a displacement can change in the last
    place: for three tables with edges from the first to the two others,
    the first two are -263.89890522374003 apart in y before the
    normalisation and -263.89890522373997 after it.  And when the
    simulation overflows nothing is at 40: a hundred parallel springs
    between two nodes make the iteration diverge, the final coordinates are
    NaN, and so are the returned coordinates and their minimum. *)
Lemma C5_counterexample_rounding_and_overflow :
  (particle_y_at "s:A" fan_final - particle_y_at "s:B" fan_final
   = -263.89890522374003)%float
  /\ (y_at "s:A" fan_layout - y_at "s:B" fan_layout
      = -263.89890522373997)%float
  /\ Object_keys overdriven = ["s:A"; "s:B"]%string
  /\ is_nan (x_at "s:A" overdriven) = true
  /\ is_nan (x_at "s:B" overdriven) = true
  /\ is_nan (y_at "s:A" overdriven) = true
  /\ is_nan (y_at "s:B" overdriven) = true
  /\ (Math_min (map Point.x (Object_values overdriven)) =? 40)%float = false
  /\ (Math_min (map Point.y (Object_values overdriven)) =? 40)%float = false.
Proof.
  conjuncts; vm_compute; reflexivity.
Qed.

(** ** Unconnected nodes: the closed form of an iteration *)

Section Unconnected.
Local Open Scope float_scope.

(** Without edges an iteration is the repulsion loop followed by the move
    of every particle. *)
Lemma integrate_update pos k :
  NoDup (Object_keys pos) -> integrate pos k = update k moved pos.
Proof. intros Hnd. unfold integrate. exact (@modify_update _ k moved pos Hnd). Qed.

Lemma integrate_fold_update ks :
  forall pos, NoDup (Object_keys pos) ->
  fold_left integrate ks pos = fold_left (fun d k => update k moved d) ks pos.
Proof.
  induction ks as [|k ks IH]; intros pos Hnd; cbn [fold_left]; auto.
  rewrite (@integrate_update pos k Hnd). apply IH. now rewrite keys_update.
Qed.

Lemma update_fold_keys (V : Type) (g : V -> V) (d : dict V) :
  forall pre : dict V,
  NoDup (Object_keys (pre ++ d)) ->
  fold_left (fun acc k => update k g acc) (Object_keys d) (pre ++ d)
  = pre ++ map (fun kv => (fst kv, g (snd kv))) d.
Proof.
  induction d as [|[k v] d IH]; intros pre Hnd; cbn [Object_keys map fold_left fst snd]; auto.
  assert (Hk : ~ In k (Object_keys pre) /\ ~ In k (Object_keys d)).
  { rewrite keys_app in Hnd. cbn [Object_keys map fst] in Hnd.
    apply NoDup_remove_2 in Hnd. rewrite in_app_iff in Hnd.
    unfold Object_keys. tauto. }
  rewrite (@update_middle _ k g v pre d) by tauto.
  change (pre ++ (k, g v) :: d) with (pre ++ [(k, g v)] ++ d).
  rewrite app_assoc.
  change (fold_left (fun acc k0 => update k0 g acc) (map fst d))
    with (fold_left (fun acc k0 => update k0 g acc) (Object_keys d)).
  rewrite IH.
  - now rewrite <- app_assoc.
  - rewrite <- app_assoc. rewrite !keys_app in *. exact Hnd.
Qed.

Lemma keys_pushed (l : dict Particle.t) :
  forall earlier, Object_keys (pushed earlier l) = Object_keys l.
Proof.
  induction l as [|[k p] l IH]; intros earlier; simpl; auto.
  f_equal. apply IH.
Qed.




(** Two different nodes whose composite keys collide get one position
    between them. *)
Theorem colliding_nodes_share_one_position :
  collide_n1 <> collide_n3
  /\ node_key collide_n1 = node_key collide_n3
  /\ useForceLayout ref_cos ref_sin [collide_n1; collide_n3] []
     = [("a:b:c"%string, Point.mk 40 40)].
Proof.
  split; [discriminate|]. split; [reflexivity|]. vm_compute. reflexivity.
Qed.

End Unconnected.

(** ** C7: unconnected nodes, on the values alone *)

Section SpreadValues.
Local Open Scope float_scope.
Local Unset Implicit Arguments.














End SpreadValues.

Section SpreadLayout.
Local Open Scope float_scope.
Local Unset Implicit Arguments.
Variables Math_cos Math_sin : number -> number.





End SpreadLayout.

Section SpreadPairs.
Local Open Scope float_scope.
Local Unset Implicit Arguments.







End SpreadPairs.

Section SpreadHosts.
Local Open Scope float_scope.
Local Unset Implicit Arguments.









End SpreadHosts.

Section SpreadInstances.
Local Open Scope float_scope.
Local Unset Implicit Arguments.









End SpreadInstances.




(** ** Nodes that share one key, and a single node *)

Section OneKey.
Local Open Scope float_scope.

Lemma finite_of_spec x :
  (exists s, Prim2SF x = S754_zero s)
  \/ (exists s m e, Prim2SF x = S754_finite s m e) ->
  is_finite x = true.
Proof.
  unfold is_finite, is_nan, is_infinity.
  rewrite !FloatAxioms.eqb_spec, FloatAxioms.abs_spec, Prim2SF_infinity.
  intros [[s E]|[s [m [e E]]]]; rewrite E; simpl.
  - reflexivity.
  - unfold SFeqb, SFcompare. rewrite Z.compare_refl, Pos.compare_cont_refl.
    now destruct s.
Qed.

Lemma finite_add_zero x : is_finite x = true -> is_finite (x + 0) = true.
Proof.
  intros H. apply finite_of_spec.
  rewrite FloatAxioms.add_spec, Prim2SF_zero.
  destruct (finite_spec x H) as [[s E]|[s [m [e E]]]]; rewrite E.
  - left. destruct s; eexists; reflexivity.
  - right. exists s, m, e. reflexivity.
Qed.

Lemma Math_min_single (x : number) : is_finite x = true -> Math_min [x] = x.
Proof.
  intros H. unfold Math_min, min_from.
  assert (Hn : is_nan x = false).
  { unfold is_finite in H. now destruct (is_nan x). }
  rewrite Hn.
  assert (Hl : (x <? infinity) = true).
  { rewrite FloatAxioms.ltb_spec, Prim2SF_infinity.
    destruct (finite_spec x H) as [[s E]|[s [m [e E]]]]; rewrite E;
      reflexivity. }
  rewrite Hl. now rewrite orb_true_r.
Qed.

(** The spring of a self-loop at rest: [(0 / 1) * ((1 - 352) * 0.04)]. *)
Lemma spring_force_rest p : at_rest p -> spring_force p p = (-0, -0).
Proof.
  intros (Hx & Hy & Fx & Fy). unfold spring_force.
  rewrite (sub_self _ Fx), (sub_self _ Fy). vm_compute. reflexivity.
Qed.

Lemma attract_rest k p e : at_rest p -> attract [(k, p)] e = [(k, p)].
Proof.
  intros R. unfold attract. cbn [lookup].
  destruct (String.eqb (source_key e) k) eqn:Es; [|reflexivity].
  destruct (String.eqb (target_key e) k) eqn:Et; [|reflexivity].
  rewrite (spring_force_rest R).
  unfold add_velocity, sub_velocity. cbn [lookup assign]. rewrite Es.
  cbn [lookup assign]. rewrite Et.
  destruct R as (Hx & Hy & Fx & Fy). destruct p as [x y vx vy].
  cbn [Particle.x Particle.y Particle.vx Particle.vy fst snd] in *. subst vx vy.
  vm_compute. reflexivity.
Qed.

Lemma attract_fold_rest k p edges :
  at_rest p -> fold_left attract edges [(k, p)] = [(k, p)].
Proof.
  intros R. induction edges as [|e edges IH]; cbn [fold_left]; auto.
  now rewrite (attract_rest k e R).
Qed.

Lemma iteration_rest k p edges :
  at_rest p ->
  exists p', iteration edges [(k, p)] = [(k, p')] /\ at_rest p'.
Proof.
  intros R. unfold iteration. cbn [Object_keys map fst repulsion fold_left].
  rewrite (attract_fold_rest k edges R). cbn [fold_left].
  unfold integrate. cbn [lookup assign]. rewrite String.eqb_refl.
  eexists. split; [reflexivity|].
  destruct R as (Hx & Hy & Fx & Fy).
  unfold at_rest. cbn [Particle.x Particle.y Particle.vx Particle.vy].
  rewrite Hx, Hy. repeat split; try (vm_compute; reflexivity);
    now apply finite_add_zero.
Qed.

Lemma iterations_rest k n p edges :
  at_rest p ->
  exists p', Nat.iter n (iteration edges) [(k, p)] = [(k, p')] /\ at_rest p'.
Proof.
  intros R. induction n as [|n IH].
  - exists p. now split.
  - rewrite Nat.iter_succ. destruct IH as (p' & E & R'). rewrite E.
    now apply iteration_rest.
Qed.

Lemma normalise_rest k p :
  at_rest p -> normalise [(k, p)] = [(k, Point.mk 40 40)].
Proof.
  intros (Hx & Hy & Fx & Fy). unfold normalise.
  cbn [Object_values Object_entries map snd fold_left assign].
  rewrite (@Math_min_single _ Fx), (@Math_min_single _ Fy).
  rewrite (sub_self _ Fx), (sub_self _ Fy). vm_compute. reflexivity.
Qed.

Section Seeded.
Variables Math_cos Math_sin : number -> number.

(** A single particle at rest stays where it is, whatever the edges, and
    the normalisation moves it to the padding. *)
Lemma rest_layout k p nodes edges :
  nodes <> [] -> seed Math_cos Math_sin nodes = [(k, p)] -> at_rest p ->
  useForceLayout Math_cos Math_sin nodes edges = [(k, Point.mk 40 40)].
Proof.
  intros Hne E R. unfold useForceLayout, simulate.
  destruct nodes as [|n0 nodes0]; [congruence|]. rewrite E.
  destruct (@iterations_rest k ITERATIONS p edges R) as (p' & E' & R').
  rewrite E'. now apply normalise_rest.
Qed.

Lemma seed_fold_one_key k len COLS (l : list (nat * LineageNode.t)) :
  (forall ix, In ix l -> node_key (snd ix) = k) ->
  forall p, Particle.vx p = 0 /\ Particle.vy p = 0 ->
  exists p', fold_left (seed_node Math_cos Math_sin len COLS) l [(k, p)]
             = [(k, p')]
             /\ Particle.vx p' = 0 /\ Particle.vy p' = 0.
Proof.
  induction l as [|[i n] l IH]; intros Hk p Hp; cbn [fold_left].
  - now exists p.
  - assert (E : node_key n = k) by (apply (Hk (i, n)); now left).
    unfold seed_node at 2. rewrite E. cbn [assign]. rewrite String.eqb_refl.
    apply IH.
    + intros ix Hix. apply Hk. now right.
    + now split.
Qed.

(** Nodes that all have the key [k] are seeded as one particle. *)
Lemma seed_one_key k nodes :
  nodes <> [] -> (forall n, In n nodes -> node_key n = k) ->
  exists p, seed Math_cos Math_sin nodes = [(k, p)]
            /\ Particle.vx p = 0 /\ Particle.vy p = 0.
Proof.
  intros Hne Hk. unfold seed, indexed.
  destruct nodes as [|n nodes]; [congruence|].
  cbn [List.length seq combine fold_left].
  unfold seed_node at 2. rewrite (Hk n (or_introl eq_refl)). cbn [assign].
  apply seed_fold_one_key.
  - intros [i m] Hin. apply in_combine_r in Hin. apply Hk. now right.
  - now split.
Qed.

(** Nodes that all have one composite key get one position between them,
    and it is the padding corner (40, 40) whatever the edges are, provided
    the seeded coordinates are finite. *)
Theorem nodes_sharing_one_key_collapse k nodes edges :
  nodes <> [] ->
  (forall n, In n nodes -> node_key n = k) ->
  (forall p, In p (Object_values (seed Math_cos Math_sin nodes)) ->
     is_finite (Particle.x p) = true /\ is_finite (Particle.y p) = true) ->
  useForceLayout Math_cos Math_sin nodes edges = [(k, Point.mk 40 40)].
Proof.
  intros Hne Hk Hfin.
  destruct (@seed_one_key k nodes Hne Hk) as (p & E & Hvx & Hvy).
  apply (@rest_layout k p nodes edges Hne E).
  rewrite E in Hfin. destruct (Hfin p (or_introl eq_refl)) as [Fx Fy].
  now repeat split.
Qed.

Lemma seed_single n :
  Math_cos 0 = 1 -> Math_sin 0 = 0 ->
  seed Math_cos Math_sin [n] = [(node_key n, Particle.mk 620 300 0 0)].
Proof.
  intros C0 S0. unfold seed, indexed.
  cbn [List.length seq combine fold_left]. unfold seed_node. cbn [assign].
  change (2 * PI * of_nat 0 / of_nat 1) with 0.
  rewrite C0, S0. vm_compute. reflexivity.
Qed.

Lemma single_layout n edges :
  Math_cos 0 = 1 -> Math_sin 0 = 0 ->
  useForceLayout Math_cos Math_sin [n] edges = [(node_key n, Point.mk 40 40)].
Proof.
  intros C0 S0.
  apply (@rest_layout (node_key n) (Particle.mk 620 300 0 0) [n] edges).
  - discriminate.
  - now apply seed_single.
  - repeat split; vm_compute; reflexivity.
Qed.

(** A single table is placed at the padding corner whatever the edges are,
    and it is drawn there in the smallest view box, 860 by 340 from the
    origin ([Math.cos(0)] and [Math.sin(0)] being 1 and 0, as ECMA-262
    prescribes). *)
Theorem single_node_sits_at_padding n edges :
  Math_cos 0 = 1 -> Math_sin 0 = 0 ->
  let positions := [(node_key n, Point.mk 40 40)] in
  useForceLayout Math_cos Math_sin [n] edges = positions
  /\ settled_view Math_cos Math_sin [n] edges mount
     = Graph (ViewBox.mk 0 0 860 340)
             (map (draw_edge positions) edges)
             [Some (Card.mk (node_key n) 40 40)].
Proof.
  intros C0 S0 positions. split; [now apply single_layout|].
  unfold settled_view, run_effect. cbn [mount Hook.deps same_deps Hook.positions].
  rewrite (single_layout n edges C0 S0). fold positions.
  unfold SchemaGraph. cbn [List.length Nat.eqb Object_keys map positions].
  assert (V : view_box positions = ViewBox.mk 0 0 860 340)
    by (vm_compute; reflexivity).
  assert (C : draw_node positions n = Some (Card.mk (node_key n) 40 40)).
  { unfold draw_node, positions. cbn [lookup]. now rewrite String.eqb_refl. }
  now rewrite V, C.
Qed.

End Seeded.
End OneKey.

Section OneKeyInstances.
Local Open Scope float_scope.

Lemma collide_pair_nonempty : [collide_n1; collide_n3] <> [].
Proof. discriminate. Qed.

Lemma collide_pair_one_key n :
  In n [collide_n1; collide_n3] -> node_key n = "a:b:c"%string.
Proof. intros [<-|[<-|[]]]; reflexivity. Qed.

Lemma collide_pair_seed_finite p :
  In p (Object_values (seed ref_cos ref_sin [collide_n1; collide_n3])) ->
  is_finite (Particle.x p) = true /\ is_finite (Particle.y p) = true.
Proof. vm_compute. intros [<-|[]]. split; reflexivity. Qed.

Lemma nodes_sharing_one_key_witness :
  useForceLayout ref_cos ref_sin [collide_n1; collide_n3] [collide_e]
  = [("a:b:c"%string, Point.mk 40 40)].
Proof.
  exact (@nodes_sharing_one_key_collapse ref_cos ref_sin "a:b:c"%string
           [collide_n1; collide_n3] [collide_e]
           collide_pair_nonempty collide_pair_one_key collide_pair_seed_finite).
Defined.

Lemma ref_cos_zero : ref_cos 0 = 1.
Proof. reflexivity. Qed.

Lemma ref_sin_zero : ref_sin 0 = 0.
Proof. reflexivity. Qed.

Lemma single_node_witness :
  let positions := [(node_key node_A, Point.mk 40 40)] in
  useForceLayout ref_cos ref_sin [node_A] [edge_AB] = positions
  /\ settled_view ref_cos ref_sin [node_A] [edge_AB] mount
     = Graph (ViewBox.mk 0 0 860 340)
             (map (draw_edge positions) [edge_AB])
             [Some (Card.mk (node_key node_A) 40 40)].
Proof.
  exact (@single_node_sits_at_padding ref_cos ref_sin node_A [edge_AB]
           ref_cos_zero ref_sin_zero).
Defined.

End OneKeyInstances.

(** ** One iteration as a whole *)

Section WholeIteration.

Lemma same_places_pushed (l : dict Particle.t) :
  forall earlier, same_places l (pushed earlier l).
Proof.
  induction l as [|[k p] l IH]; intros earlier; constructor.
  - split; [reflexivity|]. cbn [snd].
    apply same_place_sym.
    eapply same_place_trans; [apply push_later_place|apply push_earlier_place].
  - apply IH.
Qed.

Lemma keys_pulled edges pos0 pos :
  Object_keys (pulled edges pos0 pos) = Object_keys pos.
Proof. unfold pulled, Object_keys. rewrite map_map. now apply map_ext. Qed.

Lemma pulls_place pos0 k edges :
  forall p, same_place (fold_left (pull pos0 k) edges p) p.
Proof.
  induction edges as [|e edges IH]; intros p; cbn [fold_left].
  - apply same_place_refl.
  - eapply same_place_trans; [apply IH|apply pull_place].
Qed.

Lemma iteration_closed pos edges :
  NoDup (Object_keys pos) -> iteration edges pos = closed_step edges pos.
Proof.
  intros Hnd. unfold iteration, closed_step.
  rewrite (@repulsion_pushed pos Hnd).
  assert (Hnd' : NoDup (Object_keys (pushed [] pos)))
    by now rewrite keys_pushed.
  rewrite (@attract_fold_pulled pos edges (pushed [] pos)
             (same_places_pushed pos []) Hnd').
  assert (Hnd2 : NoDup (Object_keys (pulled edges pos (pushed [] pos))))
    by now rewrite keys_pulled.
  rewrite (@integrate_fold_update (Object_keys pos) _ Hnd2).
  rewrite <- (keys_pushed pos []), <- (keys_pulled edges pos (pushed [] pos)).
  exact (@update_fold_keys _ moved _ [] Hnd2).
Qed.

(** Every iteration of the simulation, as a whole: each particle receives
    the pushes of the repulsion loop and the pulls of the edges, both
    computed from the places at which the iteration started; these leave
    every particle in place; then the particle moves by its new velocity
    and the velocity is multiplied by the damping 0.82. *)
Theorem every_iteration_closed_form (Math_cos Math_sin : number -> number)
    (nodes : list LineageNode.t) (edges : list LineageEdge.t) (n : nat) :
  let pos := state_at Math_cos Math_sin nodes edges n in
  state_at Math_cos Math_sin nodes edges (S n) = closed_step edges pos
  /\ same_places pos (pulled edges pos (pushed [] pos))
  /\ (forall p, moved p
                = Particle.mk (Particle.x p + Particle.vx p)
                              (Particle.y p + Particle.vy p)
                              (Particle.vx p * 0.82) (Particle.vy p * 0.82))%float.
Proof.
  intros pos. split; [|split].
  - unfold state_at. rewrite Nat.iter_succ. apply iteration_closed.
    apply NoDup_state_at.
  - apply (same_places_map (fun k p => fold_left (pull pos k) edges p)).
    + intros k p. apply pulls_place.
    + apply same_places_pushed.
  - reflexivity.
Qed.

End WholeIteration.

(** ** SchemaGraph and the state of the hook *)

Section SchemaGraphFacts.
Variables Math_cos Math_sin : number -> number.

Lemma same_deps_eq prev next :
  same_deps prev next = true <-> prev = Some next.
Proof.
  destruct prev as [[a b]|], next as [c d]; simpl; [|split; discriminate].
  rewrite andb_true_iff, !Nat.eqb_eq. split.
  - intros [-> ->]. reflexivity.
  - intros E. injection E as -> ->. auto.
Qed.

Lemma deps_run_effect nodes edges h :
  Hook.deps (run_effect Math_cos Math_sin nodes edges h)
  = Some (List.length nodes, List.length edges).
Proof.
  unfold run_effect.
  destruct (same_deps (Hook.deps h) _) eqn:E; [|reflexivity].
  now apply same_deps_eq in E.
Qed.

Lemma draw_node_card nodes edges n :
  In n nodes ->
  card_at (useForceLayout Math_cos Math_sin nodes edges) n
    (draw_node (useForceLayout Math_cos Math_sin nodes edges) n).
Proof.
  intros Hn. unfold card_at, draw_node.
  destruct (@In_lookup _ (node_key n)
              (useForceLayout Math_cos Math_sin nodes edges)) as [p E].
  { apply keys_useForceLayout. now apply in_map. }
  exists p. now rewrite E.
Qed.

Lemma drawn_edge_present nodes edges e :
  drawn (draw_edge (useForceLayout Math_cos Math_sin nodes edges) e)
  = present (map node_key nodes) e.
Proof.
  unfold draw_edge, present.
  assert (H : forall k,
            drawn (lookup k (useForceLayout Math_cos Math_sin nodes edges))
            = mem k (map node_key nodes)).
  { intros k. destruct (mem k (map node_key nodes)) eqn:E.
    - apply mem_In, (keys_useForceLayout Math_cos Math_sin nodes edges) in E.
      apply In_lookup in E. destruct E as [p ->]. reflexivity.
    - destruct (lookup k _) eqn:L; [|reflexivity].
      apply lookup_Some_In, keys_useForceLayout, mem_In in L. congruence. }
  rewrite <- !H.
  destruct (lookup (source_key e) _), (lookup (target_key e) _); reflexivity.
Qed.

Lemma layout_nonempty nodes edges :
  nodes <> [] ->
  Nat.eqb (List.length
             (Object_keys (useForceLayout Math_cos Math_sin nodes edges))) 0
  = false.
Proof.
  intros Hne. destruct nodes as [|n nodes]; [congruence|].
  destruct (Object_keys _) eqn:E; [|reflexivity].
  exfalso.
  assert (H : In (node_key n)
                (Object_keys
                   (useForceLayout Math_cos Math_sin (n :: nodes) edges))).
  { apply keys_useForceLayout. now left. }
  rewrite E in H. contradiction.
Qed.

(** After the first render, and after every render in which the number of
    nodes or of edges has changed, a non-empty node list is shown as a
    graph (never as the layout being calculated): every node has its card,
    at its position in the layout of these nodes and edges, and an edge has
    a connector exactly when both its endpoint keys are keys of nodes, which
    are the edges that act as springs in the layout. *)
Theorem fresh_graph_shows_every_node nodes edges h :
  nodes <> [] ->
  same_deps (Hook.deps h) (List.length nodes, List.length edges) = false ->
  exists connectors cards,
    settled_view Math_cos Math_sin nodes edges h
    = Graph (view_box (useForceLayout Math_cos Math_sin nodes edges))
            connectors cards
    /\ Forall2 (card_at (useForceLayout Math_cos Math_sin nodes edges))
               nodes cards
    /\ Forall2 (fun e c => drawn c = present (map node_key nodes) e)
               edges connectors.
Proof.
  intros Hne Hd. unfold settled_view, run_effect. rewrite Hd.
  cbn [Hook.positions]. unfold SchemaGraph.
  rewrite (@layout_nonempty nodes edges Hne).
  destruct nodes as [|n0 nodes0] eqn:En; [congruence|].
  cbn [List.length Nat.eqb]. rewrite <- En in *.
  eexists. eexists. split; [reflexivity|]. split.
  - assert (H : forall l, incl l nodes ->
               Forall2 (card_at (useForceLayout Math_cos Math_sin nodes edges)) l
                 (map (draw_node (useForceLayout Math_cos Math_sin nodes edges))
                      l)).
    { induction l as [|a l IH]; intros Hl; constructor.
      - apply draw_node_card. apply Hl. now left.
      - apply IH. intros x Hx. apply Hl. now right. }
    apply H, incl_refl.
  - generalize edges at 1 3. intros l.
    induction l as [|e l IH]; constructor; auto.
    apply drawn_edge_present.
Qed.

Lemma run_effect_same_counts n1 e1 n2 e2 h :
  List.length n2 = List.length n1 -> List.length e2 = List.length e1 ->
  run_effect Math_cos Math_sin n2 e2 (run_effect Math_cos Math_sin n1 e1 h)
  = run_effect Math_cos Math_sin n1 e1 h.
Proof.
  intros Hn He. unfold run_effect at 1. rewrite deps_run_effect, Hn, He.
  cbn [same_deps fst snd]. now rewrite !Nat.eqb_refl.
Qed.

(** A render with as many nodes and as many edges as the render before it
    leaves the state of the hook as it is, whatever the nodes and edges are.
    So when the new nodes have none of the keys of the nodes for which the
    positions were computed, the graph is shown with the view box of the
    old layout and without any card. *)
Theorem equal_counts_keep_stale_positions n1 e1 n2 e2 h :
  List.length n2 = List.length n1 -> List.length e2 = List.length e1 ->
  let h1 := run_effect Math_cos Math_sin n1 e1 h in
  run_effect Math_cos Math_sin n2 e2 h1 = h1
  /\ (n1 <> [] ->
      same_deps (Hook.deps h) (List.length n1, List.length e1) = false ->
      (forall n, In n n2 -> ~ In (node_key n) (map node_key n1)) ->
      settled_view Math_cos Math_sin n2 e2 h1
      = Graph (view_box (useForceLayout Math_cos Math_sin n1 e1))
              (map (draw_edge (useForceLayout Math_cos Math_sin n1 e1)) e2)
              (map (fun _ => None) n2)).
Proof.
  intros Hn He h1. split; [now apply run_effect_same_counts|].
  intros Hne Hd Hk. unfold settled_view. fold h1.
  unfold h1 at 1. rewrite (@run_effect_same_counts n1 e1 n2 e2 h Hn He).
  unfold run_effect. rewrite Hd. cbn [Hook.positions]. unfold SchemaGraph.
  rewrite (@layout_nonempty n1 e1 Hne).
  destruct n2 as [|m n2'] eqn:E2.
  { destruct n1; [congruence|discriminate]. }
  cbn [List.length Nat.eqb]. rewrite <- E2 in *. f_equal.
  apply map_ext_in. intros n Hin. unfold draw_node.
  destruct (lookup (node_key n) _) eqn:L; [|reflexivity].
  apply lookup_Some_In, keys_useForceLayout in L. now apply Hk in L.
Qed.

End SchemaGraphFacts.

Lemma fresh_graph_witness :
  exists connectors cards,
    settled_view ref_cos ref_sin [node_A; node_B] [edge_AB] mount
    = Graph (view_box (useForceLayout ref_cos ref_sin [node_A; node_B] [edge_AB]))
            connectors cards
    /\ Forall2 (card_at (useForceLayout ref_cos ref_sin [node_A; node_B] [edge_AB]))
               [node_A; node_B] cards
    /\ Forall2 (fun e c => drawn c = present (map node_key [node_A; node_B]) e)
               [edge_AB] connectors.
Proof.
  exact (@fresh_graph_shows_every_node ref_cos ref_sin
           [node_A; node_B] [edge_AB] mount two_nodes_nonempty eq_refl).
Defined.

Lemma stale_positions_witness :
  let h1 := run_effect ref_cos ref_sin [node_A; node_B] [edge_AB] mount in
  run_effect ref_cos ref_sin [invoices_node; payments_node] [payment_fk] h1 = h1
  /\ ([node_A; node_B] <> [] ->
      same_deps (Hook.deps mount)
        (List.length [node_A; node_B], List.length [edge_AB]) = false ->
      (forall n, In n [invoices_node; payments_node] ->
         ~ In (node_key n) (map node_key [node_A; node_B])) ->
      settled_view ref_cos ref_sin [invoices_node; payments_node] [payment_fk] h1
      = Graph (view_box (useForceLayout ref_cos ref_sin [node_A; node_B] [edge_AB]))
              (map (draw_edge
                      (useForceLayout ref_cos ref_sin [node_A; node_B] [edge_AB]))
                   [payment_fk])
              (map (fun _ => None) [invoices_node; payments_node])).
Proof.
  exact (@equal_counts_keep_stale_positions ref_cos ref_sin
           [node_A; node_B] [edge_AB] [invoices_node; payments_node]
           [payment_fk] mount eq_refl eq_refl).
Defined.

(** ** The label of a card *)

Section LabelFacts.
Variable code_unit : Type.
Variable ellipsis : code_unit.

(** The label shown on a card has at most 18 code units: a label of at most
    18 units is shown as it is, a longer one as its first 17 units followed
    by the ellipsis; and shortening a shown label changes nothing. *)
Theorem display_label_fits (label : list code_unit) :
  List.length (display_label ellipsis label) <= 18
  /\ (List.length label <= 18 -> display_label ellipsis label = label)
  /\ (18 < List.length label ->
      display_label ellipsis label = firstn 17 label ++ [ellipsis])
  /\ display_label ellipsis (display_label ellipsis label)
     = display_label ellipsis label.
Proof.
  unfold display_label.
  destruct (Nat.ltb 18 (List.length label)) eqn:E.
  - apply Nat.ltb_lt in E.
    assert (L : List.length (firstn 17 label ++ [ellipsis]) = 18).
    { rewrite length_app, firstn_length_le by lia. reflexivity. }
    rewrite L. cbn [Nat.ltb Nat.leb]. repeat split; auto; lia.
  - rewrite E. apply Nat.ltb_ge in E. repeat split; auto; lia.
Qed.

End LabelFacts.

(** ** DatabaseView: the graph of the selected service *)

Section Combined.

Lemma tagged_well_tagged svc data : well_tagged (svc, tagged svc data).
Proof.
  split; cbn [fst snd tagged Lineage.nodes Lineage.edges]; intros x Hx;
    apply in_map_iff in Hx; destruct Hx as [y [<- _]]; reflexivity.
Qed.

Lemma In_assign (V : Type) k (v : V) d kv :
  In kv (assign k v d) -> kv = (k, v) \/ In kv d.
Proof.
  induction d as [|[k' v'] d IH]; simpl.
  - intros [<-|[]]. now left.
  - destruct (String.eqb k k') eqn:E.
    + apply String.eqb_eq in E. subst k'. intros [<-|H]; auto.
    + intros [<-|H]; auto. destruct (IH H); auto.
Qed.

Lemma loaded_snoc loads l :
  loaded (loads ++ [l]) = store_lineage (loaded loads) l.
Proof. unfold loaded. now rewrite fold_left_app. Qed.

Lemma loaded_invariant loads :
  NoDup (Object_keys (loaded loads)) /\ Forall well_tagged (loaded loads).
Proof.
  induction loads as [|l loads IH] using rev_ind.
  - split; constructor.
  - rewrite loaded_snoc. destruct IH as [Hnd Hwt]. split.
    + unfold store_lineage. now apply NoDup_keys_assign.
    + apply Forall_forall. intros kv Hin. apply In_assign in Hin.
      destruct Hin as [->|Hin].
      * apply tagged_well_tagged.
      * rewrite Forall_forall in Hwt. now apply Hwt.
Qed.

Lemma lookup_loaded svc loads :
  lookup svc (loaded loads) = option_map (tagged svc) (last_loaded svc loads).
Proof.
  unfold last_loaded.
  induction loads as [|[s d] loads IH] using rev_ind; [reflexivity|].
  rewrite loaded_snoc, rev_app_distr. cbn [rev app find fst].
  unfold store_lineage. cbn [fst snd].
  destruct (String.eqb svc s) eqn:E.
  - apply String.eqb_eq in E. subst s. now rewrite lookup_assign_same.
  - rewrite lookup_assign_other; [exact IH|].
    intros ->. now rewrite String.eqb_refl in E.
Qed.

Lemma filter_nothing (A : Type) (f : A -> bool) l :
  (forall x, In x l -> f x = false) -> filter f l = [].
Proof.
  induction l as [|a l IH]; simpl; intros H; auto.
  rewrite (H a (or_introl eq_refl)). apply IH. auto.
Qed.

Lemma filter_everything (A : Type) (f : A -> bool) l :
  (forall x, In x l -> f x = true) -> filter f l = l.
Proof.
  induction l as [|a l IH]; simpl; intros H; auto.
  rewrite (H a (or_introl eq_refl)). f_equal. apply IH. auto.
Qed.

(** Of entries that are tagged with their keys, the filter keeps the items
    of the entry stored under [selected], in whatever order the entries are
    enumerated. *)
Lemma combined_entries (A : Type) (items : Lineage.t -> list A)
    (service : A -> string) selected (es : dict Lineage.t) :
  NoDup (Object_keys es) ->
  (forall kl x, In kl es -> In x (items (snd kl)) -> service x = fst kl) ->
  filter (fun x => String.eqb (service x) selected)
         (flat_map items (Object_values es))
  = match lookup selected es with Some l => items l | None => [] end.
Proof.
  induction es as [|[k l] es IH]; intros Hnd Hwt; [reflexivity|].
  cbn [Object_values map snd flat_map lookup]. rewrite filter_app.
  inversion Hnd as [|? ? Hni Hnd']; subst.
  assert (Hrest : forall kl x, In kl es -> In x (items (snd kl)) ->
                                service x = fst kl)
    by (intros kl x Hkl; apply Hwt; now right).
  fold (Object_values es). rewrite (IH Hnd' Hrest).
  destruct (String.eqb selected k) eqn:E.
  - apply String.eqb_eq in E. subst k.
    rewrite filter_everything.
    + destruct (lookup selected es) eqn:L; [|apply app_nil_r].
      apply lookup_Some_In in L. contradiction.
    + intros x Hx. rewrite (Hwt (selected, l) x (or_introl eq_refl) Hx).
      apply String.eqb_refl.
  - rewrite filter_nothing; [reflexivity|].
    intros x Hx. rewrite (Hwt (k, l) x (or_introl eq_refl) Hx). cbn [fst].
    rewrite String.eqb_sym. exact E.
Qed.

Lemma In_of_lookup (V : Type) k (v : V) (d : dict V) :
  lookup k d = Some v -> In (k, v) d.
Proof.
  induction d as [|[k' v'] d IH]; simpl; [discriminate|].
  destruct (String.eqb k k') eqn:E.
  - apply String.eqb_eq in E. subst. intros [= ->]. now left.
  - intros L. right. auto.
Qed.

Lemma lookup_permutation (V : Type) k (d d' : dict V) :
  NoDup (Object_keys d) -> Permutation d d' -> lookup k d' = lookup k d.
Proof.
  intros Hnd Hp.
  assert (Hnd' : NoDup (Object_keys d')).
  { unfold Object_keys. eapply Permutation_NoDup; [|exact Hnd].
    now apply Permutation_map. }
  destruct (lookup k d) as [v|] eqn:L.
  - apply lookup_In; auto. eapply Permutation_in; [exact Hp|].
    now apply In_of_lookup.
  - apply lookup_None. apply lookup_None in L. intros Hin. apply L.
    unfold Object_keys in *. eapply Permutation_in; [|exact Hin].
    apply Permutation_map. now apply Permutation_sym.
Qed.

(** Whatever lineage answers have been stored and in whatever order
    [Object.values] enumerates the services, the graph handed to
    [SchemaGraph] consists of the nodes and of the edges of the last answer
    for the selected service, tagged with that service, in the order of the
    answer; it is empty when no answer for that service has been stored. *)
Theorem combined_graph_is_last_load loads selected values :
  Permutation values (Object_values (loaded loads)) ->
  combinedNodes values selected
  = match last_loaded selected loads with
    | Some data => map (tag_node selected) (Lineage.nodes data)
    | None => []
    end
  /\ combinedEdges values selected
     = match last_loaded selected loads with
       | Some data => map (tag_edge selected) (Lineage.edges data)
       | None => []
       end.
Proof.
  intros Hp. unfold Object_values in Hp.
  apply Permutation_map_inv in Hp. destruct Hp as (es & -> & Hp).
  destruct (loaded_invariant loads) as [Hnd Hwt].
  assert (Hnd' : NoDup (Object_keys es)).
  { unfold Object_keys. eapply Permutation_NoDup; [|exact Hnd].
    now apply Permutation_map. }
  assert (Hwt' : Forall well_tagged es).
  { eapply Permutation_Forall; [exact Hp|exact Hwt]. }
  rewrite Forall_forall in Hwt'.
  assert (L : lookup selected es
              = option_map (tagged selected) (last_loaded selected loads)).
  { rewrite <- lookup_loaded. now apply lookup_permutation. }
  unfold combinedNodes, combinedEdges. fold (Object_values es).
  rewrite (@combined_entries _ Lineage.nodes LineageNode.service selected es Hnd'),
          (@combined_entries _ Lineage.edges LineageEdge.service selected es Hnd').
  - rewrite L. now destruct (last_loaded selected loads).
  - intros kl x Hkl. now apply (proj2 (Hwt' kl Hkl)).
  - intros kl x Hkl. now apply (proj1 (Hwt' kl Hkl)).
Qed.

Lemma key_suffix_inj (s a b : string) :
  (s ++ ":" ++ a)%string = (s ++ ":" ++ b)%string <-> a = b.
Proof.
  split; [|now intros ->].
  induction s as [|c s IH]; simpl; intros E; injection E; auto.
Qed.

(** The graph handed to [SchemaGraph] is a graph of one service, whatever
    [allLineage] holds: every node and every edge is of the selected
    service.  So, colons or not, two of its nodes have the same key exactly
    when they have the same id, and an endpoint key of one of its edges is
    the key of one of its nodes exactly when the edge names the id of that
    node. *)
Theorem combined_graph_is_one_service values selected :
  let ns := combinedNodes values selected in
  let es := combinedEdges values selected in
  (forall n, In n ns -> LineageNode.service n = selected)
  /\ (forall e, In e es -> LineageEdge.service e = selected)
  /\ (forall n m, In n ns -> In m ns ->
        (node_key n = node_key m <-> LineageNode.id n = LineageNode.id m))
  /\ (forall e n, In e es -> In n ns ->
        (source_key e = node_key n <-> LineageEdge.source e = LineageNode.id n)
        /\ (target_key e = node_key n
            <-> LineageEdge.target e = LineageNode.id n)).
Proof.
  intros ns es.
  assert (Hn : forall n, In n ns -> LineageNode.service n = selected).
  { intros n Hin. apply filter_In in Hin. now apply String.eqb_eq. }
  assert (He : forall e, In e es -> LineageEdge.service e = selected).
  { intros e Hin. apply filter_In in Hin. now apply String.eqb_eq. }
  split; [exact Hn|]. split; [exact He|]. split.
  - intros n m Hi Hj. unfold node_key. rewrite (Hn n Hi), (Hn m Hj).
    apply key_suffix_inj.
  - intros e n Hi Hj. unfold source_key, target_key, node_key.
    rewrite (He e Hi), (Hn n Hj). split; apply key_suffix_inj.
Qed.

End Combined.

Lemma combined_graph_witness :
  combinedNodes
    (Object_values (loaded [("crm"%string, Lineage.mk [users_node] []);
                            ("sales"%string, sales_answer)]))
    "sales"
  = match last_loaded "sales"
            [("crm"%string, Lineage.mk [users_node] []);
             ("sales"%string, sales_answer)] with
    | Some data => map (tag_node "sales") (Lineage.nodes data)
    | None => []
    end
  /\ combinedEdges
       (Object_values (loaded [("crm"%string, Lineage.mk [users_node] []);
                               ("sales"%string, sales_answer)]))
       "sales"
     = match last_loaded "sales"
               [("crm"%string, Lineage.mk [users_node] []);
                ("sales"%string, sales_answer)] with
       | Some data => map (tag_edge "sales") (Lineage.edges data)
       | None => []
       end.
Proof.
  exact (@combined_graph_is_last_load
           [("crm"%string, Lineage.mk [users_node] []);
            ("sales"%string, sales_answer)]
           "sales"%string _ (Permutation_refl _)).
Defined.

(** ** C9: the edges of the graph that is laid out *)

Section OneService.

Lemma present_In ks e :
  present ks e = true <-> In (source_key e) ks /\ In (target_key e) ks.
Proof. unfold present. now rewrite andb_true_iff, !mem_In. Qed.

(** Among nodes of one service, an edge of that service names its two
    tables by its endpoint keys. *)
Lemma key_names_own_table selected table n :
  LineageNode.service n = selected ->
  (selected ++ ":" ++ table)%string = node_key n ->
  is_table selected table n.
Proof.
  intros Hs E. unfold node_key in E. rewrite Hs in E.
  apply key_suffix_inj in E. split; auto.
Qed.

Lemma present_names_own_tables selected nodes e :
  (forall n, In n nodes -> LineageNode.service n = selected) ->
  LineageEdge.service e = selected ->
  present (map node_key nodes) e = true ->
  exists n1 n2,
    In n1 nodes /\ In n2 nodes
    /\ is_table selected (LineageEdge.source e) n1
    /\ is_table selected (LineageEdge.target e) n2.
Proof.
  intros Hn He Hp. apply present_In in Hp. destruct Hp as [Hs Ht].
  apply in_map_iff in Hs, Ht.
  destruct Hs as [n1 [E1 I1]], Ht as [n2 [E2 I2]].
  unfold source_key in E1. unfold target_key in E2. rewrite He in E1, E2.
  exists n1, n2. split; [|split; [|split]]; auto;
    apply key_names_own_table; auto.
Qed.

Lemma combined_without_other (A : Type) (items : Lineage.t -> list A)
    (f : A -> bool) pre l post :
  (forall x, In x (items l) -> f x = false) ->
  filter f (flat_map items (pre ++ l :: post))
  = filter f (flat_map items (pre ++ post)).
Proof.
  intros H. rewrite !flat_map_app. cbn [flat_map].
  rewrite !filter_app. now rewrite (@filter_nothing _ f (items l) H).
Qed.

(** C9.  [DatabaseView] passes to the layout the nodes and the edges of
    the selected service only.  Every edge it passes builds both endpoint
    keys from its own service, which is the selected one, and the nodes
    that these keys name are the tables [source] and [target] of that
    service; an edge that does not name two tables of its service among
    the nodes changes nothing in the layout; and what is stored of the
    other services, their edges included, changes nothing either. *)
Theorem C9_edges_join_tables_of_one_service
    (Math_cos Math_sin : number -> number)
    (values : list Lineage.t) (selected : string) :
  let nodes := combinedNodes values selected in
  let edges := combinedEdges values selected in
  (forall e, In e edges ->
     LineageEdge.service e = selected
     /\ source_key e = (selected ++ ":" ++ LineageEdge.source e)%string
     /\ target_key e = (selected ++ ":" ++ LineageEdge.target e)%string
     /\ forall n1 n2, In n1 nodes -> In n2 nodes ->
          source_key e = node_key n1 -> target_key e = node_key n2 ->
          is_table selected (LineageEdge.source e) n1
          /\ is_table selected (LineageEdge.target e) n2
          /\ LineageNode.service n1 = LineageNode.service n2)
  /\ (forall before e after, edges = before ++ e :: after ->
        ~ (exists n1 n2,
             In n1 nodes /\ In n2 nodes
             /\ is_table selected (LineageEdge.source e) n1
             /\ is_table selected (LineageEdge.target e) n2) ->
        useForceLayout Math_cos Math_sin nodes edges
        = useForceLayout Math_cos Math_sin nodes (before ++ after))
  /\ (forall pre other post, values = pre ++ other :: post ->
        (forall n, In n (Lineage.nodes other) ->
           LineageNode.service n <> selected) ->
        (forall e, In e (Lineage.edges other) ->
           LineageEdge.service e <> selected) ->
        useForceLayout Math_cos Math_sin nodes edges
        = useForceLayout Math_cos Math_sin
            (combinedNodes (pre ++ post) selected)
            (combinedEdges (pre ++ post) selected)).
Proof.
  intros nodes edges.
  assert (Hn : forall n, In n nodes -> LineageNode.service n = selected).
  { intros n Hin. apply filter_In in Hin. now apply String.eqb_eq. }
  assert (He : forall e, In e edges -> LineageEdge.service e = selected).
  { intros e Hin. apply filter_In in Hin. now apply String.eqb_eq. }
  split; [|split].
  - intros e Hin. pose proof (He e Hin) as Hs.
    split; [exact Hs|]. unfold source_key, target_key. rewrite Hs.
    split; [reflexivity|]. split; [reflexivity|].
    intros n1 n2 I1 I2 E1 E2.
    assert (T1 : is_table selected (LineageEdge.source e) n1)
      by (apply key_names_own_table; auto).
    assert (T2 : is_table selected (LineageEdge.target e) n2)
      by (apply key_names_own_table; auto).
    split; [exact T1|]. split; [exact T2|].
    destruct T1 as [-> _], T2 as [-> _]. reflexivity.
  - intros before e after Hedges Hno.
    assert (Hin : In e edges)
      by (rewrite Hedges; apply in_or_app; right; now left).
    assert (Hp : present (map node_key nodes) e = false).
    { destruct (present (map node_key nodes) e) eqn:Hp; auto.
      exfalso. apply Hno.
      now apply (@present_names_own_tables selected nodes e Hn (He e Hin)). }
    rewrite Hedges. clearbody nodes. clear Hn He Hin Hedges Hno.
    unfold useForceLayout. destruct nodes as [|n nodes]; [reflexivity|].
    rewrite <- (simulate_present (map node_key (n :: nodes))
                  (before ++ e :: after))
      by (intros k; apply keys_seed).
    rewrite <- (simulate_present (map node_key (n :: nodes)) (before ++ after))
      by (intros k; apply keys_seed).
    rewrite !filter_app. cbn [filter]. rewrite Hp. reflexivity.
  - intros pre other post Hvalues Hon Hoe.
    unfold nodes, edges, combinedNodes, combinedEdges. rewrite Hvalues.
    rewrite (@combined_without_other _ Lineage.nodes _ pre other post).
    + rewrite (@combined_without_other _ Lineage.edges _ pre other post);
        [reflexivity|].
      intros e Hin. apply String.eqb_neq. now apply Hoe.
    + intros n Hin. apply String.eqb_neq. now apply Hon.
Qed.

End OneService.

Lemma C9_witness_sales_and_crm :
  combinedNodes two_services "sales" = [orders_node; customers_node]
  /\ combinedEdges two_services "sales" = [declared_fk; cross_edge]
  /\ source_key declared_fk = node_key orders_node
  /\ target_key declared_fk = node_key customers_node
  /\ is_table "sales" "orders" orders_node
  /\ is_table "sales" "customers" customers_node
  /\ useForceLayout ref_cos ref_sin
       [orders_node; customers_node] [declared_fk; cross_edge]
     = useForceLayout ref_cos ref_sin
         [orders_node; customers_node] [declared_fk]
  /\ useForceLayout ref_cos ref_sin
       [orders_node; customers_node] [declared_fk; cross_edge]
     = useForceLayout ref_cos ref_sin
         (combinedNodes [Lineage.mk [orders_node; customers_node]
                                    [declared_fk; cross_edge]] "sales")
         (combinedEdges [Lineage.mk [orders_node; customers_node]
                                    [declared_fk; cross_edge]] "sales").
Proof.
  destruct (@C9_edges_join_tables_of_one_service ref_cos ref_sin
              two_services "sales"%string) as (H1 & H2 & H3).
  split; [reflexivity|]. split; [reflexivity|].
  split; [reflexivity|]. split; [reflexivity|].
  destruct (H1 declared_fk (or_introl eq_refl)) as (_ & _ & _ & T).
  destruct (T orders_node customers_node (or_introl eq_refl)
              (or_intror (or_introl eq_refl)) eq_refl eq_refl) as (T1 & T2 & _).
  split; [exact T1|]. split; [exact T2|]. split.
  - apply (H2 [declared_fk] cross_edge [] eq_refl).
    intros (n1 & n2 & _ & I2 & _ & _ & T3).
    destruct I2 as [<-|[<-|[]]]; discriminate.
  - apply (H3 [] (Lineage.mk [users_node] [])
                [Lineage.mk [orders_node; customers_node]
                            [declared_fk; cross_edge]] eq_refl).
    + intros n [<-|[]]. discriminate.
    + intros e [].
Defined.

(** ** DatabaseView: the list of tables *)

Section Tables.

Lemma name_with_profile ps t :
  TableSummary.name (with_profile ps t) = TableSummary.name t
  /\ TableSummary.service (with_profile ps t) = TableSummary.service t.
Proof. unfold with_profile. now destruct (find _ ps). Qed.

Lemma name_with_docs rs t :
  TableSummary.name (with_docs rs t) = TableSummary.name t
  /\ TableSummary.service (with_docs rs t) = TableSummary.service t.
Proof.
  unfold with_docs. destruct (find _ rs) as [r|]; auto.
  now destruct (String.eqb (DocResult.status r) "success").
Qed.

Lemma names_merge tables r :
  map TableSummary.name (merge tables r) = map TableSummary.name tables
  /\ map TableSummary.service (merge tables r)
     = map TableSummary.service tables.
Proof.
  destruct r; cbn [merge]; unfold profiled_tables, documented_tables;
    rewrite !map_map; split; apply map_ext; intros t;
    first [apply name_with_profile | apply name_with_docs].
Qed.

(** After a lineage answer has filled the table list, no answer of the
    profiler or of the documentation generator adds, drops, renames or
    reorders a table: the names remain the ids of the loaded nodes, in
    their order, and every table remains of the loaded service. *)
Theorem responses_keep_loaded_tables svc nodes responses :
  let tables := fold_left merge responses (tables_of svc nodes) in
  map TableSummary.name tables = map LineageNode.id nodes
  /\ Forall (fun t => TableSummary.service t = svc) tables.
Proof.
  induction responses as [|r responses IH] using rev_ind; intros tables.
  - unfold tables, tables_of. cbn [fold_left]. rewrite map_map. split.
    + reflexivity.
    + apply Forall_forall. intros t Ht. apply in_map_iff in Ht.
      now destruct Ht as [n [<- _]].
  - unfold tables. rewrite fold_left_app. cbn [fold_left].
    destruct IH as [IHn IHs].
    destruct (names_merge (fold_left merge responses (tables_of svc nodes)) r)
      as [En Es].
    split; [now rewrite En|].
    apply Forall_forall. intros t Ht.
    assert (Hs : Forall (fun s => s = svc)
                   (map TableSummary.service
                      (merge (fold_left merge responses (tables_of svc nodes))
                             r))).
    { rewrite Es. apply Forall_map. exact IHs. }
    rewrite Forall_forall in Hs. apply Hs. now apply in_map.
Qed.

(** The two updates of the table list commute, so the order in which the
    answers of the profiler and of the documentation generator arrive does
    not matter; and each of them applied twice with the same answer is the
    same as applied once. *)
Theorem profiling_and_documenting_commute ps rs tables :
  profiled_tables ps (documented_tables rs tables)
  = documented_tables rs (profiled_tables ps tables)
  /\ profiled_tables ps (profiled_tables ps tables) = profiled_tables ps tables
  /\ documented_tables rs (documented_tables rs tables)
     = documented_tables rs tables.
Proof.
  unfold profiled_tables, documented_tables. rewrite !map_map.
  split; [|split]; apply map_ext; intros t; unfold with_profile, with_docs;
    destruct (find (fun x => String.eqb (Profile.table_name x)
                                (TableSummary.name t)) ps) as [p|] eqn:Ep;
    destruct (find (fun x => String.eqb (DocResult.table_name x)
                                (TableSummary.name t)) rs) as [r|] eqn:Er;
    cbn [TableSummary.name]; rewrite ?Ep, ?Er; try reflexivity;
    destruct (String.eqb (DocResult.status r) "success") eqn:Es;
    cbn [TableSummary.name]; rewrite ?Ep, ?Er, ?Es; try reflexivity;
    cbn [TableSummary.name]; rewrite ?Ep, ?Er, ?Es; reflexivity.
Qed.

End Tables.

(** ** Connections and their colours *)

Section ConnectionFacts.
Variable D : Type.
Variable spread : D -> D -> D.

Lemma find_name_none (c : Connection.t D) (l : list (Connection.t D)) :
  find (fun x => String.eqb (Connection.service_name x)
                            (Connection.service_name c)) l = None
  <-> ~ In (Connection.service_name c) (names l).
Proof.
  induction l as [|x l IH]; simpl; [tauto|].
  destruct (String.eqb (Connection.service_name x) (Connection.service_name c))
    eqn:E.
  - apply String.eqb_eq in E. split; [discriminate|]. intros H. exfalso. auto.
  - rewrite IH. split; [|tauto]. intros H [Hx|Hin]; [|tauto].
    rewrite Hx, String.eqb_refl in E. discriminate.
Qed.

Lemma names_addConnection (c : Connection.t D) l :
  names (addConnection spread c l)
  = if mem (Connection.service_name c) (names l) then names l
    else names l ++ [Connection.service_name c].
Proof.
  unfold addConnection.
  destruct (find _ l) eqn:F.
  - assert (Hin : In (Connection.service_name c) (names l)).
    { destruct (in_dec string_dec (Connection.service_name c) (names l)); auto.
      apply find_name_none in n. congruence. }
    apply mem_In in Hin. rewrite Hin. unfold names. rewrite map_map.
    apply map_ext. intros x.
    destruct (String.eqb (Connection.service_name x) (Connection.service_name c))
      eqn:E; [|reflexivity].
    apply String.eqb_eq in E. now rewrite E.
  - apply find_name_none in F.
    destruct (mem _ (names l)) eqn:M.
    + apply mem_In in M. contradiction.
    + unfold names. now rewrite map_app.
Qed.

Lemma names_removeConnection name (l : list (Connection.t D)) :
  names (removeConnection name l)
  = filter (fun k => negb (String.eqb k name)) (names l).
Proof.
  unfold removeConnection, names.
  induction l as [|x l IH]; simpl; auto.
  destruct (String.eqb (Connection.service_name x) name); simpl; now rewrite IH.
Qed.

Lemma NoDup_names_change (l : list (Connection.t D)) ch :
  NoDup (names l) -> NoDup (names (apply_change spread l ch)).
Proof.
  intros Hnd. destruct ch as [c|name]; cbn [apply_change].
  - rewrite names_addConnection.
    destruct (mem _ (names l)) eqn:M; auto.
    apply NoDup_app; auto.
    + repeat constructor. intros [].
    + intros k Hk [<-|[]]. apply mem_In in Hk. congruence.
  - rewrite names_removeConnection. now apply NoDup_filter.
Qed.

(** The connections keep distinct service names under any sequence of
    [addConnection] and [removeConnection]: adding a connection whose name
    is known updates that connection in place and leaves the list of names
    as it is, adding one with a new name puts it last, and removing a name
    removes every connection of that name and nothing else. *)
Theorem connections_keep_distinct_names changes (l : list (Connection.t D)) :
  NoDup (names l) ->
  NoDup (names (fold_left (apply_change spread) changes l))
  /\ (forall c,
        names (addConnection spread c l)
        = if mem (Connection.service_name c) (names l) then names l
          else names l ++ [Connection.service_name c])
  /\ (forall name,
        names (removeConnection name l)
        = filter (fun k => negb (String.eqb k name)) (names l)).
Proof.
  intros Hnd. split; [|split].
  - revert l Hnd. induction changes as [|ch changes IH]; intros l Hnd;
      cbn [fold_left]; auto.
    apply IH. now apply NoDup_names_change.
  - intros c. apply names_addConnection.
  - intros name. apply names_removeConnection.
Qed.

Lemma palette_at_defined i :
  nth_error PALETTE (i mod List.length PALETTE) = Some (palette_at i).
Proof.
  unfold palette_at. apply nth_error_nth'.
  apply Nat.mod_upper_bound. discriminate.
Qed.

Lemma colour_fold_absent k (l : list (Connection.t D)) :
  forall a m, ~ In k (names l) ->
  lookup k (fold_left (fun m (ic : nat * Connection.t D) =>
                         assign (Connection.service_name (snd ic))
                                (palette_at (fst ic)) m)
                      (combine (seq a (List.length l)) l) m)
  = lookup k m.
Proof.
  induction l as [|c l IH]; intros a m Hk; [reflexivity|].
  cbn [List.length seq combine fold_left fst snd].
  rewrite IH by (intros H; apply Hk; now right).
  apply lookup_assign_other. intros E. apply Hk. now left.
Qed.

Lemma colour_fold_at (l : list (Connection.t D)) :
  forall a m i c, NoDup (names l) -> nth_error l i = Some c ->
  lookup (Connection.service_name c)
    (fold_left (fun m (ic : nat * Connection.t D) =>
                  assign (Connection.service_name (snd ic))
                         (palette_at (fst ic)) m)
               (combine (seq a (List.length l)) l) m)
  = Some (palette_at (a + i)).
Proof.
  induction l as [|c0 l IH]; intros a m i c Hnd Hi.
  - destruct i; discriminate.
  - cbn [List.length seq combine fold_left fst snd].
    inversion Hnd as [|? ? Hni Hnd']; subst.
    destruct i as [|i]; cbn [nth_error] in Hi.
    + injection Hi as <-. rewrite colour_fold_absent by exact Hni.
      rewrite lookup_assign_same. now rewrite Nat.add_0_r.
    + rewrite (IH (S a)
                  (assign (Connection.service_name c0) (palette_at a) m)
                  i c Hnd' Hi).
      f_equal. f_equal. lia.
Qed.

(** When the connections have distinct service names, the cards of the
    connection at index [i] are drawn with the palette entry
    [PALETTE[i % 5]], the entry of the dot of that connection in the side
    bar and in the legend; and that entry exists for every index. *)
Theorem card_colour_is_sidebar_colour (connections : list (Connection.t D)) i c :
  NoDup (names connections) ->
  nth_error connections i = Some c ->
  card_colour (colorMap connections) (Connection.service_name c)
  = Some (palette_at i)
  /\ nth_error PALETTE (i mod List.length PALETTE) = Some (palette_at i).
Proof.
  intros Hnd Hi. split; [|apply palette_at_defined].
  unfold card_colour, colorMap, indexed.
  now rewrite (@colour_fold_at connections 0 [] i c Hnd Hi).
Qed.

End ConnectionFacts.

Lemma no_connection_distinct : NoDup (names (@nil (Connection.t unit))).
Proof. constructor. Qed.

Lemma connections_witness :
  NoDup (names (fold_left (apply_change keep_unit)
                  [Add sales_connection; Add crm_connection;
                   Add sales_connection; Remove unit "crm"] []))
  /\ (forall c,
        names (addConnection keep_unit c [])
        = if mem (Connection.service_name c) (names (@nil (Connection.t unit)))
          then names (@nil (Connection.t unit))
          else names (@nil (Connection.t unit)) ++ [Connection.service_name c])
  /\ (forall name,
        names (removeConnection name (@nil (Connection.t unit)))
        = filter (fun k => negb (String.eqb k name))
                 (names (@nil (Connection.t unit)))).
Proof.
  exact (@connections_keep_distinct_names unit keep_unit
           [Add sales_connection; Add crm_connection;
            Add sales_connection; Remove unit "crm"] []
           no_connection_distinct).
Defined.

Lemma two_connections_distinct :
  NoDup (names [sales_connection; crm_connection]).
Proof. repeat constructor; simpl; intuition discriminate. Qed.

Lemma card_colour_witness :
  card_colour (colorMap [sales_connection; crm_connection])
    (Connection.service_name crm_connection)
  = Some (palette_at 1)
  /\ nth_error PALETTE (1 mod List.length PALETTE) = Some (palette_at 1).
Proof.
  exact (@card_colour_is_sidebar_colour unit
           [sales_connection; crm_connection] 1 crm_connection
           two_connections_distinct eq_refl).
Defined.

(** ** edgePorts: the two directions of an edge *)

Section Reversal.
Local Open Scope float_scope.

Lemma binary_round_sign m e :
  binary_round prec emax true m e = SFopp (binary_round prec emax false m e).
Proof.
  unfold binary_round.
  destruct (shl_align m e _) as [mz ez].
  unfold binary_round_aux.
  destruct (shr_fexp prec emax (Z.pos mz) ez loc_Exact) as [mrs' e'].
  destruct (shr_fexp prec emax _ e' loc_Exact) as [mrs'' e''].
  destruct (shr_m mrs''); try reflexivity.
  now destruct (e'' <=? emax - prec)%Z.
Qed.

Lemma binary_normalize_opp m e :
  m <> 0%Z ->
  binary_normalize prec emax (- m) e false
  = SFopp (binary_normalize prec emax m e false).
Proof.
  destruct m as [|p|p]; [congruence| |]; intros _; cbn [Z.opp binary_normalize].
  - apply binary_round_sign.
  - rewrite binary_round_sign.
    destruct (binary_round prec emax false p e) as [s|s| |s m' e'];
      cbn [SFopp]; rewrite ?negb_involutive; reflexivity.
Qed.

(** [y - x] is the opposite of [x - y], unless both are [+0]. *)
Lemma SFsub_swap x y :
  SF64sub y x = SFopp (SF64sub x y)
  \/ (SF64sub x y = S754_zero false /\ SF64sub y x = S754_zero false).
Proof.
  unfold SF64sub, SFsub.
  destruct x as [sx|sx| |sx mx ex], y as [sy|sy| |sy my ey];
    try (left; reflexivity);
    try (destruct sx, sy; (left; reflexivity) || (right; split; reflexivity)).
  rewrite (Z.min_comm ey ex).
  set (ez := Z.min ex ey).
  set (X := cond_Zopp sx (Z.pos (fst (shl_align mx ex ez)))).
  set (Y := cond_Zopp sy (Z.pos (fst (shl_align my ey ez)))).
  destruct (Z.eq_dec (X - Y) 0) as [E|E].
  - right. replace (Y - X)%Z with 0%Z by lia. rewrite E. split; reflexivity.
  - left. replace (Y - X)%Z with (- (X - Y))%Z by lia.
    now apply binary_normalize_opp.
Qed.

Lemma sub_swap a b :
  Prim2SF (b - a) = SFopp (Prim2SF (a - b))
  \/ (a - b = 0 /\ b - a = 0).
Proof.
  rewrite !FloatAxioms.sub_spec.
  destruct (SFsub_swap (Prim2SF a) (Prim2SF b)) as [H|[H1 H2]]; [now left|].
  right. split; apply Prim2SF_inj; rewrite FloatAxioms.sub_spec, Prim2SF_zero;
    assumption.
Qed.

Lemma abs_sub_swap a b : Math_abs (a - b) = Math_abs (b - a).
Proof.
  unfold Math_abs.
  destruct (sub_swap a b) as [H|[-> ->]]; [|reflexivity].
  apply Prim2SF_inj. rewrite !FloatAxioms.abs_spec, H.
  now destruct (Prim2SF (a - b)).
Qed.

Lemma gt_sub_swap a b : gt (b - a) 0 = (a - b <? 0).
Proof.
  unfold gt.
  destruct (sub_swap a b) as [H|[-> ->]]; [|reflexivity].
  rewrite !FloatAxioms.ltb_spec, H, Prim2SF_zero.
  destruct (Prim2SF (a - b)) as [s|s| |s m e]; try reflexivity;
    now destruct s.
Qed.

Lemma gt_lt_exclusive x : gt x 0 = true -> (x <? 0) = false.
Proof.
  intros H. destruct (x <? 0) eqn:E; auto.
  apply lt_zero_not_gt in E. congruence.
Qed.

(** A number that exceeds another in magnitude and is not positive is
    negative. *)
Lemma dominant_sign w z :
  gt (Math_abs z) (Math_abs w) = true -> gt z 0 = false -> (z <? 0) = true.
Proof.
  unfold gt, Math_abs.
  rewrite !FloatAxioms.ltb_spec, !FloatAxioms.abs_spec, Prim2SF_zero.
  destruct (Prim2SF z) as [s|s| |s m e], (Prim2SF w) as [s'|s'| |s' m' e'];
    try discriminate; destruct s; try discriminate; reflexivity.
Qed.

(** For two cards whose centres differ, the connector of the edge in the
    other direction runs between the same two ports: it leaves the target
    where the edge enters it and enters the source where the edge leaves
    it. *)
Theorem reversed_edge_swaps_ports sp tp :
  apart sp tp ->
  exit_port (edgePorts tp sp) = entry_port (edgePorts sp tp)
  /\ entry_port (edgePorts tp sp) = exit_port (edgePorts sp tp).
Proof.
  unfold apart, edgePorts.
  set (sx := Point.x sp + CARD_W / 2). set (sy := Point.y sp + CARD_H / 2).
  set (tx := Point.x tp + CARD_W / 2). set (ty := Point.y tp + CARD_H / 2).
  cbv zeta.
  rewrite (abs_sub_swap sx tx), (abs_sub_swap sy ty).
  rewrite (gt_sub_swap tx sx), (gt_sub_swap ty sy).
  intros H.
  destruct (gt (Math_abs (tx - sx)) (Math_abs (ty - sy))) eqn:Ed.
  - destruct (gt (tx - sx) 0) eqn:Ex.
    + rewrite (gt_lt_exclusive Ex). split; reflexivity.
    + assert (Hx : (tx - sx <? 0) = true).
      { exact (@dominant_sign (ty - sy) (tx - sx) Ed Ex). }
      rewrite Hx. split; reflexivity.
  - destruct H as [H|[H|H]]; [discriminate| |].
    + rewrite H, (gt_lt_exclusive H). split; reflexivity.
    + rewrite H, (lt_zero_not_gt H). split; reflexivity.
Qed.

End Reversal.

Section ReversalInstance.
Local Open Scope float_scope.

Lemma cards_apart : apart (Point.mk 0 0) (Point.mk 300 100).
Proof. left. vm_compute. reflexivity. Qed.

Lemma reversed_edge_witness :
  exit_port (edgePorts (Point.mk 300 100) (Point.mk 0 0))
  = entry_port (edgePorts (Point.mk 0 0) (Point.mk 300 100))
  /\ entry_port (edgePorts (Point.mk 300 100) (Point.mk 0 0))
     = exit_port (edgePorts (Point.mk 0 0) (Point.mk 300 100)).
Proof.
  exact (@reversed_edge_swaps_ports (Point.mk 0 0) (Point.mk 300 100)
           cards_apart).
Defined.

End ReversalInstance.

(** ** The normalised layout starts at the padding *)

Section Order.
Local Open Scope Z_scope.

Lemma SFltb_below a b :
  number_sf a -> number_sf b ->
  (SFltb a b = true <-> below (rank a) (rank b)).
Proof.
  unfold number_sf, SFltb, SFcompare, below.
  destruct a as [sa|sa| |sa ma ea], b as [sb|sb| |sb mb eb];
    intros Ha Hb; try congruence;
    try destruct sa; try destruct sb; cbn [rank fst snd];
    try (split; [discriminate | lia]);
    try (split; [lia | reflexivity]);
    try (split; [reflexivity | lia]);
    try (split; [intros; lia | reflexivity]).
  - destruct (Z.compare_spec ea eb); change (Pos.compare_cont Eq ma mb) with (Pos.compare ma mb);
      try destruct (Pos.compare_spec ma mb); cbn [CompOpp];
      split; try discriminate; try reflexivity; try lia; intros _; subst; lia.
  - destruct (Z.compare_spec ea eb); change (Pos.compare_cont Eq ma mb) with (Pos.compare ma mb);
      try destruct (Pos.compare_spec ma mb); cbn [CompOpp];
      split; try discriminate; try reflexivity; try lia; intros _; subst; lia.
Qed.
End Order.

Section Digits.
Local Open Scope Z_scope.

Lemma digits2_bounds p :
  2 ^ (Z.pos (digits2_pos p) - 1) <= Z.pos p < 2 ^ Z.pos (digits2_pos p).
Proof.
  induction p as [p IH|p IH|]; cbn [digits2_pos].
  - rewrite Pos2Z.inj_succ, Pos2Z.inj_xI.
    set (d := Z.pos (digits2_pos p)) in *.
    assert (E : 2 ^ d = 2 * 2 ^ (d - 1)).
    { rewrite <- Z.pow_succ_r by (unfold d; lia). f_equal. lia. }
    replace (Z.succ d - 1) with d by lia.
    rewrite Z.pow_succ_r by (unfold d; lia). lia.
  - rewrite Pos2Z.inj_succ. change (Z.pos p~0) with (2 * Z.pos p).
    set (d := Z.pos (digits2_pos p)) in *.
    assert (E : 2 ^ d = 2 * 2 ^ (d - 1)).
    { rewrite <- Z.pow_succ_r by (unfold d; lia). f_equal. lia. }
    replace (Z.succ d - 1) with d by lia.
    rewrite Z.pow_succ_r by (unfold d; lia). lia.
  - simpl. lia.
Qed.

Lemma iter_xO m d : Z.pos (Pos.iter xO m d) = Z.pos m * 2 ^ Z.pos d.
Proof.
  apply (Pos.iter_ind _ xO m (fun d r => Z.pos r = Z.pos m * 2 ^ Z.pos d)).
  - rewrite Z.pow_1_r. lia.
  - intros p a' IH. rewrite Pos2Z.inj_succ, Z.pow_succ_r by lia.
    change (Z.pos a'~0) with (2 * Z.pos a'). rewrite IH. lia.
Qed.

Lemma shl_align_value mx ex ez :
  ez <= ex ->
  Z.pos (fst (shl_align mx ex ez)) = Z.pos mx * 2 ^ (ex - ez).
Proof.
  intros H. unfold shl_align.
  destruct (ez - ex) as [|d|d] eqn:E; cbn [fst].
  - replace (ex - ez) with 0 by lia. rewrite Z.pow_0_r. lia.
  - lia.
  - rewrite iter_xO. f_equal. f_equal. lia.
Qed.

(** A canonical mantissa has at most 53 bits, and exactly 53 above the
    least exponent. *)
Lemma canonical_bounds m e :
  canonical_mantissa prec emax m e = true ->
  Z.pos m < 2 ^ 53 /\ (emin < e -> 2 ^ 52 <= Z.pos m) /\ emin <= e.
Proof.
  unfold canonical_mantissa, fexp. intros H. apply Z.eqb_eq in H.
  pose proof (digits2_bounds m) as [Hl Hu].
  change prec with 53 in H. change (SpecFloat.emin 53 emax) with (-1074) in H.
  change emin with (-1074).
  split.
  - assert (Z.pos (digits2_pos m) <= 53) by lia.
    eapply Z.lt_le_trans; [exact Hu|]. apply Z.pow_le_mono_r; lia.
  - split; [|lia].
    intros He. assert (Z.pos (digits2_pos m) = 53) by lia.
    replace 52 with (Z.pos (digits2_pos m) - 1) by lia. exact Hl.
Qed.

Lemma valid_finite s m e :
  valid_binary (S754_finite s m e) = true ->
  Z.pos m < 2 ^ 53 /\ (emin < e -> 2 ^ 52 <= Z.pos m) /\ emin <= e.
Proof.
  cbn [SpecFloat.valid_binary]. unfold bounded. intros H.
  apply andb_true_iff in H. now apply canonical_bounds.
Qed.
End Digits.

Section Rounding.
Local Open Scope Z_scope.

Lemma iter_pos_iter (A : Type) (f : A -> A) n :
  forall x, SpecFloat.iter_pos f n x = Pos.iter f x n.
Proof.
  induction n as [n IH|n IH|]; intros x; cbn [SpecFloat.iter_pos Pos.iter].
  - rewrite !IH. now rewrite <- !Pos.iter_swap.
  - now rewrite !IH.
  - reflexivity.
Qed.

Lemma shr_1_half mrs : 0 <= shr_m mrs -> shr_m (shr_1 mrs) = shr_m mrs / 2.
Proof.
  destruct mrs as [m r s]. cbn [shr_m shr_1].
  destruct m as [|[p|p|]|p]; intros H; cbn [shr_m]; try lia.
  - reflexivity.
  - change (Z.pos p~1) with (2 * Z.pos p + 1).
    apply Z.div_unique with 1; lia.
  - change (Z.pos p~0) with (2 * Z.pos p).
    apply Z.div_unique with 0; lia.
  - reflexivity.
Qed.

Lemma shr_iter_value n mrs :
  0 <= shr_m mrs ->
  shr_m (SpecFloat.iter_pos shr_1 n mrs) = shr_m mrs / 2 ^ Z.pos n.
Proof.
  intros H. rewrite iter_pos_iter.
  apply (Pos.iter_ind _ shr_1 mrs
           (fun n r => shr_m r = shr_m mrs / 2 ^ Z.pos n)).
  - rewrite Z.pow_1_r. now apply shr_1_half.
  - intros p a' IH. rewrite shr_1_half.
    + rewrite IH, Pos2Z.inj_succ, Z.pow_succ_r by lia.
      rewrite Z.div_div by lia. f_equal. lia.
    + rewrite IH. apply Z.div_pos; lia.
Qed.

Lemma shr_value mrs e n :
  0 <= shr_m mrs ->
  shr_m (fst (shr mrs e n)) = shr_m mrs / 2 ^ Z.max 0 n
  /\ snd (shr mrs e n) = e + Z.max 0 n.
Proof.
  intros H. unfold shr. destruct n as [|p|p]; cbn [fst snd].
  - rewrite Z.div_1_r. lia.
  - rewrite shr_iter_value by exact H.
    replace (Z.max 0 (Z.pos p)) with (Z.pos p) by lia. auto.
  - replace (Z.max 0 (Z.neg p)) with 0 by lia. rewrite Z.div_1_r. lia.
Qed.

Lemma shr_fexp_value m e l :
  0 <= m ->
  let n := Z.max 0 (fexp prec emax (Zdigits2 m + e) - e) in
  shr_m (fst (shr_fexp prec emax m e l)) = m / 2 ^ n
  /\ snd (shr_fexp prec emax m e l) = e + n.
Proof.
  intros H n. unfold shr_fexp.
  assert (E : shr_m (shr_record_of_loc m l) = m)
    by (destruct l as [|[]]; reflexivity).
  rewrite <- E at 3. apply shr_value. now rewrite E.
Qed.

Lemma round_nearest_even_bounds m l :
  m <= round_nearest_even m l <= m + 1.
Proof.
  unfold round_nearest_even. destruct l as [|[]]; try lia.
  destruct (Z.even m); lia.
Qed.

(** The result of rounding a positive integer mantissa, in terms of the two
    shifts. *)
Lemma binary_round_aux_value m e :
  0 < m ->
  let n1 := Z.max 0 (fexp prec emax (Zdigits2 m + e) - e) in
  let m1 := m / 2 ^ n1 in
  exists q, m1 <= q <= m1 + 1 /\
  let e1 := e + n1 in
  let n2 := Z.max 0 (fexp prec emax (Zdigits2 q + e1) - e1) in
  let m2 := q / 2 ^ n2 in
  let e2 := e1 + n2 in
  binary_round_aux prec emax false m e loc_Exact
  = match m2 with
    | 0 => S754_zero false
    | Z.pos p => if e2 <=? emax - prec then S754_finite false p e2
                 else S754_infinity false
    | Z.neg _ => S754_nan
    end.
Proof.
  intros Hm n1 m1. unfold binary_round_aux.
  destruct (@shr_fexp_value m e loc_Exact) as [V1 E1]; [lia|].
  destruct (shr_fexp prec emax m e loc_Exact) as [mrs' e'].
  cbn [fst snd] in V1, E1. fold n1 in V1, E1. fold m1 in V1.
  set (q := round_nearest_even (shr_m mrs') (loc_of_shr_record mrs')).
  exists q. split.
  { unfold q. rewrite <- V1. apply round_nearest_even_bounds. }
  assert (Hq : 0 <= q).
  { pose proof (round_nearest_even_bounds (shr_m mrs') (loc_of_shr_record mrs')).
    fold q in H. rewrite V1 in H.
    assert (0 <= m1) by (apply Z.div_pos; lia). lia. }
  destruct (@shr_fexp_value q e' loc_Exact Hq) as [V2 E2].
  destruct (shr_fexp prec emax q e' loc_Exact) as [mrs'' e''].
  cbn [fst snd] in V2, E2. subst e'. cbv zeta. rewrite <- V2, <- E2.
  reflexivity.
Qed.
End Rounding.

Section Difference.
Local Open Scope Z_scope.

Lemma binary_round_not_negative m e :
  not_negative (binary_round prec emax false m e).
Proof.
  unfold binary_round.
  destruct (shl_align m e _) as [mz ez].
  destruct (@binary_round_aux_value (Z.pos mz) ez) as (q & Hq & ->); [lia|].
  cbv zeta.
  set (n1 := Z.max 0 _) in *. set (n2 := Z.max 0 _).
  assert (H1 : 0 <= Z.pos mz / 2 ^ n1) by (apply Z.div_pos; lia).
  assert (H2 : 0 <= q / 2 ^ n2) by (apply Z.div_pos; lia).
  destruct (q / 2 ^ n2) as [|p|p] eqn:E; [exact I| |lia].
  now destruct (_ <=? _).
Qed.

(** A number that is not below another is at a difference from it that is
    not negative. *)
Lemma SFsub_not_negative x y :
  valid_binary x = true -> valid_binary y = true ->
  number_sf x -> finite_sf y ->
  SFltb x y = false ->
  not_negative (SF64sub x y).
Proof.
  intros Vx Vy Nx Fy L.
  assert (Ny : number_sf y) by (destruct y; try discriminate; contradiction).
  assert (B : ~ below (rank x) (rank y)).
  { intros B. apply (SFltb_below Nx Ny) in B. congruence. }
  unfold below in B. unfold SF64sub, SFsub.
  destruct x as [sx|sx| |sx mx ex], y as [sy|sy| |sy my ey];
    try contradiction; try (exfalso; apply Nx; reflexivity);
    cbn [not_negative]; auto.
  all: try solve [ try destruct sx; try destruct sy;
                   cbn [rank fst snd negb not_negative] in *;
                   auto; try exact I; exfalso; apply B; lia ].
  destruct (valid_finite _ _ _ Vx) as (Ux & Lx & Ex).
    destruct (valid_finite _ _ _ Vy) as (Uy & Ly & Ey).
    set (ez := Z.min ex ey).
    assert (Ax := @shl_align_value mx ex ez ltac:(lia)).
    assert (Ay := @shl_align_value my ey ez ltac:(lia)).
    set (X := cond_Zopp sx (Z.pos (fst (shl_align mx ex ez)))).
    set (Y := cond_Zopp sy (Z.pos (fst (shl_align my ey ez)))).
    assert (D : 0 <= X - Y).
    { unfold X, Y. rewrite Ax, Ay. clear X Y Ax Ay.
      cbn [rank fst snd] in B.
      assert (P : forall k, 1 <= k -> 2 <= 2 ^ k).
      { intros k Hk. change 2 with (2 ^ 1) at 1. apply Z.pow_le_mono_r; lia. }
      destruct sx, sy; cbn [cond_Zopp rank fst snd] in *.
      - (* both negative *)
        destruct (Z.eq_dec ex ey) as [->|Hne].
        + replace ez with ey by (unfold ez; lia). rewrite Z.sub_diag, Z.pow_0_r. lia.
        + assert (ex < ey) by lia.
          replace ez with ex by (unfold ez; lia). rewrite Z.sub_diag, Z.pow_0_r.
          specialize (P (ey - ex) ltac:(lia)). specialize (Ly ltac:(lia)). nia.
      - exfalso. apply B. lia.
      - assert (0 < 2 ^ (ex - ez)) by (apply Z.pow_pos_nonneg; unfold ez; lia).
        assert (0 < 2 ^ (ey - ez)) by (apply Z.pow_pos_nonneg; unfold ez; lia).
        nia.
      - destruct (Z.eq_dec ex ey) as [->|Hne].
        + replace ez with ey by (unfold ez; lia). rewrite Z.sub_diag, Z.pow_0_r. lia.
        + assert (ey < ex) by lia.
          replace ez with ey by (unfold ez; lia). rewrite Z.sub_diag, Z.pow_0_r.
          specialize (P (ex - ey) ltac:(lia)). specialize (Lx ltac:(lia)). nia. }
    destruct (X - Y) as [|p|p] eqn:E; cbn [binary_normalize not_negative];
      [exact I| |lia].
    apply binary_round_not_negative.
Qed.
End Difference.

Section AddForty.
Local Open Scope Z_scope.

(** 40, as a mantissa and an exponent. *)
Lemma Prim2SF_40 : Prim2SF 40%float = S754_finite false 5629499534213120 (-47).
Proof. reflexivity. Qed.

Lemma Zdigits2_bounds q :
  0 < q -> 2 ^ (Zdigits2 q - 1) <= q < 2 ^ Zdigits2 q.
Proof.
  destruct q as [|p|p]; try lia. intros _. apply digits2_bounds.
Qed.

(** Rounding a mantissa that stands for at least 40. *)
Lemma binary_round_at_least_40 p e :
  e <= -47 -> 5629499534213120 * 2 ^ (-47 - e) <= Z.pos p ->
  at_least_40 (binary_round prec emax false p e).
Proof.
  intros He Hp.
  set (k := -47 - e) in *.
  assert (Hk : 0 <= k) by (unfold k; lia).
  pose proof (digits2_bounds p) as [Dl Du].
  set (dp := Z.pos (digits2_pos p)) in *.
  assert (K : 2 ^ (52 + k) <= Z.pos p).
  { rewrite Z.pow_add_r by lia.
    assert (0 < 2 ^ k) by (apply Z.pow_pos_nonneg; lia).
    change (2 ^ 52) with 4503599627370496. nia. }
  assert (Hdp : 53 + k <= dp).
  { destruct (Z_lt_le_dec dp (53 + k)) as [Hlt|]; [|assumption].
    exfalso. assert (2 ^ dp <= 2 ^ (52 + k)) by (apply Z.pow_le_mono_r; lia).
    lia. }
  unfold binary_round. fold dp.
  assert (F : fexp prec emax (dp + e) = dp + e - 53).
  { unfold fexp. change prec with 53.
    change (SpecFloat.emin 53 emax) with (-1074). unfold k in *. lia. }
  rewrite F.
  assert (S : shl_align p e (dp + e - 53) = (p, e)).
  { unfold shl_align. destruct (dp + e - 53 - e) eqn:E; try reflexivity. lia. }
  rewrite S.
  destruct (@binary_round_aux_value (Z.pos p) e) as (q & Hq & ->); [lia|].
  cbv zeta. cbv zeta in Hq. cbn [Zdigits2] in *. fold dp in Hq |- *. rewrite F in Hq |- *.
  replace (Z.max 0 (dp + e - 53 - e)) with (dp - 53) in * by lia.
  set (m1 := Z.pos p / 2 ^ (dp - 53)) in *.
  assert (M1 : 2 ^ 52 <= m1 < 2 ^ 53).
  { unfold m1. split.
    - apply Z.div_le_lower_bound; [apply Z.pow_pos_nonneg; lia|].
      rewrite <- Z.pow_add_r by lia. replace (dp - 53 + 52) with (dp - 1) by lia.
      exact Dl.
    - apply Z.div_lt_upper_bound; [apply Z.pow_pos_nonneg; lia|].
      rewrite <- Z.pow_add_r by lia. replace (dp - 53 + 53) with dp by lia.
      exact Du. }
  assert (Q : 2 ^ 52 <= q <= 2 ^ 53) by lia.
  pose proof (@Zdigits2_bounds q ltac:(lia)) as [Ql Qu].
  set (dq := Zdigits2 q) in *.
  assert (Hdq : dq = 53 \/ dq = 54).
  { destruct (Z_lt_le_dec dq 53) as [H|H].
    - exfalso. assert (2 ^ dq <= 2 ^ 52) by (apply Z.pow_le_mono_r; lia). lia.
    - destruct (Z_lt_le_dec 54 dq) as [H'|H']; [|lia].
      exfalso. assert (2 ^ 54 <= 2 ^ (dq - 1)) by (apply Z.pow_le_mono_r; lia).
      change (2 ^ 54) with 18014398509481984 in *.
      change (2 ^ 53) with 9007199254740992 in *. lia. }
  set (e1 := e + (dp - 53)) in *.
  assert (F2 : fexp prec emax (dq + e1) - e1 = dq - 53).
  { unfold fexp. change prec with 53.
    change (SpecFloat.emin 53 emax) with (-1074). unfold e1, k in *. lia. }
  rewrite F2.
  replace (Z.max 0 (dq - 53)) with (dq - 53) by lia.
  assert (M2 : 2 ^ 51 <= q / 2 ^ (dq - 53)).
  { destruct Hdq as [-> | ->].
    - change (2 ^ (53 - 53)) with 1. rewrite Z.div_1_r.
      change (2 ^ 51) with 2251799813685248. change (2 ^ 52) with 4503599627370496 in *. lia.
    - change (2 ^ (54 - 53)) with 2.
      apply Z.div_le_lower_bound; [lia|].
      change (2 ^ 51) with 2251799813685248. change (2 ^ 52) with 4503599627370496 in *. lia. }
  destruct (q / 2 ^ (dq - 53)) as [|m2|m2] eqn:E2;
    [change (2 ^ 51) with 2251799813685248 in M2; lia| |
     change (2 ^ 51) with 2251799813685248 in M2; lia].
  destruct (_ <=? _); cbn [at_least_40]; [|reflexivity].
  split; [reflexivity|].
  destruct (Z.eq_dec dp (53 + k)) as [Edp|Ndp]; [|left; unfold e1, k in *; lia].
  destruct Hdq as [Hd | Hd]; [|left; unfold e1, k in *; lia].
  right. split; [unfold e1, k in *; lia|].
  rewrite Hd in E2. change (2 ^ (53 - 53)) with 1 in E2. rewrite Z.div_1_r in E2.
  rewrite <- E2.
  assert (5629499534213120 <= m1).
  { unfold m1. apply Z.div_le_lower_bound; [apply Z.pow_pos_nonneg; lia|].
    replace (dp - 53) with k by lia. lia. }
  lia.
Qed.
End AddForty.

Section Shifted.
Local Open Scope Z_scope.

Lemma SFadd_40_at_least d :
  not_negative d ->
  at_least_40 (SF64add d (S754_finite false 5629499534213120 (-47))).
Proof.
  unfold SF64add, SFadd.
  destruct d as [s|s| |s md ed]; cbn [not_negative]; try contradiction.
  - intros _. cbn [at_least_40]. split; [reflexivity|]. right. lia.
  - intros ->. reflexivity.
  - intros ->.
    set (ez := Z.min ed (-47)).
    assert (Ad := @shl_align_value md ed ez ltac:(unfold ez; lia)).
    assert (A40 := @shl_align_value 5629499534213120 (-47) ez ltac:(unfold ez; lia)).
    cbn [cond_Zopp].
    set (a := fst (shl_align md ed ez)) in *.
    set (b := fst (shl_align 5629499534213120 (-47) ez)) in *.
    change (Z.pos a + Z.pos b) with (Z.pos (a + b)). cbn [binary_normalize].
    apply binary_round_at_least_40.
    + unfold ez. lia.
    + rewrite Pos2Z.inj_add, A40. lia.
Qed.

Lemma is_nan_spec x : is_nan x = true <-> Prim2SF x = S754_nan.
Proof.
  unfold is_nan. rewrite FloatAxioms.eqb_spec.
  destruct (Prim2SF x) as [s|s| |s m e]; cbn.
  - split; discriminate.
  - destruct s; split; discriminate.
  - split; reflexivity.
  - unfold SFeqb, SFcompare. rewrite Z.compare_refl, Pos.compare_cont_refl.
    destruct s; split; discriminate.
Qed.

Lemma number_spec x : is_nan x = false <-> number_sf (Prim2SF x).
Proof.
  unfold number_sf. rewrite <- is_nan_spec. destruct (is_nan x); split; congruence.
Qed.

Lemma finite_sf_spec x : is_finite x = true -> finite_sf (Prim2SF x).
Proof.
  intros H. destruct (finite_spec x H) as [[s E]|[s [m [e E]]]]; rewrite E;
    exact I.
Qed.

(** A number that is not below a finite number is sent to 40 or above by
    subtracting that number and adding 40. *)
Lemma shifted_at_least_40 (x m : float) :
  is_nan x = false -> is_finite m = true -> (x <? m)%float = false ->
  at_least_40 (Prim2SF (x - m + 40)%float).
Proof.
  intros Nx Fm L.
  rewrite FloatAxioms.add_spec, Prim2SF_40. apply SFadd_40_at_least.
  rewrite FloatAxioms.sub_spec. apply SFsub_not_negative.
  - apply FloatAxioms.Prim2SF_valid.
  - apply FloatAxioms.Prim2SF_valid.
  - now apply number_spec.
  - now apply finite_sf_spec.
  - now rewrite <- FloatAxioms.ltb_spec.
Qed.

(** What being at least a positive finite number means for the
    comparisons. *)
Lemma at_least_facts_sf (m0 : positive) (e0 : Z) (f : spec_float) :
  match f with
  | S754_infinity s => s = false
  | S754_finite s m e =>
      s = false /\ (e0 < e \/ (e = e0 /\ Z.pos m0 <= Z.pos m))
  | _ => False
  end ->
  number_sf f
  /\ SFltb f (S754_finite false m0 e0) = false
  /\ SF64classify f <> NZero
  /\ (SFltb (S754_finite false m0 e0) f = false -> f = S754_finite false m0 e0).
Proof.
  destruct f as [s|s| |s m e]; try contradiction.
  - intros ->. repeat split; try discriminate.
  - intros [-> H]. unfold number_sf, SFltb, SFcompare.
    change (Pos.compare_cont Eq m m0) with (Pos.compare m m0).
    change (Pos.compare_cont Eq m0 m) with (Pos.compare m0 m).
    split; [discriminate|]. split; [|split].
    + destruct (Z.compare_spec e e0); try reflexivity; try lia.
      destruct (Pos.compare_spec m m0); try reflexivity; lia.
    + unfold SF64classify, SFclassify. now destruct (_ =? _).
    + destruct (Z.compare_spec e0 e); try discriminate; try lia.
      destruct (Pos.compare_spec m0 m); try discriminate; try lia.
      subst. reflexivity.
Qed.

Lemma at_least_40_facts (o : float) :
  at_least_40 (Prim2SF o) ->
  is_nan o = false /\ (o <? 40)%float = false
  /\ is_neg_zero o = false
  /\ ((40 <? o)%float = false -> o = 40%float).
Proof.
  intros H. apply at_least_facts_sf in H. destruct H as (N & L & C & E).
  split; [now apply number_spec|].
  unfold is_neg_zero.
  rewrite FloatAxioms.classify_spec, !FloatAxioms.ltb_spec, Prim2SF_40.
  split; [exact L|]. split.
  - destruct (SF64classify (Prim2SF o)); congruence.
  - intros G. apply Prim2SF_inj. rewrite Prim2SF_40. now apply E.
Qed.
End Shifted.

Section Minimum.
Local Open Scope float_scope.

(** [a <? b], for numbers, in terms of the ranks. *)
Lemma ltb_below (a b : float) :
  is_nan a = false -> is_nan b = false ->
  ((a <? b) = true <-> below (rank (Prim2SF a)) (rank (Prim2SF b))).
Proof.
  intros Na Nb. rewrite FloatAxioms.ltb_spec.
  apply SFltb_below; now apply number_spec.
Qed.

Lemma not_ltb_below (a b : float) :
  is_nan a = false -> is_nan b = false ->
  ((a <? b) = false <-> ~ below (rank (Prim2SF a)) (rank (Prim2SF b))).
Proof.
  intros Na Nb. rewrite <- (@ltb_below a b Na Nb). destruct (a <? b); split; congruence.
Qed.

Lemma rank_zeros (a b : float) :
  is_neg_zero a = true -> is_pos_zero b = true ->
  rank (Prim2SF a) = rank (Prim2SF b).
Proof.
  unfold is_neg_zero, is_pos_zero. rewrite !FloatAxioms.classify_spec.
  unfold SF64classify, SFclassify.
  destruct (Prim2SF a) as [[]|[]| |[] ? ?], (Prim2SF b) as [[]|[]| |[] ? ?];
    try discriminate; try reflexivity;
    try (destruct (_ =? _)%Z; discriminate);
    try (destruct (_ =? _)%Z; destruct (_ =? _)%Z; discriminate).
Qed.

Lemma is_nan_nan : is_nan nan = true.
Proof. reflexivity. Qed.

(** A minimum that is a number is not above the start and not above any
    element, and every element is a number. *)
Lemma min_from_lower xs :
  forall lowest,
  is_nan lowest = false -> is_nan (min_from lowest xs) = false ->
  (lowest <? min_from lowest xs) = false
  /\ forall x, In x xs -> is_nan x = false /\ (x <? min_from lowest xs) = false.
Proof.
  induction xs as [|x xs IH]; intros lowest Nl Nm; cbn [min_from] in *.
  - split; [|intros x []].
    apply not_ltb_below; auto. unfold below. lia.
  - destruct (is_nan x) eqn:Nx; [rewrite is_nan_nan in Nm; discriminate|].
    destruct ((is_neg_zero x && is_pos_zero lowest) || (x <? lowest)) eqn:C.
    + destruct (IH x Nx Nm) as [Hx Hrest].
      set (m := min_from x xs) in *.
      assert (Hl : (lowest <? m) = false).
      { apply not_ltb_below; auto. apply (@not_ltb_below _ _ Nx Nm) in Hx.
        apply orb_true_iff in C. destruct C as [C|C].
        - apply andb_true_iff in C. destruct C as [C1 C2].
          now rewrite <- (@rank_zeros _ _ C1 C2).
        - apply (@ltb_below _ _ Nx Nl) in C. revert Hx C. unfold below.
          generalize (rank (Prim2SF x)) (rank (Prim2SF m))
                     (rank (Prim2SF lowest)).
          intros [a1 [a2 a3]] [b1 [b2 b3]] [c1 [c2 c3]]. cbn [fst snd]. lia. }
      split; [exact Hl|].
      intros y [<-|Hy]; [split; assumption|]. now apply Hrest.
    + destruct (IH lowest Nl Nm) as [Hl Hrest].
      set (m := min_from lowest xs) in *.
      split; [exact Hl|].
      intros y [<-|Hy]; [|now apply Hrest].
      split; [exact Nx|].
      apply orb_false_iff in C. destruct C as [_ C].
      apply not_ltb_below; auto.
      apply (@not_ltb_below _ _ Nl Nm) in Hl. apply (@not_ltb_below _ _ Nx Nl) in C.
      revert Hl C. unfold below.
      generalize (rank (Prim2SF x)) (rank (Prim2SF m)) (rank (Prim2SF lowest)).
      intros [a1 [a2 a3]] [b1 [b2 b3]] [c1 [c2 c3]]. cbn [fst snd]. lia.
Qed.

Lemma finite_number x : is_finite x = true -> is_nan x = false.
Proof. unfold is_finite. now destruct (is_nan x). Qed.

Lemma is_nan_infinity : is_nan infinity = false.
Proof. reflexivity. Qed.

Lemma Math_min_lower (xs : list number) x :
  is_finite (Math_min xs) = true -> In x xs ->
  is_nan x = false /\ (x <? Math_min xs) = false.
Proof.
  intros F Hx.
  apply (proj2 (@min_from_lower xs infinity is_nan_infinity (@finite_number _ F))).
  exact Hx.
Qed.

(** The minimum of numbers that are at least 40, one of which is 40. *)
Lemma min_from_40 (os : list number) :
  (forall o, In o os -> at_least_40 (Prim2SF o)) ->
  forall lowest, at_least_40 (Prim2SF lowest) ->
  lowest = 40 \/ In 40 os ->
  min_from lowest os = 40.
Proof.
  induction os as [|o os IH]; intros Hos lowest Hl H40; cbn [min_from].
  - destruct H40 as [H|[]]. exact H.
  - destruct (@at_least_40_facts o (Hos o (or_introl eq_refl)))
      as (No & Lo & Zo & Eo).
    rewrite No, Zo. cbn [andb orb].
    assert (Hrest : forall o', In o' os -> at_least_40 (Prim2SF o'))
      by (intros o' Ho'; apply Hos; now right).
    destruct (o <? lowest) eqn:C.
    + apply IH; auto. { apply Hos. now left. }
      destruct H40 as [H|[H|H]]; auto.
      subst lowest. rewrite Lo in C. discriminate.
    + apply IH; auto.
      destruct H40 as [H|[H|H]]; auto.
      left. destruct (@at_least_40_facts lowest Hl) as (_ & _ & _ & El).
      apply El. now rewrite <- H.
Qed.

Lemma at_least_40_infinity : at_least_40 (Prim2SF infinity).
Proof. rewrite Prim2SF_infinity. reflexivity. Qed.

End Minimum.

Section Padding.
Local Open Scope float_scope.
Variables Math_cos Math_sin : number -> number.

(** The coordinates [c p - m + 40] of a list of particles whose least
    coordinate [m] is finite: each is a number not below 40, and the least
    of them is 40. *)
Lemma shifted_coordinates (c : Particle.t -> number) (ps : list Particle.t) :
  let m := Math_min (map c ps) in
  is_finite m = true ->
  (forall p, In p ps -> at_least_40 (Prim2SF (c p - m + 40)))
  /\ Math_min (map (fun p => c p - m + 40) ps) = 40.
Proof.
  intros m F.
  assert (A : forall p, In p ps -> at_least_40 (Prim2SF (c p - m + 40))).
  { intros p Hp.
    destruct (@Math_min_lower (map c ps) (c p) F (in_map c ps p Hp)) as [N L].
    now apply shifted_at_least_40. }
  split; [exact A|].
  unfold Math_min at 1. apply min_from_40.
  - intros o Ho. apply in_map_iff in Ho. destruct Ho as (p & <- & Hp). now apply A.
  - apply at_least_40_infinity.
  - right. pose proof (Math_min_attained _ F) as Hm. fold m in Hm.
    apply in_map_iff in Hm. destruct Hm as (p & Ep & Hp).
    apply in_map_iff. exists p. split; [|exact Hp].
    rewrite Ep, sub_self by exact F. reflexivity.
Qed.

(** The view box of positions whose least coordinates are 40 starts at
    the origin. *)
Lemma view_box_origin (positions : dict Point.t) :
  Math_min (map Point.x (Object_values positions)) = 40 ->
  Math_min (map Point.y (Object_values positions)) = 40 ->
  ViewBox.min_x (view_box positions) = 0
  /\ ViewBox.min_y (view_box positions) = 0.
Proof.
  intros Hx Hy. unfold view_box. cbv zeta. cbn [ViewBox.min_x ViewBox.min_y].
  rewrite Hx, Hy. split; reflexivity.
Qed.

(** The normalisation of a state without repeated keys whose least
    coordinates are finite. *)
Lemma normalise_padding (pos : dict Particle.t) :
  NoDup (Object_keys pos) ->
  is_finite (Math_min (map Particle.x (Object_values pos))) = true ->
  is_finite (Math_min (map Particle.y (Object_values pos))) = true ->
  (forall k p, lookup k (normalise pos) = Some p ->
     is_nan (Point.x p) = false /\ (Point.x p <? 40) = false
     /\ is_nan (Point.y p) = false /\ (Point.y p <? 40) = false)
  /\ Math_min (map Point.x (Object_values (normalise pos))) = 40
  /\ Math_min (map Point.y (Object_values (normalise pos))) = 40
  /\ ViewBox.min_x (view_box (normalise pos)) = 0
  /\ ViewBox.min_y (view_box (normalise pos)) = 0.
Proof.
  intros Hnd Fx Fy. rewrite (@normalise_map pos Hnd).
  set (minX := Math_min (map Particle.x (Object_values pos))) in *.
  set (minY := Math_min (map Particle.y (Object_values pos))) in *.
  set (positions := map _ pos).
  destruct (@shifted_coordinates Particle.x (Object_values pos) Fx) as [Ax Mx].
  destruct (@shifted_coordinates Particle.y (Object_values pos) Fy) as [Ay My].
  fold minX in Ax, Mx. fold minY in Ay, My.
  assert (Mx' : Math_min (map Point.x (Object_values positions)) = 40).
  { rewrite <- Mx. f_equal. unfold positions, Object_values.
    rewrite !map_map. reflexivity. }
  assert (My' : Math_min (map Point.y (Object_values positions)) = 40).
  { rewrite <- My. f_equal. unfold positions, Object_values.
    rewrite !map_map. reflexivity. }
  split; [|split; [exact Mx'|split; [exact My'|]]].
  - intros k p Hk. apply In_of_lookup in Hk.
    apply in_map_iff in Hk. destruct Hk as ([k' q] & Eq & Hq).
    cbn [fst snd] in Eq. injection Eq as _ <-.
    assert (Hv : In q (Object_values pos)).
    { unfold Object_values. apply in_map_iff. exists (k', q).
      split; [reflexivity|exact Hq]. }
    destruct (@at_least_40_facts _ (Ax q Hv)) as (N1 & L1 & _).
    destruct (@at_least_40_facts _ (Ay q Hv)) as (N2 & L2 & _).
    cbn [translate Point.x Point.y].
    exact (conj N1 (conj L1 (conj N2 L2))).
  - exact (@view_box_origin positions Mx' My').
Qed.

Lemma useForceLayout_nonempty (nodes : list LineageNode.t)
    (edges : list LineageEdge.t) :
  nodes <> [] ->
  useForceLayout Math_cos Math_sin nodes edges
  = normalise (simulate edges (seed Math_cos Math_sin nodes)).
Proof.
  intros Hne. destruct nodes; [congruence|reflexivity].
Qed.

(** The statement below names the final state of the simulation, which the
    inference of implicit arguments would evaluate: it is switched off up
    to the end of the section. *)
Local Unset Implicit Arguments.

(** When the simulation ends with finite least coordinates, every
    returned coordinate is a number not below 40, the least x and the least
    y are 40 exactly, and the view box SchemaGraph computes from the
    positions starts at (0, 0). *)
Theorem normalised_layout_starts_at_padding
    (nodes : list LineageNode.t) (edges : list LineageEdge.t) :
  nodes <> [] ->
  let final := simulate edges (seed Math_cos Math_sin nodes) in
  is_finite (Math_min (map Particle.x (Object_values final))) = true ->
  is_finite (Math_min (map Particle.y (Object_values final))) = true ->
  let positions := useForceLayout Math_cos Math_sin nodes edges in
  (forall k p, lookup k positions = Some p ->
     is_nan (Point.x p) = false /\ (Point.x p <? 40) = false
     /\ is_nan (Point.y p) = false /\ (Point.y p <? 40) = false)
  /\ Math_min (map Point.x (Object_values positions)) = 40
  /\ Math_min (map Point.y (Object_values positions)) = 40
  /\ ViewBox.min_x (view_box positions) = 0
  /\ ViewBox.min_y (view_box positions) = 0.
Proof.
  intros Hne final.
  assert (Hnd : NoDup (Object_keys final)) by apply NoDup_simulate.
  rewrite (@useForceLayout_nonempty nodes edges Hne). fold final.
  clearbody final. intros Fx Fy positions.
  exact (@normalise_padding final Hnd Fx Fy).
Qed.

End Padding.

Lemma padding_witness :
  (forall k p,
     lookup k (useForceLayout ref_cos ref_sin [node_A; node_B] [edge_AB]) = Some p ->
     is_nan (Point.x p) = false /\ (Point.x p <? 40)%float = false
     /\ is_nan (Point.y p) = false /\ (Point.y p <? 40)%float = false)
  /\ Math_min (map Point.x (Object_values
        (useForceLayout ref_cos ref_sin [node_A; node_B] [edge_AB]))) = 40%float
  /\ Math_min (map Point.y (Object_values
        (useForceLayout ref_cos ref_sin [node_A; node_B] [edge_AB]))) = 40%float
  /\ ViewBox.min_x (view_box
        (useForceLayout ref_cos ref_sin [node_A; node_B] [edge_AB])) = 0%float
  /\ ViewBox.min_y (view_box
        (useForceLayout ref_cos ref_sin [node_A; node_B] [edge_AB])) = 0%float.
Proof.
  apply (@normalised_layout_starts_at_padding ref_cos ref_sin
           [node_A; node_B] [edge_AB] two_nodes_nonempty);
    vm_compute; reflexivity.
Defined.

(** ** The model evaluated on concrete inputs *)

Section Examples.
Local Open Scope float_scope.

Example Math_ceil_examples :
  Math_ceil (Math_sqrt 2) = 2 /\ Math_ceil (Math_sqrt 9) = 3
  /\ Math_ceil 0.2 = 1 /\ Math_ceil (-2.5) = -2 /\ Math_ceil 7 = 7.
Proof. conjuncts; vm_compute; reflexivity. Qed.

Example Math_max_min_examples :
  Math_max [0.25; 1] = 1 /\ Math_max [2.5; 1] = 2.5 /\ Math_max [nan; 1] = nan
  /\ Math_min [3; -1; 2] = -1 /\ Math_min [3; nan] = nan
  /\ Math_min [] = infinity.
Proof. conjuncts; vm_compute; reflexivity. Qed.

Example or_else_examples :
  or_else 0 1 = 1 /\ or_else (-0) 1 = 1 /\ or_else nan 1 = 1
  /\ or_else 2.5 1 = 2.5.
Proof. conjuncts; vm_compute; reflexivity. Qed.

(** Two nodes are seeded on the circle of radius 220 around (400, 300). *)
Example seed_two_nodes :
  seed ref_cos ref_sin [node_A; node_B]
  = [("s:A"%string, Particle.mk 620 300 0 0);
     ("s:B"%string, Particle.mk 180 300 0 0)].
Proof. vm_compute. reflexivity. Qed.

(** A second node with the key of the first replaces its particle and keeps
    its place in the enumeration. *)
Example seed_repeated_key :
  Object_keys (seed ref_cos ref_sin [node_A; node_B; node_A])
  = ["s:A"; "s:B"]%string.
Proof. vm_compute. reflexivity. Qed.

(** The scenario of the specification: [A], [B], [C] with the edge from [A]
    to [B]. *)
Example three_node_scenario :
  let L := useForceLayout ref_cos ref_sin [node_A; node_B; node_C] [edge_AB] in
  distance_between L "s:A" "s:B" = 355.9402232480241
  /\ distance_between L "s:A" "s:C" = 592.49877399250397
  /\ distance_between L "s:B" "s:C" = 592.49877399250408.
Proof. intros L. conjuncts; vm_compute; reflexivity. Qed.

Example edgePorts_examples :
  edgePorts (Point.mk 0 0) (Point.mk 300 100) = Ports.mk 160 30 300 130
  /\ edgePorts (Point.mk 300 100) (Point.mk 0 0) = Ports.mk 300 130 160 30
  /\ edgePorts (Point.mk 0 0) (Point.mk 50 200) = Ports.mk 80 60 130 200
  /\ edgePorts (Point.mk 50 200) (Point.mk 0 0) = Ports.mk 130 200 80 60
  /\ edgePorts (Point.mk 0 0) (Point.mk 100 100) = Ports.mk 80 60 180 100.
Proof. conjuncts; vm_compute; reflexivity. Qed.

End Examples.
